(** * A shallow embedding of the Scheme interpreter's parse/evaluate pipeline

    The development follows [src/parser.cpp], [src/evaluation.cpp] and
    [src/main.cpp].

    - A [Value] of the program is a [shared_ptr<ValueBase>].  It is modelled
      as the address of an object in a store; [IntegerV], [PairV], ... each
      allocate a fresh object, exactly as the C++ factory functions do, so
      that pointer identity ([eq?]) and the in-place mutation of pairs
      ([set-car!], [set-cdr!]) are those of the program.
    - An [Assoc] is a chain of [AssocList] nodes.  The name and the link of a
      node never change after construction; the value held by the node is
      mutable.  A chain is therefore a list of (name, cell address) and the
      cells live in the store.
    - [int] is a 32-bit two's complement integer, [long long] a 64-bit one;
      arithmetic on them is arithmetic on [Z] followed by the wrap-around.
    - C++ exceptions ([RuntimeError]) are an outcome of the monad [M]; the
      store at the point of the [throw] survives, as it does in the program.
    - [eval] can loop forever; it is defined with fuel, and running out of
      fuel is the outcome [Diverge].
    - Where C++ defines no behaviour and the target machine does not simply
      wrap around (the division [INT_MIN / -1], which traps; a pointer to no
      object, which no [shared_ptr] of the program ever is), the outcome is
      [Undefined]. *)

From Stdlib Require Import ZArith String List Lia Bool.
From stdpp Require Import base list.
Import ListNotations.

Local Open Scope string_scope.
Local Open Scope list_scope.

#[local] Set Warnings "-register-all".

(** ** Machine integers *)

Definition INT_MAX : Z := 2147483647.
Definition INT_MIN : Z := -2147483648.

(** The value an [int] computation stores: the mathematical result reduced
    to 32 bits, two's complement. *)
Definition wrap_int (z : Z) : Z := ((z + 2 ^ 31) mod 2 ^ 32 - 2 ^ 31)%Z.

(** The same for [long long] (64 bits). *)
Definition wrap_ll (z : Z) : Z := ((z + 2 ^ 63) mod 2 ^ 64 - 2 ^ 63)%Z.

Definition in_int (z : Z) : Prop := (INT_MIN <= z <= INT_MAX)%Z.

Definition in_intb (z : Z) : bool := ((INT_MIN <=? z) && (z <=? INT_MAX))%Z.

(** ** Syntax trees (produced by the reader) *)

Inductive Syntax : Type :=
| Number (n : Z)
| RationalSyntax (numerator denominator : Z)
| StringSyntax (s : string)
| SymbolSyntax (s : string)
| TrueSyntax
| FalseSyntax
| List (stxs : list Syntax).

(** ** Expression trees *)

(** The enumerators of [ExprType] that [List::parse] dispatches on. *)
Inductive ExprType : Type :=
| E_PLUS | E_MINUS | E_MUL | E_DIV | E_MODULO | E_EXPT | E_LIST
| E_LT | E_LE | E_EQ | E_GE | E_GT
| E_AND | E_OR | E_NOT
| E_EQQ | E_BOOLQ | E_INTQ | E_NULLQ | E_PAIRQ | E_PROCQ | E_SYMBOLQ
| E_STRINGQ | E_LISTQ
| E_CONS | E_CAR | E_CDR | E_SETCAR | E_SETCDR
| E_DISPLAY | E_VOID | E_EXIT
| E_QUOTE | E_BEGIN | E_IF | E_COND | E_LAMBDA | E_DEFINE | E_LET
| E_LETREC | E_SET.

(** Subclasses of [Unary]: one operand, behaviour in [evalRator]. *)
Inductive UnaryOp : Type :=
| Not | IsBoolean | IsFixnum | IsNull | IsPair | IsProcedure | IsSymbol
| IsString | IsList | Car | Cdr | Display.

(** Subclasses of [Binary]. *)
Inductive BinaryOp : Type :=
| Plus | Minus | Mult | Div | Modulo | Expt
| Less | LessEq | Equal | GreaterEq | Greater
| Cons | SetCar | SetCdr | IsEq.

(** Subclasses of [Variadic] that use [Variadic::eval]. *)
Inductive VariadicOp : Type :=
| PlusVar | MinusVar | MultVar | DivVar
| LessVar | LessEqVar | EqualVar | GreaterEqVar | GreaterVar
| ListFunc.

(** [True], [False] and [Set] of the source are [TrueE], [FalseE] and
    [SetE] here. *)
Inductive Expr : Type :=
| Fixnum (n : Z)
| RationalNum (numerator denominator : Z)
| StringExpr (s : string)
| TrueE
| FalseE
| MakeVoid
| Exit
| Unary (op : UnaryOp) (rand : Expr)
| Binary (op : BinaryOp) (rand1 rand2 : Expr)
| Variadic (op : VariadicOp) (rands : list Expr)
| Var (x : string)
| Begin (es : list Expr)
| Quote (s : Syntax)
| AndVar (rands : list Expr)
| OrVar (rands : list Expr)
| If (cond conseq alter : Expr)
| Cond (clauses : list (list Expr))
| Lambda (x : list string) (e : Expr)
| Apply (rator : Expr) (rand : list Expr)
| Define (var : string) (e : Expr)
| Let (bind : list (string * Expr)) (body : Expr)
| Letrec (bind : list (string * Expr)) (body : Expr)
| SetE (var : string) (e : Expr).

(** ** Values, environments and the store *)

(** A [Value] is the address of an object. *)
Definition Value : Type := nat.

(** An environment chain: innermost binding first; each binding names the
    cell that holds its value.  [nullptr] is the empty chain. *)
Definition Assoc : Type := list (string * nat).

(** The objects a [Value] can point to (the subclasses of [ValueBase]). *)
Inductive ValueBase : Type :=
| Integer (n : Z)
| Rational (numerator denominator : Z)
| String_ (s : string)
| Symbol (s : string)
| Boolean (b : bool)
| Null
| Pair (car cdr : Value)
| Procedure (parameters : list string) (e : Expr) (env : Assoc)
| Void
| Terminate.

(** The tag [v_type] of an object. *)
Inductive ValueType : Type :=
| V_INT | V_RATIONAL | V_STRING | V_SYM | V_BOOL | V_NULL | V_PAIR | V_PROC
| V_VOID | V_TERMINATE.

#[global] Instance ValueType_eq_dec : EqDecision ValueType.
Proof. solve_decision. Defined.

Definition v_type (o : ValueBase) : ValueType :=
  match o with
  | Integer _ => V_INT
  | Rational _ _ => V_RATIONAL
  | String_ _ => V_STRING
  | Symbol _ => V_SYM
  | Boolean _ => V_BOOL
  | Null => V_NULL
  | Pair _ _ => V_PAIR
  | Procedure _ _ _ => V_PROC
  | Void => V_VOID
  | Terminate => V_TERMINATE
  end.

Record Store : Type := mkStore {
  objects : list ValueBase;   (* the heap of values *)
  cells : list Value;         (* the value fields of the AssocList nodes *)
  output : list string        (* what was written to std::cout, in order *)
}.

Definition empty_store : Store := mkStore [] [] [].

(** ** The evaluation monad: state, exceptions, divergence *)

Inductive Result (A : Type) : Type :=
| OK (a : A) (s : Store)
| RuntimeError (msg : string) (s : Store)
| Diverge
| Undefined.

Arguments OK {A} a s.
Arguments RuntimeError {A} msg s.
Arguments Diverge {A}.
Arguments Undefined {A}.

Definition M (A : Type) : Type := Store -> Result A.

Definition ret {A} (a : A) : M A := fun s => OK a s.

Definition bind {A B} (m : M A) (f : A -> M B) : M B :=
  fun s =>
    match m s with
    | OK a s' => f a s'
    | RuntimeError msg s' => RuntimeError msg s'
    | Diverge => Diverge
    | Undefined => Undefined
    end.

Definition throw {A} (msg : string) : M A := fun s => RuntimeError msg s.

Definition diverge {A} : M A := fun _ => Diverge.

Definition undefined {A} : M A := fun _ => Undefined.

Notation "x <- c1 ;; c2" := (bind c1 (fun x => c2))
  (at level 100, c1 at next level, right associativity).

Notation "c1 ;;; c2" := (bind c1 (fun _ => c2))
  (at level 100, right associativity).

(** [new T(...)] wrapped in a [shared_ptr]. *)
Definition new_obj (o : ValueBase) : M Value :=
  fun s => OK (length (objects s))
              (mkStore (objects s ++ [o]) (cells s) (output s)).

(** [v.get()] followed by a read of the object.  A [shared_ptr] keeps its
    object alive, so the [Undefined] outcome never arises from the program's
    own values. *)
Definition deref (v : Value) : M ValueBase :=
  fun s => match objects s !! v with
           | Some o => OK o s
           | None => Undefined
           end.

(** Overwrite the object at [v] (only pairs are ever overwritten). *)
Definition store_obj (v : Value) (o : ValueBase) : M unit :=
  fun s => OK tt (mkStore (<[v := o]> (objects s)) (cells s) (output s)).

(** [std::cout << str]. *)
Definition print (str : string) : M unit :=
  fun s => OK tt (mkStore (objects s) (cells s) (output s ++ [str])).

(** The factory functions of value.hpp. *)
Definition IntegerV (n : Z) : M Value := new_obj (Integer n).
Definition RationalV (numerator denominator : Z) : M Value :=
  new_obj (Rational numerator denominator).
Definition StringV (s : string) : M Value := new_obj (String_ s).
Definition SymbolV (s : string) : M Value := new_obj (Symbol s).
Definition BooleanV (b : bool) : M Value := new_obj (Boolean b).
Definition NullV : M Value := new_obj Null.
Definition PairV (car cdr : Value) : M Value := new_obj (Pair car cdr).
Definition ProcedureV (parameters : list string) (e : Expr) (env : Assoc)
  : M Value := new_obj (Procedure parameters e env).
Definition VoidV : M Value := new_obj Void.
Definition TerminateV : M Value := new_obj Terminate.

(** ** The environment interface (value.cpp) *)

(** Modelled from the spec: [empty], [extend], [find] and [modify] are
    defined in value.cpp, which is not among the sources.  The spec: the
    environment is a chain of frames searched innermost to outermost, first
    match wins; extending never mutates an existing frame and produces a new
    frame pointing at the previous chain; mutation searches the chain and
    updates the cell found in place, and fails if the name is unbound. *)
Definition empty : Assoc := [].

(** Modelled from the spec: [extend] (value.cpp) allocates one node and
    returns the new chain; the chain it was given is unchanged. *)
Definition extend (x : string) (v : Value) (lst : Assoc) : M Assoc :=
  fun s => OK ((x, length (cells s)) :: lst)
              (mkStore (objects s) (cells s ++ [v]) (output s)).

(** Modelled from the spec: [find] (value.cpp) returns the value of the
    innermost binding of [x], or the null pointer ([None]). *)
Fixpoint find (x : string) (lst : Assoc) (s : Store) : option Value :=
  match lst with
  | [] => None
  | (y, c) :: next => if String.eqb x y then cells s !! c else find x next s
  end.

(** Modelled from the spec: [modify] (value.cpp) overwrites the cell of the
    innermost binding of [x]; an unbound name is an error (the spec gives no
    text for its message; the driver prints none). *)
Fixpoint modify (x : string) (v : Value) (lst : Assoc) : M unit :=
  match lst with
  | [] => throw ("Undefined variable: " ++ x)
  | (y, c) :: next =>
      if String.eqb x y
      then fun s => OK tt (mkStore (objects s) (<[c := v]> (cells s)) (output s))
      else modify x v next
  end.

(** ** Numeric helpers of evaluation.cpp *)

(** [n1 / n2] and [n1 % n2] on [int], for [n2] other than 0: they truncate
    toward zero ([Z.quot], [Z.rem]).  The quotient of [INT_MIN] by [-1] is not
    an [int]; C++ defines no behaviour for either operator there, and the
    machine instruction traps. *)
Definition int_div (n1 n2 : Z) : M Z :=
  if ((n1 =? INT_MIN) && (n2 =? -1))%Z then undefined else ret (Z.quot n1 n2).

Definition int_rem (n1 n2 : Z) : M Z :=
  if ((n1 =? INT_MIN) && (n2 =? -1))%Z then undefined else ret (Z.rem n1 n2).

Definition addValues (v1 v2 : Value) : M Value :=
  o1 <- deref v1 ;; o2 <- deref v2 ;;
  match o1, o2 with
  | Integer n1, Integer n2 => IntegerV (wrap_int (n1 + n2))
  | Rational num1 den1, Rational num2 den2 =>
      let num := wrap_int (wrap_int (num1 * den2) + wrap_int (num2 * den1)) in
      let den := wrap_int (den1 * den2) in
      RationalV num den
  | Integer n1, Rational num2 den2 =>
      let num := wrap_int (wrap_int (n1 * den2) + num2) in
      RationalV num den2
  | Rational num1 den1, Integer n2 =>
      let num := wrap_int (num1 + wrap_int (n2 * den1)) in
      RationalV num den1
  | _, _ => throw "Cannot add non-numeric values"
  end.

Definition subtractValues (v1 v2 : Value) : M Value :=
  o1 <- deref v1 ;; o2 <- deref v2 ;;
  match o1, o2 with
  | Integer n1, Integer n2 => IntegerV (wrap_int (n1 - n2))
  | Rational num1 den1, Rational num2 den2 =>
      let num := wrap_int (wrap_int (num1 * den2) - wrap_int (num2 * den1)) in
      let den := wrap_int (den1 * den2) in
      RationalV num den
  | Integer n1, Rational num2 den2 =>
      let num := wrap_int (wrap_int (n1 * den2) - num2) in
      RationalV num den2
  | Rational num1 den1, Integer n2 =>
      let num := wrap_int (num1 - wrap_int (n2 * den1)) in
      RationalV num den1
  | _, _ => throw "Cannot subtract non-numeric values"
  end.

Definition multiplyValues (v1 v2 : Value) : M Value :=
  o1 <- deref v1 ;; o2 <- deref v2 ;;
  match o1, o2 with
  | Integer n1, Integer n2 => IntegerV (wrap_int (n1 * n2))
  | Rational num1 den1, Rational num2 den2 =>
      let num := wrap_int (num1 * num2) in
      let den := wrap_int (den1 * den2) in
      RationalV num den
  | Integer n1, Rational num2 den2 =>
      let num := wrap_int (n1 * num2) in
      RationalV num den2
  | Rational num1 den1, Integer n2 =>
      let num := wrap_int (num1 * n2) in
      RationalV num den1
  | _, _ => throw "Cannot multiply non-numeric values"
  end.

Definition divideValues (v1 v2 : Value) : M Value :=
  o1 <- deref v1 ;; o2 <- deref v2 ;;
  match o1, o2 with
  | Integer n1, Integer n2 =>
      if (n2 =? 0)%Z then throw "Division by zero"
      else
        r <- int_rem n1 n2 ;;
        if (r =? 0)%Z then q <- int_div n1 n2 ;; IntegerV q
        else RationalV n1 n2
  | Rational num1 den1, Rational num2 den2 =>
      if (num2 =? 0)%Z then throw "Division by zero"
      else
        let num := wrap_int (num1 * den2) in
        let den := wrap_int (den1 * num2) in
        RationalV num den
  | Integer n1, Rational num2 den2 =>
      if (num2 =? 0)%Z then throw "Division by zero"
      else
        let num := wrap_int (n1 * den2) in
        let den := num2 in
        RationalV num den
  | Rational num1 den1, Integer n2 =>
      if (n2 =? 0)%Z then throw "Division by zero"
      else
        let num := num1 in
        let den := wrap_int (den1 * n2) in
        RationalV num den
  | _, _ => throw "Cannot divide non-numeric values"
  end.

Definition Modulo_evalRator (rand1 rand2 : Value) : M Value :=
  o1 <- deref rand1 ;; o2 <- deref rand2 ;;
  match o1, o2 with
  | Integer dividend, Integer divisor =>
      if (divisor =? 0)%Z then throw "Division by zero"
      else r <- int_rem dividend divisor ;; IntegerV r
  | _, _ => throw "modulo is only defined for integers"
  end.

(** The [while (exp > 0)] loop of [Expt::evalRator]; [result] and [b] are
    [long long], [exp] is [int].  [exp] is halved at every turn, so the loop
    runs once per binary digit of the exponent: that many turns are given as
    [fuel]. *)
Fixpoint Expt_loop (fuel : nat) (exp result b : Z) : M Z :=
  if (exp >? 0)%Z then
    match fuel with
    | O => diverge
    | S fuel' =>
        result <-
          (if (Z.rem exp 2 =? 1)%Z then
             let result := wrap_ll (result * b) in
             if ((result >? INT_MAX) || (result <? INT_MIN))%Z
             then throw "Integer overflow in expt"
             else ret result
           else ret result) ;;
        let b := wrap_ll (b * b) in
        if (((b >? INT_MAX) || (b <? INT_MIN)) && (exp >? 1))%Z
        then throw "Integer overflow in expt"
        else Expt_loop fuel' (Z.quot exp 2) result b
    end
  else ret result.

Definition Expt_turns (exponent : Z) : nat := S (Z.to_nat (Z.log2 exponent)).

Definition Expt_evalRator (rand1 rand2 : Value) : M Value :=
  o1 <- deref rand1 ;; o2 <- deref rand2 ;;
  match o1, o2 with
  | Integer base, Integer exponent =>
      if (exponent <? 0)%Z
      then throw "Negative exponent not supported for integers"
      else if ((base =? 0) && (exponent =? 0))%Z
      then throw "0^0 is undefined"
      else
        result <- Expt_loop (Expt_turns exponent) exponent 1 base ;;
        IntegerV (wrap_int result)
  | _, _ => throw "Wrong typename"
  end.

(** [(left < right) ? -1 : (left > right) ? 1 : 0] *)
Definition three_way (left right : Z) : Z :=
  if (left <? right)%Z then (-1)%Z else if (left >? right)%Z then 1%Z else 0%Z.

Definition compareNumericValues (v1 v2 : Value) : M Z :=
  o1 <- deref v1 ;; o2 <- deref v2 ;;
  match o1, o2 with
  | Integer n1, Integer n2 => ret (three_way n1 n2)
  | Rational num1 den1, Integer n2 =>
      let left := num1 in
      let right := wrap_int (n2 * den1) in
      ret (three_way left right)
  | Integer n1, Rational num2 den2 =>
      let left := wrap_int (n1 * den2) in
      let right := num2 in
      ret (three_way left right)
  | Rational num1 den1, Rational num2 den2 =>
      let left := wrap_int (num1 * den2) in
      let right := wrap_int (num2 * den1) in
      ret (three_way left right)
  | _, _ => throw "Wrong typename in numeric comparison"
  end.

(** The five variadic comparisons share one loop: [bad c] is the test under
    which the loop returns [#f] for an adjacent pair. *)
Fixpoint compare_adjacent (bad : Z -> bool) (args : list Value) : M Value :=
  match args with
  | a :: ((a' :: _) as rest) =>
      c <- compareNumericValues a a' ;;
      if bad c then BooleanV false else compare_adjacent bad rest
  | _ => BooleanV true
  end.

Definition compareVar (name : string) (bad : Z -> bool) (args : list Value)
  : M Value :=
  if (length args <? 2)%nat
  then throw (name ++ " requires at least 2 arguments")
  else compare_adjacent bad args.

(** [result = f(result, args[i])] for the remaining [args]. *)
Fixpoint fold_args (f : Value -> Value -> M Value) (result : Value)
    (args : list Value) : M Value :=
  match args with
  | [] => ret result
  | a :: args' => result <- f result a ;; fold_args f result args'
  end.

Definition PlusVar_evalRator (args : list Value) : M Value :=
  match args with
  | [] => IntegerV 0
  | a0 :: args' => _unused <- IntegerV 0 ;; fold_args addValues a0 args'
  end.

Definition MinusVar_evalRator (args : list Value) : M Value :=
  match args with
  | [] => throw "- requires at least 1 argument"
  | [a0] =>
      o <- deref a0 ;;
      match o with
      | Integer n => IntegerV (wrap_int (- n))
      | Rational num den => RationalV (wrap_int (- num)) den
      | _ => throw "Cannot negate non-numeric value"
      end
  | a0 :: args' => fold_args subtractValues a0 args'
  end.

Definition MultVar_evalRator (args : list Value) : M Value :=
  match args with
  | [] => IntegerV 1
  | _ => result <- IntegerV 1 ;; fold_args multiplyValues result args
  end.

Definition DivVar_evalRator (args : list Value) : M Value :=
  match args with
  | [] => throw "/ requires at least 1 argument"
  | [a0] =>
      o <- deref a0 ;;
      match o with
      | Integer n =>
          if (n =? 0)%Z then throw "Division by zero" else RationalV 1 n
      | Rational num den =>
          if (num =? 0)%Z then throw "Division by zero" else RationalV den num
      | _ => throw "Cannot compute reciprocal of non-numeric value"
      end
  | a0 :: args' => fold_args divideValues a0 args'
  end.

(** [for (i = size - 1; i >= 0; i--) result = PairV(args[i], result)],
    given the arguments last to first. *)
Fixpoint ListFunc_loop (rev_args : list Value) (result : Value) : M Value :=
  match rev_args with
  | [] => ret result
  | a :: rest => result <- PairV a result ;; ListFunc_loop rest result
  end.

Definition ListFunc_evalRator (args : list Value) : M Value :=
  match args with
  | [] => NullV
  | _ => result <- NullV ;; ListFunc_loop (rev args) result
  end.

(** The [while (current->v_type == V_PAIR)] walk of [IsList::evalRator]; it
    does not end on a circular list, hence the fuel. *)
Fixpoint IsList_walk (fuel : nat) (current : Value) : M Value :=
  o <- deref current ;;
  match o with
  | Pair _ cdr =>
      match fuel with
      | O => diverge
      | S fuel' => IsList_walk fuel' cdr
      end
  | Null => BooleanV true
  | _ => BooleanV false
  end.

Definition IsEq_evalRator (rand1 rand2 : Value) : M Value :=
  o1 <- deref rand1 ;; o2 <- deref rand2 ;;
  match o1, o2 with
  | Integer n1, Integer n2 => BooleanV (n1 =? n2)%Z
  | Boolean b1, Boolean b2 => BooleanV (Bool.eqb b1 b2)
  | Symbol s1, Symbol s2 => BooleanV (String.eqb s1 s2)
  | Null, Null => BooleanV true
  | Void, Void => BooleanV true
  | _, _ => BooleanV (Nat.eqb rand1 rand2)   (* rand1.get() == rand2.get() *)
  end.

(** ** Evaluation (evaluation.cpp) *)

Definition is_Boolean_false (o : ValueBase) : bool :=
  match o with
  | Boolean false => true
  | _ => false
  end.

(** [isTrue] of [If::eval] and [Cond::eval]: everything but [#f] is true. *)
Definition isTrue (o : ValueBase) : bool := negb (is_Boolean_false o).

(** [syntaxToValue]: the quoted datum as a value.  A list is built from a
    fresh [Null] by consing the converted elements, last element first, as the
    downward [for] loop does.  The parameter [env] is handed down and never
    read. *)
Fixpoint syntaxToValue (s : Syntax) (env : Assoc) : M Value :=
  match s with
  | Number n => IntegerV n
  | RationalSyntax numerator denominator => RationalV numerator denominator
  | StringSyntax str => StringV str
  | SymbolSyntax sym => SymbolV sym
  | TrueSyntax => BooleanV true
  | FalseSyntax => BooleanV false
  | List stxs =>
      match stxs with
      | [] => NullV
      | _ =>
          result <- NullV ;;
          (fix build (l : list Syntax) : M Value :=
             match l with
             | [] => ret result
             | stx :: l' =>
                 result <- build l' ;;
                 v <- syntaxToValue stx env ;;
                 PairV v result
             end) stxs
      end
  end.

Section Evaluation.

(** [ValueBase::show] is defined in value.cpp, which is not among the
    sources; the text it writes for a value is a parameter. *)
Variable show : list ValueBase -> Value -> string.

(** The table [primitives] is defined in Def.cpp, which is not among the
    sources: a finite map from names to [ExprType], taken as a parameter. *)
Variable primitives : string -> option ExprType.

Definition Unary_evalRator (fuel : nat) (op : UnaryOp) (rand : Value)
  : M Value :=
  o <- deref rand ;;
  match op with
  | Not =>
      match o with
      | Boolean b => BooleanV (negb b)
      | _ => BooleanV false
      end
  | IsBoolean => BooleanV (bool_decide (v_type o = V_BOOL))
  | IsFixnum => BooleanV (bool_decide (v_type o = V_INT))
  | IsNull => BooleanV (bool_decide (v_type o = V_NULL))
  | IsPair => BooleanV (bool_decide (v_type o = V_PAIR))
  | IsProcedure => BooleanV (bool_decide (v_type o = V_PROC))
  | IsSymbol => BooleanV (bool_decide (v_type o = V_SYM))
  | IsString => BooleanV (bool_decide (v_type o = V_STRING))
  | IsList => IsList_walk fuel rand
  | Car =>
      match o with
      | Pair car _ => ret car
      | _ => throw "car requires a pair"
      end
  | Cdr =>
      match o with
      | Pair _ cdr => ret cdr
      | _ => throw "cdr requires a pair"
      end
  | Display =>
      (match o with
       | String_ str => print str
       | _ => fun s => print (show (objects s) rand) s
       end) ;;;
      VoidV
  end.

Definition Binary_evalRator (op : BinaryOp) (rand1 rand2 : Value)
  : M Value :=
  match op with
  | Plus => addValues rand1 rand2
  | Minus => subtractValues rand1 rand2
  | Mult => multiplyValues rand1 rand2
  | Div => divideValues rand1 rand2
  | Modulo => Modulo_evalRator rand1 rand2
  | Expt => Expt_evalRator rand1 rand2
  | Less => c <- compareNumericValues rand1 rand2 ;; BooleanV (c <? 0)%Z
  | LessEq => c <- compareNumericValues rand1 rand2 ;; BooleanV (c <=? 0)%Z
  | Equal => c <- compareNumericValues rand1 rand2 ;; BooleanV (c =? 0)%Z
  | GreaterEq => c <- compareNumericValues rand1 rand2 ;; BooleanV (c >=? 0)%Z
  | Greater => c <- compareNumericValues rand1 rand2 ;; BooleanV (c >? 0)%Z
  | Cons => PairV rand1 rand2
  | SetCar =>
      o <- deref rand1 ;;
      match o with
      | Pair _ cdr => store_obj rand1 (Pair rand2 cdr) ;;; VoidV
      | _ => throw "set-car! requires a pair"
      end
  | SetCdr =>
      o <- deref rand1 ;;
      match o with
      | Pair car _ => store_obj rand1 (Pair car rand2) ;;; VoidV
      | _ => throw "set-cdr! requires a pair"
      end
  | IsEq => IsEq_evalRator rand1 rand2
  end.

Definition Variadic_evalRator (op : VariadicOp) (args : list Value)
  : M Value :=
  match op with
  | PlusVar => PlusVar_evalRator args
  | MinusVar => MinusVar_evalRator args
  | MultVar => MultVar_evalRator args
  | DivVar => DivVar_evalRator args
  | LessVar => compareVar "<" (fun c => c >=? 0)%Z args
  | LessEqVar => compareVar "<=" (fun c => c >? 0)%Z args
  | EqualVar => compareVar "=" (fun c => negb (c =? 0))%Z args
  | GreaterEqVar => compareVar ">=" (fun c => c <? 0)%Z args
  | GreaterVar => compareVar ">" (fun c => c <=? 0)%Z args
  | ListFunc => ListFunc_evalRator args
  end.

Definition Var_eval (x : string) (e : Assoc) : M Value :=
  fun s =>
    match find x e s with
    | Some matched_value => OK matched_value s
    | None =>
        match primitives x with
        | Some _ =>
            RuntimeError
              ("Primitive " ++ x ++ " used as variable without being called") s
        | None => RuntimeError ("Undefined variable: " ++ x) s
        end
    end.

(** The loops of the [eval] methods, over the evaluator [ev] for the
    sub-expressions. *)
Section Loops.

Variable ev : Expr -> Assoc -> M Value.

(** [for (auto& r : rands) args.push_back(r->eval(e))] *)
Fixpoint evalRands (rands : list Expr) (e : Assoc) : M (list Value) :=
  match rands with
  | [] => ret []
  | r :: rands' =>
      v <- ev r e ;; args <- evalRands rands' e ;; ret (v :: args)
  end.

(** The loop of [Begin::eval] and of a [cond] clause body. *)
Fixpoint Begin_loop (es : list Expr) (e : Assoc) (result : Value)
  : M Value :=
  match es with
  | [] => ret result
  | expr :: es' => result <- ev expr e ;; Begin_loop es' e result
  end.

Definition Begin_eval (es : list Expr) (e : Assoc) : M Value :=
  match es with
  | [] => VoidV
  | _ => result <- VoidV ;; Begin_loop es e result
  end.

(** The loop of [AndVar::eval]: the [return BooleanV(false)] inside the
    loop ends the evaluation at once. *)
Fixpoint AndVar_loop (rands : list Expr) (e : Assoc) (result : Value)
  : M Value :=
  match rands with
  | [] => ret result
  | expr :: rands' =>
      result <- ev expr e ;;
      o <- deref result ;;
      if is_Boolean_false o then BooleanV false
      else AndVar_loop rands' e result
  end.

Definition AndVar_eval (rands : list Expr) (e : Assoc) : M Value :=
  result <- BooleanV true ;;
  match rands with
  | [] => BooleanV true
  | _ => AndVar_loop rands e result
  end.

(** [OrVar::eval]: [continue] on [#f], return the first other value. *)
Fixpoint OrVar_eval (rands : list Expr) (e : Assoc) : M Value :=
  match rands with
  | [] => BooleanV false
  | expr :: rands' =>
      result <- ev expr e ;;
      o <- deref result ;;
      if is_Boolean_false o then OrVar_eval rands' e
      else ret result
  end.

Definition If_eval (cond conseq alter : Expr) (e : Assoc) : M Value :=
  condValue <- ev cond e ;;
  o <- deref condValue ;;
  if isTrue o then ev conseq e else ev alter e.

Fixpoint Cond_eval (clauses : list (list Expr)) (env : Assoc) : M Value :=
  match clauses with
  | [] => VoidV
  | [] :: clauses' => Cond_eval clauses' env
  | (test :: body) :: clauses' =>
      condValue <- ev test env ;;
      o <- deref condValue ;;
      if isTrue o then
        match body with
        | [] => ret condValue
        | _ => result <- VoidV ;; Begin_loop body env result
        end
      else Cond_eval clauses' env
  end.

(** [param_env = extend(parameters[i], args[i], param_env)] for all [i];
    the two lists have the same length when this runs. *)
Fixpoint extend_params (parameters : list string) (args : list Value)
    (param_env : Assoc) : M Assoc :=
  match parameters, args with
  | p :: parameters', a :: args' =>
      param_env <- extend p a param_env ;;
      extend_params parameters' args' param_env
  | _, _ => ret param_env
  end.

Definition Apply_eval (rator : Expr) (rand : list Expr) (e : Assoc)
  : M Value :=
  ratorValue <- ev rator e ;;
  clos <- deref ratorValue ;;
  match clos with
  | Procedure parameters body env =>
      args <- evalRands rand e ;;
      if negb (length args =? length parameters)%nat
      then throw "Wrong number of arguments"
      else
        param_env <- extend_params parameters args env ;;
        ev body param_env
  | _ => throw "Attempt to apply a non-procedure"
  end.

(** [Define::eval].  The chain that [extend] returns is not assigned to
    anything: the statement is [extend(var, value, env);]. *)
Definition Define_eval (var : string) (e : Expr) (env : Assoc)
  : M Value :=
  value <- ev e env ;;
  _discarded <- extend var value env ;;
  VoidV.

(** The loop of [Let::eval]: each binding expression is evaluated in
    [env], the chain under construction is [newEnv]. *)
Fixpoint Let_loop (bind : list (string * Expr)) (env newEnv : Assoc)
  : M Assoc :=
  match bind with
  | [] => ret newEnv
  | (x, e) :: bind' =>
      value <- ev e env ;;
      newEnv <- extend x value newEnv ;;
      Let_loop bind' env newEnv
  end.

Definition Let_eval (bind : list (string * Expr)) (body : Expr)
    (env : Assoc) : M Value :=
  newEnv <- Let_loop bind env env ;;
  ev body newEnv.

Fixpoint Letrec_placeholders (bind : list (string * Expr))
    (newEnv : Assoc) : M Assoc :=
  match bind with
  | [] => ret newEnv
  | (x, _) :: bind' =>
      null <- NullV ;;
      newEnv <- extend x null newEnv ;;
      Letrec_placeholders bind' newEnv
  end.

Fixpoint Letrec_patch (bind : list (string * Expr)) (newEnv : Assoc)
  : M unit :=
  match bind with
  | [] => ret tt
  | (x, e) :: bind' =>
      value <- ev e newEnv ;;
      modify x value newEnv ;;;
      Letrec_patch bind' newEnv
  end.

Definition Letrec_eval (bind : list (string * Expr)) (body : Expr)
    (env : Assoc) : M Value :=
  newEnv <- Letrec_placeholders bind env ;;
  Letrec_patch bind newEnv ;;;
  ev body newEnv.

Definition Set_eval (var : string) (e : Expr) (env : Assoc) : M Value :=
  value <- ev e env ;;
  modify var value env ;;;
  VoidV.

End Loops.

(** [Expr::eval], by case on the class of the node.  Every call uses one
    unit of fuel.  The operands of a [Binary] node are evaluated left to
    right (C++ leaves the order of the two argument expressions open). *)
Fixpoint eval (fuel : nat) (expr : Expr) (e : Assoc) {struct fuel}
  : M Value :=
  match fuel with
  | O => diverge
  | S fuel' =>
      let ev := eval fuel' in
      match expr with
      | Fixnum n => IntegerV n
      | RationalNum numerator denominator => RationalV numerator denominator
      | StringExpr s => StringV s
      | TrueE => BooleanV true
      | FalseE => BooleanV false
      | MakeVoid => VoidV
      | Exit => TerminateV
      | Unary op rand => v <- ev rand e ;; Unary_evalRator fuel' op v
      | Binary op rand1 rand2 =>
          v1 <- ev rand1 e ;; v2 <- ev rand2 e ;; Binary_evalRator op v1 v2
      | Variadic op rands =>
          args <- evalRands ev rands e ;; Variadic_evalRator op args
      | Var x => Var_eval x e
      | Begin es => Begin_eval ev es e
      | Quote s => syntaxToValue s e
      | AndVar rands => AndVar_eval ev rands e
      | OrVar rands => OrVar_eval ev rands e
      | If cond conseq alter => If_eval ev cond conseq alter e
      | Cond clauses => Cond_eval ev clauses e
      | Lambda x body => ProcedureV x body e
      | Apply rator rand => Apply_eval ev rator rand e
      | Define var body => Define_eval ev var body e
      | Let bind body => Let_eval ev bind body e
      | Letrec bind body => Letrec_eval ev bind body e
      | SetE var body => Set_eval ev var body e
      end
  end.

End Evaluation.

(** ** Parsing (parser.cpp) *)

Section Parser.

(** The tables [primitives] and [reserved_words] are defined in Def.cpp,
    which is not among the sources; they are parameters here. *)
Variable primitives : string -> option ExprType.
Variable reserved_words : string -> option ExprType.

(** Operators with a two-operand node and a variadic node. *)
Definition binary_or_variadic (bin : BinaryOp) (var : VariadicOp)
    (parameters : list Expr) : M Expr :=
  match parameters with
  | [p0; p1] => ret (Binary bin p0 p1)
  | _ => ret (Variadic var parameters)
  end.

Definition exactly_two (name : string) (bin : BinaryOp)
    (parameters : list Expr) : M Expr :=
  match parameters with
  | [p0; p1] => ret (Binary bin p0 p1)
  | _ => throw ("Wrong number of arguments for " ++ name)
  end.

Definition exactly_one (name : string) (un : UnaryOp)
    (parameters : list Expr) : M Expr :=
  match parameters with
  | [p0] => ret (Unary un p0)
  | _ => throw ("Wrong number of arguments for " ++ name)
  end.

Definition exactly_zero (name : string) (node : Expr)
    (parameters : list Expr) : M Expr :=
  match parameters with
  | [] => ret node
  | _ => throw ("Wrong number of arguments for " ++ name)
  end.

(** The [if (op_type == ...)] chain of the primitive branch. *)
Definition parse_primitive (op : string) (op_type : ExprType)
    (parameters : list Expr) : M Expr :=
  match op_type with
  | E_PLUS => binary_or_variadic Plus PlusVar parameters
  | E_MINUS => binary_or_variadic Minus MinusVar parameters
  | E_MUL => binary_or_variadic Mult MultVar parameters
  | E_DIV => binary_or_variadic Div DivVar parameters
  | E_MODULO => exactly_two "modulo" Modulo parameters
  | E_EXPT => exactly_two "expt" Expt parameters
  | E_LIST => ret (Variadic ListFunc parameters)
  | E_LT => binary_or_variadic Less LessVar parameters
  | E_LE => binary_or_variadic LessEq LessEqVar parameters
  | E_EQ => binary_or_variadic Equal EqualVar parameters
  | E_GE => binary_or_variadic GreaterEq GreaterEqVar parameters
  | E_GT => binary_or_variadic Greater GreaterVar parameters
  | E_AND => ret (AndVar parameters)
  | E_OR => ret (OrVar parameters)
  | E_NOT => exactly_one "not" Not parameters
  | E_EQQ => exactly_two "eq?" IsEq parameters
  | E_BOOLQ => exactly_one "boolean?" IsBoolean parameters
  | E_INTQ => exactly_one "number?" IsFixnum parameters
  | E_NULLQ => exactly_one "null?" IsNull parameters
  | E_PAIRQ => exactly_one "pair?" IsPair parameters
  | E_PROCQ => exactly_one "procedure?" IsProcedure parameters
  | E_SYMBOLQ => exactly_one "symbol?" IsSymbol parameters
  | E_STRINGQ => exactly_one "string?" IsString parameters
  | E_LISTQ => exactly_one "list?" IsList parameters
  | E_CONS => exactly_two "cons" Cons parameters
  | E_CAR => exactly_one "car" Car parameters
  | E_CDR => exactly_one "cdr" Cdr parameters
  | E_SETCAR => exactly_two "set-car!" SetCar parameters
  | E_SETCDR => exactly_two "set-cdr!" SetCdr parameters
  | E_DISPLAY => exactly_one "display" Display parameters
  | E_VOID => exactly_zero "(void)" MakeVoid parameters
  | E_EXIT => exactly_zero "(exit)" Exit parameters
  | _ => throw ("Unknown primitive: " ++ op)
  end.

(** The names of a list of symbols; [msg] is thrown at the first element
    that is not a [SymbolSyntax]. *)
Fixpoint symbol_names (msg : string) (l : list Syntax) : M (list string) :=
  match l with
  | [] => ret []
  | SymbolSyntax s :: l' =>
      params <- symbol_names msg l' ;; ret (s :: params)
  | _ => throw msg
  end.

(** [Syntax::parse], by case on the class of the node; the [List] case is
    [List::parse].  Where the source builds a node from several
    [parse] calls in one expression, they are run left to right. *)
Fixpoint parse (stx : Syntax) (env : Assoc) {struct stx} : M Expr :=
  match stx with
  | Number n => ret (Fixnum n)
  | RationalSyntax numerator denominator =>
      ret (RationalNum numerator denominator)
  | SymbolSyntax s => ret (Var s)
  | StringSyntax s => ret (StringExpr s)
  | TrueSyntax => ret TrueE
  | FalseSyntax => ret FalseE
  | List stxs =>
      let parse_all :=
        fix parse_all (l : list Syntax) : M (list Expr) :=
          match l with
          | [] => ret []
          | x :: l' =>
              ex <- parse x env ;; exs <- parse_all l' ;; ret (ex :: exs)
          end in
      let parse_bindings :=
        fix parse_bindings (l : list Syntax) : M (list (string * Expr)) :=
          match l with
          | [] => ret []
          | List [v; init] :: l' =>
              match v with
              | SymbolSyntax var =>
                  ex <- parse init env ;;
                  bindings <- parse_bindings l' ;;
                  ret ((var, ex) :: bindings)
              | _ => throw "Binding variable must be a symbol"
              end
          | _ => throw "Each binding must be a list of 2 elements"
          end in
      let parse_clauses :=
        fix parse_clauses (l : list Syntax) : M (list (list Expr)) :=
          match l with
          | [] => ret []
          | List clause :: l' =>
              clauseExprs <- parse_all clause ;;
              clauses <- parse_clauses l' ;;
              ret (clauseExprs :: clauses)
          | _ => throw "Cond clause must be a list"
          end in
      match stxs with
      | [] => ret (Quote (List []))
      | SymbolSyntax op :: rest =>
          fun s =>
            match find op env s with
            | Some _ =>
                (rand <- parse_all rest ;; ret (Apply (Var op) rand)) s
            | None =>
                match primitives op with
                | Some op_type =>
                    (parameters <- parse_all rest ;;
                     parse_primitive op op_type parameters) s
                | None =>
                    match reserved_words op with
                    | Some E_QUOTE =>
                        match rest with
                        | [quoted] => ret (Quote quoted) s
                        | _ => throw "Wrong number of arguments for quote" s
                        end
                    | Some E_BEGIN =>
                        (es <- parse_all rest ;; ret (Begin es)) s
                    | Some E_IF =>
                        match rest with
                        | [c; t; f] =>
                            (cond <- parse c env ;;
                             conseq <- parse t env ;;
                             alter <- parse f env ;;
                             ret (If cond conseq alter)) s
                        | _ => throw "Wrong number of arguments for if" s
                        end
                    | Some E_COND =>
                        (clauses <- parse_clauses rest ;;
                         ret (Cond clauses)) s
                    | Some E_LAMBDA =>
                        match rest with
                        | [paramsStx; body] =>
                            match paramsStx with
                            | List paramsList =>
                                (params <-
                                   symbol_names
                                     "Lambda parameters must be symbols"
                                     paramsList ;;
                                 e <- parse body env ;;
                                 ret (Lambda params e)) s
                            | _ => throw "Lambda parameters must be a list" s
                            end
                        | _ => throw "Wrong number of arguments for lambda" s
                        end
                    | Some E_DEFINE =>
                        match rest with
                        | [target; body] =>
                            match target with
                            | SymbolSyntax var =>
                                (e <- parse body env ;; ret (Define var e)) s
                            | List (SymbolSyntax funcName :: paramStxs) =>
                                (params <-
                                   symbol_names "Parameters must be symbols"
                                     paramStxs ;;
                                 e <- parse body env ;;
                                 ret (Define funcName (Lambda params e))) s
                            | List (_ :: _) =>
                                throw "Function name must be a symbol" s
                            | _ => throw "Invalid define syntax" s
                            end
                        | _ => throw "Wrong number of arguments for define" s
                        end
                    | Some E_LET =>
                        match rest with
                        | [bindingsStx; body] =>
                            match bindingsStx with
                            | List bindingsList =>
                                (bindings <- parse_bindings bindingsList ;;
                                 e <- parse body env ;;
                                 ret (Let bindings e)) s
                            | _ => throw "Let bindings must be a list" s
                            end
                        | _ => throw "Wrong number of arguments for let" s
                        end
                    | Some E_LETREC =>
                        match rest with
                        | [bindingsStx; body] =>
                            match bindingsStx with
                            | List bindingsList =>
                                (bindings <- parse_bindings bindingsList ;;
                                 e <- parse body env ;;
                                 ret (Letrec bindings e)) s
                            | _ => throw "Letrec bindings must be a list" s
                            end
                        | _ => throw "Wrong number of arguments for letrec" s
                        end
                    | Some E_SET =>
                        match rest with
                        | [target; body] =>
                            match target with
                            | SymbolSyntax var =>
                                (e <- parse body env ;; ret (SetE var e)) s
                            | _ => throw "Set! variable must be a symbol" s
                            end
                        | _ => throw "Wrong number of arguments for set!" s
                        end
                    | Some _ => throw ("Unknown reserved word: " ++ op) s
                    | None =>
                        (* default: use Apply to be an expression *)
                        (rand <- parse_all rest ;;
                         ret (Apply (Var op) rand)) s
                    end
                end
            end
      | head :: rest =>
          rand <- parse_all rest ;;
          rator <- parse head env ;;
          ret (Apply rator rand)
      end
  end.

(** The [for] loop over the operands, as a function of its own (it is the
    local [parse_all] of [parse]). *)
Fixpoint parse_operands (l : list Syntax) (env : Assoc) : M (list Expr) :=
  match l with
  | [] => ret []
  | x :: l' =>
      ex <- parse x env ;; exs <- parse_operands l' env ;; ret (ex :: exs)
  end.

End Parser.

(** ** The tables of Def.cpp *)

Fixpoint table_lookup (t : list (string * ExprType)) (x : string)
  : option ExprType :=
  match t with
  | [] => None
  | (y, ty) :: t' => if String.eqb x y then Some ty else table_lookup t' x
  end.

(** Modelled from the spec: the map [primitives] of Def.cpp, which is not
    among the sources.  The names are those of the spec's primitive operator
    table; the enumerator of each name is the one whose branch in
    [List::parse] builds the node of that operator. *)
Definition primitives : string -> option ExprType :=
  table_lookup
    [("+", E_PLUS); ("-", E_MINUS); ("*", E_MUL); ("/", E_DIV);
     ("modulo", E_MODULO); ("expt", E_EXPT);
     ("cons", E_CONS); ("set-car!", E_SETCAR); ("set-cdr!", E_SETCDR);
     ("eq?", E_EQQ);
     ("<", E_LT); ("<=", E_LE); ("=", E_EQ); (">=", E_GE); (">", E_GT);
     ("not", E_NOT); ("boolean?", E_BOOLQ); ("number?", E_INTQ);
     ("null?", E_NULLQ); ("pair?", E_PAIRQ); ("procedure?", E_PROCQ);
     ("symbol?", E_SYMBOLQ); ("string?", E_STRINGQ); ("list?", E_LISTQ);
     ("car", E_CAR); ("cdr", E_CDR); ("display", E_DISPLAY);
     ("list", E_LIST); ("and", E_AND); ("or", E_OR);
     ("void", E_VOID); ("exit", E_EXIT)].

(** Modelled from the spec: the map [reserved_words] of Def.cpp, which is
    not among the sources; the spec lists the reserved words
    [quote if cond lambda define let letrec set! begin]. *)
Definition reserved_words : string -> option ExprType :=
  table_lookup
    [("quote", E_QUOTE); ("if", E_IF); ("cond", E_COND);
     ("lambda", E_LAMBDA); ("define", E_DEFINE); ("let", E_LET);
     ("letrec", E_LETREC); ("set!", E_SET); ("begin", E_BEGIN)].

(** ** The driver (main.cpp) *)

Section Driver.

Variable show : list ValueBase -> Value -> string.

Definition newline : string := String (Ascii.ascii_of_nat 10) EmptyString.

(** One top-level form: [stx->parse(global_env)], then
    [expr->eval(global_env)]. *)
Definition run_form (fuel : nat) (stx : Syntax) (global_env : Assoc)
  : M Value :=
  expr <- parse primitives reserved_words stx global_env ;;
  eval show primitives fuel expr global_env.

(** The body of the [while] loop of [REPL], over the forms the reader
    returns.  [global_env] is a local variable of [REPL], handed by
    reference to [parse] and [eval]; neither assigns to it, so every form
    is run with the chain [REPL] created. *)
Fixpoint REPL_loop (fuel : nat) (forms : list Syntax) (global_env : Assoc)
  : M unit :=
  match forms with
  | [] => ret tt
  | stx :: forms' =>
      fun s =>
        match run_form fuel stx global_env s with
        | OK val s' =>
            match objects s' !! val with
            | Some Terminate => OK tt s'
            | Some _ =>
                (print (show (objects s') val) ;;;
                 print newline ;;;
                 REPL_loop fuel forms' global_env) s'
            | None => Undefined
            end
        | RuntimeError _ s' =>
            (print "RuntimeError" ;;;
             print newline ;;;
             REPL_loop fuel forms' global_env) s'
        | Diverge => Diverge
        | Undefined => Undefined
        end
  end.

Definition REPL (fuel : nat) (forms : list Syntax) : M unit :=
  let global_env := empty in
  REPL_loop fuel forms global_env.

End Driver.

(** ** Concrete programs used below *)

Definition sym (s : string) : Syntax := SymbolSyntax s.

(** The form [define (fact n) (if (= n 0) 1 (times n (fact (- n 1))))],
    where [times] stands for the multiplication sign. *)
Definition define_fact : Syntax :=
  List [sym "define"; List [sym "fact"; sym "n"];
        List [sym "if"; List [sym "="; sym "n"; Number 0];
              Number 1;
              List [sym "*"; sym "n";
                    List [sym "fact"; List [sym "-"; sym "n"; Number 1]]]]].

(** The form [fact 5]. *)
Definition call_fact_5 : Syntax := List [sym "fact"; Number 5].

(** A printer that writes nothing, for the concrete runs. *)
Definition no_show (objs : list ValueBase) (v : Value) : string := "".

(** The body of [fact] as an expression. *)
Definition fact_body : Expr :=
  If (Binary Equal (Var "n") (Fixnum 0))
     (Fixnum 1)
     (Binary Mult (Var "n")
        (Apply (Var "fact") [Binary Minus (Var "n") (Fixnum 1)])).

(** The store after [define_fact] was run from the empty store: the
    closure, the [Void] that [Define::eval] returns, and the cell of the node
    that [extend] built and nobody kept. *)
Definition store_after_define_fact : Store :=
  mkStore [Procedure ["n"] fact_body []; Void] [0] [].

(** ** Vocabulary of the statements *)

(** The store after [new_obj o], and the address it returns. *)
Definition alloc (s : Store) (o : ValueBase) : Store :=
  mkStore (objects s ++ [o]) (cells s) (output s).

Definition fresh (s : Store) : Value := length (objects s).

Definition numeric (o : ValueBase) : Prop :=
  v_type o = V_INT \/ v_type o = V_RATIONAL.

Definition exactly_one_true (a b c : bool) : Prop :=
  (a = true /\ b = false /\ c = false)
  \/ (a = false /\ b = true /\ c = false)
  \/ (a = false /\ b = false /\ c = true).

(** [operands_pass ev e pass es s]: the operands [es] are evaluated in
    order in the environment [e], starting from the store [s]; each returns a
    value, and the object the value points to passes the test [pass]; the
    result is the store after the last of them. *)
Fixpoint operands_pass (ev : Expr -> Assoc -> M Value) (e : Assoc)
    (pass : ValueBase -> bool) (es : list Expr) (s : Store) : option Store :=
  match es with
  | [] => Some s
  | expr :: rest =>
      match ev expr e s with
      | OK v s1 =>
          match objects s1 !! v with
          | Some o => if pass o then operands_pass ev e pass rest s1 else None
          | None => None
          end
      | _ => None
      end
  end.

(** A fresh cell holding [v]: the node that [extend] allocates. *)
Definition new_cell (v : Value) : M nat :=
  fun s => OK (length (cells s))
              (mkStore (objects s) (cells s ++ [v]) (output s)).

(** The [let] of the spec, in its words: every binding expression is
    evaluated in the original outer environment [env]; the bindings make one
    new layer, the last binding innermost.  The layer under construction is
    no argument of any evaluation. *)
Fixpoint let_layer (ev : Expr -> Assoc -> M Value) (env : Assoc)
    (bind : list (string * Expr)) : M Assoc :=
  match bind with
  | [] => ret []
  | (x, e) :: bind' =>
      value <- ev e env ;;
      c <- new_cell value ;;
      layer <- let_layer ev env bind' ;;
      ret (layer ++ [(x, c)])
  end.

(** [mirrors objs X v]: the value [v], read in the heap [objs], has the
    shape of the datum [X]: a literal is the object of that literal, a symbol
    is a [Symbol] object, a list is a chain of [Pair]s ended by [Null] whose
    cars mirror the elements. *)
Fixpoint mirrors (objs : list ValueBase) (X : Syntax) (v : Value) {struct X}
  : bool :=
  match X with
  | Number n =>
      match objs !! v with Some (Integer m) => (n =? m)%Z | _ => false end
  | RationalSyntax numerator denominator =>
      match objs !! v with
      | Some (Rational num den) => (numerator =? num)%Z && (denominator =? den)%Z
      | _ => false
      end
  | StringSyntax str =>
      match objs !! v with Some (String_ s) => String.eqb str s | _ => false end
  | SymbolSyntax sym =>
      match objs !! v with Some (Symbol s) => String.eqb sym s | _ => false end
  | TrueSyntax =>
      match objs !! v with Some (Boolean b) => b | _ => false end
  | FalseSyntax =>
      match objs !! v with Some (Boolean b) => negb b | _ => false end
  | List stxs =>
      (fix chain (l : list Syntax) (v : Value) : bool :=
         match l with
         | [] => match objs !! v with Some Null => true | _ => false end
         | X :: l' =>
             match objs !! v with
             | Some (Pair car cdr) => mirrors objs X car && chain l' cdr
             | _ => false
             end
         end) stxs v
  end.

(** The chain of a list, as a function of its own. *)
Fixpoint mirrors_list (objs : list ValueBase) (l : list Syntax) (v : Value)
  : bool :=
  match l with
  | [] => match objs !! v with Some Null => true | _ => false end
  | X :: l' =>
      match objs !! v with
      | Some (Pair car cdr) => mirrors objs X car && mirrors_list objs l' cdr
      | _ => false
      end
  end.

(** The loop of [syntaxToValue] on a list, as a function of its own. *)
Fixpoint build_list (result : Value) (l : list Syntax) (env : Assoc)
  : M Value :=
  match l with
  | [] => ret result
  | stx :: l' =>
      result <- build_list result l' env ;;
      v <- syntaxToValue stx env ;;
      PairV v result
  end.

(** The store [s] with the objects [more] allocated after its own. *)
Definition grown (s : Store) (more : list ValueBase) : Store :=
  mkStore (objects s ++ more) (cells s) (output s).

(** Two runs of the binding loop agree: the same outcome, the same store,
    and chains made of the same cells (the names may differ). *)
Definition same_cells (r1 r2 : Result Assoc) : Prop :=
  match r1, r2 with
  | OK l1 s1, OK l2 s2 => map snd l1 = map snd l2 /\ s1 = s2
  | RuntimeError m1 s1, RuntimeError m2 s2 => m1 = m2 /\ s1 = s2
  | Diverge, Diverge => True
  | Undefined, Undefined => True
  | _, _ => False
  end.

(** ** Vocabulary of the further properties *)

(** The operand counts that the primitive branch of [List::parse] accepts
    for an operator: any count for the operators that have a variadic node, the
    one fixed count for the others; the enumerators of the reserved words are
    no primitives. *)
Definition accepts_count (op_type : ExprType) (n : nat) : bool :=
  match op_type with
  | E_PLUS | E_MINUS | E_MUL | E_DIV
  | E_LT | E_LE | E_EQ | E_GE | E_GT
  | E_LIST | E_AND | E_OR => true
  | E_MODULO | E_EXPT | E_EQQ | E_CONS | E_SETCAR | E_SETCDR => (n =? 2)%nat
  | E_NOT | E_BOOLQ | E_INTQ | E_NULLQ | E_PAIRQ | E_PROCQ | E_SYMBOLQ
  | E_STRINGQ | E_LISTQ | E_CAR | E_CDR | E_DISPLAY => (n =? 1)%nat
  | E_VOID | E_EXIT => (n =? 0)%nat
  | _ => false
  end.

(** [m] run from [s] returns or throws, and leaves the store as it was. *)
Definition pure_at {A : Type} (m : M A) (s : Store) : Prop :=
  (exists a, m s = OK a s) \/ (exists msg, m s = RuntimeError msg s).

(** The number of nodes of a syntax tree. *)
Fixpoint Syntax_size (X : Syntax) : nat :=
  match X with
  | List stxs =>
      S ((fix sum (l : list Syntax) : nat :=
            match l with
            | [] => 0
            | Y :: l' => Syntax_size Y + sum l'
            end) stxs)
  | _ => 1
  end.

(** The sum of the sizes of a list of syntax trees. *)
Definition Syntax_sizes (l : list Syntax) : nat :=
  list_sum (map Syntax_size l).

(** The loop over the bindings of a [let] or [letrec] form, as a function of
    its own (it is the local [parse_bindings] of [parse]). *)
Fixpoint parse_bindings_of (prims rwords : string -> option ExprType)
    (l : list Syntax) (env : Assoc) : M (list (string * Expr)) :=
  match l with
  | [] => ret []
  | List [v; init] :: l' =>
      match v with
      | SymbolSyntax var =>
          ex <- parse prims rwords init env ;;
          bindings <- parse_bindings_of prims rwords l' env ;;
          ret ((var, ex) :: bindings)
      | _ => throw "Binding variable must be a symbol"
      end
  | _ => throw "Each binding must be a list of 2 elements"
  end.

(** The loop over the clauses of a [cond] form, as a function of its own (it
    is the local [parse_clauses] of [parse]). *)
Fixpoint parse_clauses_of (prims rwords : string -> option ExprType)
    (l : list Syntax) (env : Assoc) : M (list (list Expr)) :=
  match l with
  | [] => ret []
  | List clause :: l' =>
      clauseExprs <- parse_operands prims rwords clause env ;;
      clauses <- parse_clauses_of prims rwords l' env ;;
      ret (clauseExprs :: clauses)
  | _ => throw "Cond clause must be a list"
  end.

(** The values [args] point, in the heap [objs], to the Integers [ns]. *)
Definition points_to_integers (objs : list ValueBase) (args : list Value)
    (ns : list Z) : Prop :=
  Forall2 (fun v n => objs !! v = Some (Integer n)) args ns.

(** [rel] holds between every element of [l] and the next one. *)
Fixpoint adjacent (rel : Z -> Z -> bool) (l : list Z) : bool :=
  match l with
  | a :: ((b :: _) as rest) => rel a b && adjacent rel rest
  | _ => true
  end.

Definition Z_sum (ns : list Z) : Z := fold_right Z.add 0%Z ns.

Definition Z_product (ns : list Z) : Z := fold_right Z.mul 1%Z ns.

(** [list_of objs vs r]: in the heap [objs], [r] is a proper list whose
    elements are the values [vs], in order: a chain of [Pair]s with these
    cars, ended by [Null]. *)
Fixpoint list_of (objs : list ValueBase) (vs : list Value) (r : Value)
  : bool :=
  match vs with
  | [] => match objs !! r with Some Null => true | _ => false end
  | v :: vs' =>
      match objs !! r with
      | Some (Pair car cdr) => Nat.eqb car v && list_of objs vs' cdr
      | _ => false
      end
  end.

(** [list_of], with every node of the chain (the pairs and the final
    [Null]) at an address from [base] on: for [base] the number of objects
    of an earlier store, every node was allocated after that store. *)
Fixpoint fresh_list_of (base : nat) (objs : list ValueBase)
    (vs : list Value) (r : Value) : bool :=
  (base <=? r)%nat &&
  match vs with
  | [] => match objs !! r with Some Null => true | _ => false end
  | v :: vs' =>
      match objs !! r with
      | Some (Pair car cdr) =>
          Nat.eqb car v && fresh_list_of base objs vs' cdr
      | _ => false
      end
  end.

(** The store [s] with the object at [p] overwritten by [o]. *)
Definition overwritten (s : Store) (p : Value) (o : ValueBase) : Store :=
  mkStore (<[p := o]> (objects s)) (cells s) (output s).

(** The store [s] with the cells [vs] allocated after its own. *)
Definition with_cells (s : Store) (vs : list Value) : Store :=
  mkStore (objects s) (cells s ++ vs) (output s).

(** The store [s] with the cell [c] overwritten by [v]. *)
Definition cell_set (s : Store) (c : nat) (v : Value) : Store :=
  mkStore (objects s) (<[c := v]> (cells s)) (output s).

(** The cell of the innermost binding of [x] in a chain. *)
Fixpoint cell_of (x : string) (lst : Assoc) : option nat :=
  match lst with
  | [] => None
  | (y, c) :: next => if String.eqb x y then Some c else cell_of x next
  end.

(** [tests_fail ev env clauses s]: the clauses of a [cond] are tried in
    order from the store [s], and none is taken: each one is empty or has a
    test that evaluates to [#f]; the result is the store after the last
    test. *)
Fixpoint tests_fail (ev : Expr -> Assoc -> M Value) (env : Assoc)
    (clauses : list (list Expr)) (s : Store) : option Store :=
  match clauses with
  | [] => Some s
  | [] :: clauses' => tests_fail ev env clauses' s
  | (test :: _) :: clauses' =>
      match ev test env s with
      | OK v s1 =>
          match objects s1 !! v with
          | Some o =>
              if is_Boolean_false o then tests_fail ev env clauses' s1
              else None
          | None => None
          end
      | _ => None
      end
  end.

(** The store [s] after the strings [strs] were written to the output. *)
Definition with_output (s : Store) (strs : list string) : Store :=
  mkStore (objects s) (cells s) (output s ++ strs).

(** [s'] is a later state of [s]: every object of [s] is still at its
    address with its type tag, and is unchanged unless it is a pair; no cell
    was removed; the output was only added to. *)
Definition later (s s' : Store) : Prop :=
  (forall v o, objects s !! v = Some o ->
     exists o', objects s' !! v = Some o' /\ v_type o' = v_type o
                /\ (v_type o <> V_PAIR -> o' = o))
  /\ length (cells s) <= length (cells s')
  /\ exists more, output s' = output s ++ more.

(** The store an outcome leaves, if it leaves one. *)
Definition final_store {A : Type} (r : Result A) : option Store :=
  match r with
  | OK _ s' => Some s'
  | RuntimeError _ s' => Some s'
  | Diverge => None
  | Undefined => None
  end.

(** A computation that only moves the store to a later state. *)
Definition monotone {A : Type} (m : M A) : Prop :=
  forall s s', final_store (m s) = Some s' -> later s s'.

(** The type predicates that compare the tag of their operand with one
    tag. *)
Definition type_predicates : list UnaryOp :=
  [IsBoolean; IsFixnum; IsNull; IsPair; IsProcedure; IsSymbol; IsString].

(** The outcome is the value [#t]. *)
Definition answers_true (r : Result Value) : bool :=
  match r with
  | OK v s =>
      match objects s !! v with
      | Some (Boolean true) => true
      | _ => false
      end
  | _ => false
  end.

(** The objects no type predicate recognises. *)
Definition untyped (o : ValueBase) : bool :=
  match o with
  | Rational _ _ | Void | Terminate => true
  | _ => false
  end.

(** * Properties *)

(** ** The store *)

Lemma new_obj_alloc (o : ValueBase) (s : Store) :
  new_obj o s = OK (fresh s) (alloc s o).
Proof. reflexivity. Qed.

Lemma lookup_alloc_fresh (s : Store) (o : ValueBase) :
  objects (alloc s o) !! fresh s = Some o.
Proof. unfold alloc, fresh; simpl. apply list_lookup_middle. reflexivity. Qed.

Lemma deref_Some (s : Store) (v : Value) (o : ValueBase) :
  objects s !! v = Some o -> deref v s = OK o s.
Proof. intros H. unfold deref. rewrite H. reflexivity. Qed.

(** ** [number?] *)

(** C10: [number?] answers [#t] exactly when the tag of its operand is
    [V_INT]; on a Rational operand the answer is [#f].  The answer is a fresh
    Boolean and nothing else in the store changes. *)
Theorem number_p_tests_the_Integer_tag
    (show : list ValueBase -> Value -> string) (fuel : nat)
    (s : Store) (rand : Value) (o : ValueBase) :
  objects s !! rand = Some o ->
  Unary_evalRator show fuel IsFixnum rand s
    = OK (fresh s) (alloc s (Boolean (bool_decide (v_type o = V_INT))))
  /\ (bool_decide (v_type o = V_INT) = true <-> exists n, o = Integer n)
  /\ (forall numerator denominator,
        o = Rational numerator denominator ->
        Unary_evalRator show fuel IsFixnum rand s
          = OK (fresh s) (alloc s (Boolean false))).
Proof.
  intros Hrand.
  assert (Hrun : Unary_evalRator show fuel IsFixnum rand s
                 = OK (fresh s) (alloc s (Boolean (bool_decide (v_type o = V_INT))))).
  { unfold Unary_evalRator, bind. rewrite (deref_Some _ _ _ Hrand).
    apply new_obj_alloc. }
  split; [exact Hrun|]. split.
  - rewrite bool_decide_eq_true. split.
    + destruct o; simpl; intros Ht; try discriminate Ht. eauto.
    + intros [n ->]. reflexivity.
  - intros numerator denominator ->. exact Hrun.
Qed.

Lemma number_p_tests_the_Integer_tag_witness :
  let s := mkStore [Integer 7; Rational 1 2] [] [] in
  Unary_evalRator (fun _ _ => "") 0 IsFixnum 1 s
    = OK 2 (alloc s (Boolean false)).
Proof.
  intros s.
  exact (proj1 (number_p_tests_the_Integer_tag (fun _ _ => "") 0 s 1
                  (Rational 1 2) eq_refl)).
Defined.

(** ** The empty list *)

(** C9: the empty list always parses, to the quotation of the empty list,
    and that expression evaluates to a fresh [Null] object. *)
Theorem empty_list_parses_and_evaluates_to_Null
    (show : list ValueBase -> Value -> string)
    (prims rwords : string -> option ExprType)
    (env : Assoc) (s : Store) (fuel : nat) :
  parse prims rwords (List []) env s = OK (Quote (List [])) s
  /\ eval show prims (S fuel) (Quote (List [])) env s
     = OK (fresh s) (alloc s Null)
  /\ run_form show (S fuel) (List []) env s = OK (fresh s) (alloc s Null)
  /\ objects (alloc s Null) !! fresh s = Some Null.
Proof.
  split; [reflexivity|]. split; [reflexivity|]. split; [reflexivity|].
  apply lookup_alloc_fresh.
Qed.

(** ** Unknown head symbols *)

Lemma parse_operands_local (prims rwords : string -> option ExprType)
    (env : Assoc) (l : list Syntax) :
  (fix parse_all (l : list Syntax) : M (list Expr) :=
     match l with
     | [] => ret []
     | x :: l' =>
         ex <- parse prims rwords x env ;;
         exs <- parse_all l' ;; ret (ex :: exs)
     end) l
  = parse_operands prims rwords l env.
Proof.
  induction l as [|x l IH]; simpl; [reflexivity|].
  rewrite IH. reflexivity.
Qed.

(** C2, as the code has it: a list whose head symbol is not bound, not a
    primitive and not a reserved word is parsed as the application of the
    variable of that name to the parsed operands.  No error is raised for the
    head; the parse fails only if an operand fails to parse. *)
Theorem unknown_head_parses_as_application
    (prims rwords : string -> option ExprType)
    (op : string) (rest : list Syntax) (env : Assoc) (s : Store) :
  find op env s = None ->
  prims op = None ->
  rwords op = None ->
  parse prims rwords (List (SymbolSyntax op :: rest)) env s
  = (rand <- parse_operands prims rwords rest env ;;
     ret (Apply (Var op) rand)) s.
Proof.
  intros Hfind Hprim Hres. simpl. rewrite Hfind, Hprim, Hres.
  rewrite parse_operands_local. reflexivity.
Qed.

Lemma unknown_head_parses_as_application_witness :
  parse primitives reserved_words (List [sym "foo"; Number 1]) empty empty_store
  = OK (Apply (Var "foo") [Fixnum 1]) empty_store.
Proof.
  exact (unknown_head_parses_as_application primitives reserved_words
           "foo" [Number 1] empty empty_store eq_refl eq_refl eq_refl).
Defined.

(** C2 as stated fails: [(foo)], with [foo] unbound, not a primitive and not
    a reserved word, parses to an expression. *)
Lemma unknown_head_is_not_a_parse_error :
  find "foo" empty empty_store = None
  /\ primitives "foo" = None
  /\ reserved_words "foo" = None
  /\ parse primitives reserved_words (List [sym "foo"]) empty empty_store
     = OK (Apply (Var "foo") []) empty_store
  /\ ~ (exists msg s',
          parse primitives reserved_words (List [sym "foo"]) empty empty_store
          = RuntimeError msg s').
Proof.
  repeat split. intros (msg & s' & H). discriminate H.
Qed.

(** ** [define] at top level *)

(** C1, the program at the two forms of the spec's example.  [define_fact]
    evaluates to [Void] and leaves the global chain as it was: the chain that
    [extend] returns is dropped by [Define::eval].  [fact] is then unbound
    when [(fact 5)] is parsed and evaluated: the form raises "Undefined
    variable: fact", whatever the fuel, and the driver prints
    "RuntimeError" where 120 is expected. *)
Theorem define_fact_then_call_raises
    (show : list ValueBase -> Value -> string) (fuel : nat) :
  let s1 := store_after_define_fact in
  run_form show (S (S fuel)) define_fact empty empty_store = OK 1 s1
  /\ objects s1 !! 1 = Some Void
  /\ find "fact" empty s1 = None
  /\ run_form show (S (S fuel)) call_fact_5 empty s1
     = RuntimeError "Undefined variable: fact" s1
  /\ (forall fuel' v s', run_form show fuel' call_fact_5 empty s1 <> OK v s')
  /\ REPL show (S (S fuel)) [define_fact; call_fact_5] empty_store
     = OK tt (mkStore (objects s1) (cells s1)
                [show (objects s1) 1; newline; "RuntimeError"; newline]).
Proof.
  intros s1. repeat split.
  intros [|[|fuel']] v s' H; discriminate H.
Qed.

(** ** Comparisons *)

Lemma compareNumericValues_numeric (s : Store) (v1 v2 : Value)
    (o1 o2 : ValueBase) :
  objects s !! v1 = Some o1 -> objects s !! v2 = Some o2 ->
  numeric o1 -> numeric o2 ->
  exists left right, compareNumericValues v1 v2 s = OK (three_way left right) s.
Proof.
  intros H1 H2 N1 N2. unfold compareNumericValues, bind.
  rewrite (deref_Some _ _ _ H1), (deref_Some _ _ _ H2).
  destruct N1 as [N1|N1], N2 as [N2|N2];
    destruct o1; try discriminate N1; destruct o2; try discriminate N2;
    eexists _, _; reflexivity.
Qed.

Lemma three_way_trichotomy (left right : Z) :
  exactly_one_true (three_way left right <? 0)%Z
                   (three_way left right =? 0)%Z
                   (three_way left right >? 0)%Z.
Proof.
  unfold three_way, exactly_one_true.
  destruct (left <? right)%Z; [left; repeat split|].
  destruct (left >? right)%Z; [right; right|right; left]; repeat split.
Qed.

(** C4: for numeric operands (Integer or Rational, in any combination) the
    three binary comparisons [<], [=] and [>] each return a fresh Boolean, and
    exactly one of the three Booleans is [#t]. *)
Theorem exactly_one_of_less_equal_greater
    (s : Store) (rand1 rand2 : Value) (o1 o2 : ValueBase) :
  objects s !! rand1 = Some o1 -> objects s !! rand2 = Some o2 ->
  numeric o1 -> numeric o2 ->
  exists lt eq gt : bool,
    Binary_evalRator Less rand1 rand2 s = OK (fresh s) (alloc s (Boolean lt))
    /\ Binary_evalRator Equal rand1 rand2 s
       = OK (fresh s) (alloc s (Boolean eq))
    /\ Binary_evalRator Greater rand1 rand2 s
       = OK (fresh s) (alloc s (Boolean gt))
    /\ exactly_one_true lt eq gt.
Proof.
  intros H1 H2 N1 N2.
  destruct (compareNumericValues_numeric s rand1 rand2 o1 o2 H1 H2 N1 N2)
    as (left & right & Hc).
  exists (three_way left right <? 0)%Z, (three_way left right =? 0)%Z,
         (three_way left right >? 0)%Z.
  unfold Binary_evalRator, bind. rewrite Hc.
  repeat split; try apply new_obj_alloc. apply three_way_trichotomy.
Qed.

Lemma exactly_one_of_less_equal_greater_witness :
  let s := mkStore [Integer 1; Rational 1 2] [] [] in
  exists lt eq gt : bool,
    Binary_evalRator Less 0 1 s = OK 2 (alloc s (Boolean lt))
    /\ Binary_evalRator Equal 0 1 s = OK 2 (alloc s (Boolean eq))
    /\ Binary_evalRator Greater 0 1 s = OK 2 (alloc s (Boolean gt))
    /\ exactly_one_true lt eq gt.
Proof.
  intros s.
  apply (exactly_one_of_less_equal_greater s 0 1 (Integer 1) (Rational 1 2));
    [reflexivity | reflexivity | left; reflexivity | right; reflexivity].
Defined.

(** ** Division *)

Lemma rem_zero_iff_mod_zero (a b : Z) :
  b <> 0%Z -> (Z.rem a b = 0 <-> a mod b = 0)%Z.
Proof.
  intros Hb. rewrite Z.rem_divide, Z.mod_divide by exact Hb. reflexivity.
Qed.

Lemma quot_exact_div (a b : Z) :
  b <> 0%Z -> (a mod b = 0)%Z -> Z.quot a b = (a / b)%Z.
Proof.
  intros Hb Hm. apply Z.mod_divide in Hm; [|exact Hb].
  destruct Hm as [k ->]. rewrite Z.quot_mul, Z.div_mul by exact Hb.
  reflexivity.
Qed.

(** C3, as the code has it.  For Integer operands [a] and [b] with [b]
    other than 0, and not the one pair [INT_MIN], [-1] whose quotient is no
    machine integer: [(/ a b)] is the Integer [a / b] when [a mod b = 0] and
    the Rational with numerator [a] and denominator [b] otherwise.  A divisor
    that is the Integer 0 or a Rational with numerator 0 raises a
    RuntimeError, whatever the dividend. *)
Theorem division_of_integers
    (s : Store) (rand1 rand2 : Value) (o1 o2 : ValueBase) :
  objects s !! rand1 = Some o1 -> objects s !! rand2 = Some o2 ->
  (forall a b : Z,
     o1 = Integer a -> o2 = Integer b -> b <> 0%Z ->
     ~ (a = INT_MIN /\ b = (-1)%Z) ->
     ((a mod b = 0)%Z ->
      Binary_evalRator Div rand1 rand2 s
      = OK (fresh s) (alloc s (Integer (a / b))))
     /\ ((a mod b <> 0)%Z ->
         Binary_evalRator Div rand1 rand2 s
         = OK (fresh s) (alloc s (Rational a b))))
  /\ (o2 = Integer 0 \/ (exists denominator, o2 = Rational 0 denominator) ->
      exists msg, Binary_evalRator Div rand1 rand2 s = RuntimeError msg s).
Proof.
  intros H1 H2. split.
  - intros a b -> -> Hb Hnot.
    assert (Hsafe : ((a =? INT_MIN) && (b =? -1))%Z = false).
    { apply andb_false_iff.
      destruct (Z.eqb_spec a INT_MIN) as [Ha|Ha]; [right|left; reflexivity].
      apply Z.eqb_neq. intros Hb1. apply Hnot. split; assumption. }
    assert (Hb0 : (b =? 0)%Z = false) by (apply Z.eqb_neq; exact Hb).
    unfold Binary_evalRator, divideValues, bind.
    rewrite (deref_Some _ _ _ H1), (deref_Some _ _ _ H2), Hb0.
    unfold int_rem, int_div. rewrite Hsafe. unfold ret. split.
    + intros Hm.
      assert (Hr : Z.rem a b = 0%Z) by (apply rem_zero_iff_mod_zero; assumption).
      rewrite Hr. simpl. rewrite quot_exact_div by assumption.
      apply new_obj_alloc.
    + intros Hm.
      assert (Hr : (Z.rem a b =? 0)%Z = false).
      { apply Z.eqb_neq. intros Hr. apply Hm.
        apply rem_zero_iff_mod_zero; assumption. }
      rewrite Hr. apply new_obj_alloc.
  - intros Hz. unfold Binary_evalRator, divideValues, bind.
    rewrite (deref_Some _ _ _ H1), (deref_Some _ _ _ H2).
    destruct Hz as [->|[denominator ->]]; destruct o1; simpl; eauto.
Qed.

Lemma division_of_integers_witness :
  let s := mkStore [Integer 7; Integer 2; Integer 6] [] [] in
  Binary_evalRator Div 0 1 s = OK 3 (alloc s (Rational 7 2))
  /\ Binary_evalRator Div 2 1 s = OK 3 (alloc s (Integer 3)).
Proof.
  intros s. split.
  - apply (proj1 (division_of_integers s 0 1 (Integer 7) (Integer 2)
                    eq_refl eq_refl) 7%Z 2%Z eq_refl eq_refl);
      [lia | unfold INT_MIN; lia | discriminate].
  - apply (proj1 (division_of_integers s 2 1 (Integer 6) (Integer 2)
                    eq_refl eq_refl) 6%Z 2%Z eq_refl eq_refl);
      [lia | unfold INT_MIN; lia | reflexivity].
Defined.

(** C3 as stated fails at [a = INT_MIN], [b = -1]: [b] is not 0 and
    [a mod b = 0], yet [(/ a b)] yields no value: the quotient [2^31] is not a
    machine integer. *)
Lemma division_INT_MIN_by_minus_one :
  let s := mkStore [Integer INT_MIN; Integer (-1)] [] [] in
  in_int INT_MIN /\ in_int (-1) /\ (-1 <> 0)%Z /\ (INT_MIN mod (-1) = 0)%Z
  /\ ~ in_int (INT_MIN / (-1))
  /\ Binary_evalRator Div 0 1 s = Undefined
  /\ ~ (exists r s', Binary_evalRator Div 0 1 s = OK r s').
Proof.
  intros s. unfold in_int, INT_MIN, INT_MAX.
  repeat split; try lia; try reflexivity.
  - intros [_ H]. vm_compute in H. apply H. reflexivity.
  - intros (r & s' & H). discriminate H.
Qed.

(** ** [expt] *)

Lemma in_intb_true (z : Z) : in_intb z = true <-> in_int z.
Proof.
  unfold in_intb, in_int. rewrite andb_true_iff, !Z.leb_le. reflexivity.
Qed.

Lemma in_intb_false (z : Z) : in_intb z = false <-> ~ in_int z.
Proof.
  rewrite <- in_intb_true. destruct (in_intb z); split; intros H;
    try reflexivity; try discriminate; try (intros H'; discriminate H').
  exfalso. apply H. reflexivity.
Qed.

Lemma wrap_int_id (z : Z) : in_int z -> wrap_int z = z.
Proof.
  unfold in_int, INT_MIN, INT_MAX, wrap_int. intros H.
  rewrite Z.mod_small; lia.
Qed.

Lemma wrap_ll_id (z : Z) :
  (- 2 ^ 63 <= z < 2 ^ 63)%Z -> wrap_ll z = z.
Proof.
  unfold wrap_ll. intros H. rewrite Z.mod_small; lia.
Qed.

(** The product of two [int]s fits a [long long]. *)
Lemma wrap_ll_mul_ints (x y : Z) :
  in_int x -> in_int y -> wrap_ll (x * y) = (x * y)%Z.
Proof.
  unfold in_int, INT_MIN, INT_MAX. intros Hx Hy. apply wrap_ll_id.
  change (2 ^ 63)%Z with 9223372036854775808%Z. nia.
Qed.

Lemma pow_halve (b exp : Z) :
  (0 <= exp)%Z ->
  (b ^ exp = (b * b) ^ Z.quot exp 2 * b ^ Z.rem exp 2)%Z.
Proof.
  intros Hexp.
  assert (Hq : (0 <= Z.quot exp 2)%Z) by (apply Z.quot_pos; lia).
  assert (Hr : (0 <= Z.rem exp 2 < 2)%Z) by (apply Z.rem_bound_pos; lia).
  rewrite (Z.quot_rem' exp 2) at 1.
  rewrite Z.pow_add_r, Z.pow_mul_r, Z.pow_2_r by lia. reflexivity.
Qed.

Lemma pow_ge_one (x q : Z) : (1 <= x)%Z -> (0 <= q)%Z -> (1 <= x ^ q)%Z.
Proof.
  intros Hx Hq. assert (0 < x ^ q)%Z by (apply Z.pow_pos_nonneg; lia). lia.
Qed.

Lemma pow_ge_base (x q : Z) : (1 <= x)%Z -> (1 <= q)%Z -> (x <= x ^ q)%Z.
Proof.
  intros Hx Hq. replace q with (Z.succ (q - 1)) by lia.
  rewrite Z.pow_succ_r by lia.
  assert (1 <= x ^ (q - 1))%Z by (apply pow_ge_one; lia). nia.
Qed.

(** No square is [2^31]: a square above [INT_MAX] is above [2^31]. *)
Lemma square_above_INT_MAX (b : Z) :
  (INT_MAX < b * b)%Z -> (2147483648 < b * b)%Z.
Proof.
  unfold INT_MAX. intros H.
  assert (Hcase : (b <= -46341 \/ -46340 <= b <= 46340 \/ 46341 <= b)%Z) by lia.
  destruct Hcase as [Hb|[Hb|Hb]]; nia.
Qed.

Lemma scaled_out_of_range (r k : Z) :
  ~ in_int r -> (1 <= k)%Z -> ~ in_int (r * k).
Proof. unfold in_int, INT_MIN, INT_MAX. intros Hr Hk. nia. Qed.

Lemma big_factor_out_of_range (r k : Z) :
  r <> 0%Z -> (2147483648 < k)%Z -> ~ in_int (r * k).
Proof. unfold in_int, INT_MIN, INT_MAX. intros Hr Hk. nia. Qed.

(** What the loop computes: [result * b ^ exp] if that is an [int], the
    overflow error otherwise. *)
Lemma Expt_loop_correct (fuel : nat) :
  forall (exp result b : Z) (s : Store),
    (0 <= exp < 2 ^ Z.of_nat fuel)%Z ->
    in_int result ->
    ((0 < exp)%Z -> in_int b) ->
    (b = 0%Z \/ result <> 0%Z) ->
    Expt_loop fuel exp result b s
    = if in_intb (result * b ^ exp)
      then OK (result * b ^ exp)%Z s
      else RuntimeError "Integer overflow in expt" s.
Proof.
  induction fuel as [|fuel IH]; intros exp result b s Hexp Hres Hb Hnz.
  - assert (exp = 0%Z) by (simpl in Hexp; lia). subst exp. simpl.
    rewrite Z.mul_1_r. rewrite (proj2 (in_intb_true result) Hres). reflexivity.
  - cbn [Expt_loop]. destruct (Z.gtb_spec exp 0) as [Hpos|Hzero].
    2:{ assert (exp = 0%Z) by lia. subst exp. rewrite Z.pow_0_r, Z.mul_1_r.
        rewrite (proj2 (in_intb_true result) Hres). reflexivity. }
    specialize (Hb Hpos).
    assert (Hq : (0 <= Z.quot exp 2)%Z) by (apply Z.quot_pos; lia).
    assert (Hr : (0 <= Z.rem exp 2 < 2)%Z) by (apply Z.rem_bound_pos; lia).
    assert (Hsplit := Z.quot_rem' exp 2).
    assert (Hq' : (Z.quot exp 2 < 2 ^ Z.of_nat fuel)%Z).
    { rewrite Nat2Z.inj_succ, Z.pow_succ_r in Hexp by lia. lia. }
    assert (Hbb : wrap_ll (b * b) = (b * b)%Z)
      by (apply wrap_ll_mul_ints; assumption).
    assert (Hrb : wrap_ll (result * b) = (result * b)%Z)
      by (apply wrap_ll_mul_ints; assumption).
    assert (Hpow := pow_halve b exp ltac:(lia)).
    unfold bind. rewrite Hbb.
    destruct (Z.eqb_spec (Z.rem exp 2) 1) as [Hodd|Heven].
    + (* odd exponent: result *= b *)
      rewrite Hrb. rewrite Hodd, Z.pow_1_r in Hpow.
      assert (HT : (result * b ^ exp = result * b * (b * b) ^ Z.quot exp 2)%Z)
        by (rewrite Hpow; ring).
      destruct (((result * b >? INT_MAX) || (result * b <? INT_MIN))%Z) eqn:Hov.
      * (* the product left the int range *)
        assert (Hout : ~ in_int (result * b)).
        { unfold in_int. apply orb_true_iff in Hov.
          destruct Hov as [Hov|Hov]; [apply Z.gtb_lt in Hov|apply Z.ltb_lt in Hov];
            lia. }
        assert (Hb0 : b <> 0%Z).
        { intros ->. apply Hout. rewrite Z.mul_0_r.
          unfold in_int, INT_MIN, INT_MAX. lia. }
        assert (1 <= (b * b) ^ Z.quot exp 2)%Z by (apply pow_ge_one; nia).
        unfold throw. rewrite HT.
        rewrite (proj2 (in_intb_false _)); [reflexivity|].
        apply scaled_out_of_range; assumption.
      * assert (Hin : in_int (result * b)).
        { unfold in_int. apply orb_false_iff in Hov. destruct Hov as [H1 H2].
          rewrite Z.gtb_ltb in H1. apply Z.ltb_ge in H1. apply Z.ltb_ge in H2.
          lia. }
        unfold ret.
        destruct ((((b * b >? INT_MAX) || (b * b <? INT_MIN)) && (exp >? 1))%Z)
          eqn:Hbov.
        -- apply andb_true_iff in Hbov. destruct Hbov as [Hbov Hgt].
           apply Z.gtb_lt in Hgt.
           assert (Hbig : (INT_MAX < b * b)%Z).
           { apply orb_true_iff in Hbov.
             destruct Hbov as [Hbov|Hbov];
               [apply Z.gtb_lt in Hbov; exact Hbov|apply Z.ltb_lt in Hbov].
             unfold INT_MIN in Hbov. nia. }
           apply square_above_INT_MAX in Hbig.
           assert (Hb0 : b <> 0%Z) by (intros ->; lia).
           assert (Hres0 : result <> 0%Z) by (destruct Hnz; [contradiction|assumption]).
           assert (Hq1 : (1 <= Z.quot exp 2)%Z) by lia.
           assert (b * b <= (b * b) ^ Z.quot exp 2)%Z
             by (apply pow_ge_base; [nia|exact Hq1]).
           unfold throw. rewrite HT.
           rewrite (proj2 (in_intb_false _)); [reflexivity|].
           apply big_factor_out_of_range; [nia|lia].
        -- rewrite IH.
           ++ rewrite HT. reflexivity.
           ++ lia.
           ++ exact Hin.
           ++ intros Hq0. apply andb_false_iff in Hbov.
              destruct Hbov as [Hbov|Hgt].
              ** apply orb_false_iff in Hbov. destruct Hbov as [H1 H2].
                 rewrite Z.gtb_ltb in H1. apply Z.ltb_ge in H1.
                 apply Z.ltb_ge in H2. unfold in_int. lia.
              ** rewrite Z.gtb_ltb in Hgt. apply Z.ltb_ge in Hgt. lia.
           ++ destruct Hnz as [->|Hres0]; [left; reflexivity|].
              destruct (Z.eq_dec b 0%Z) as [->|Hb0]; [left; reflexivity|right; nia].
    + (* even exponent *)
      assert (Hrem0 : Z.rem exp 2 = 0%Z) by lia.
      rewrite Hrem0, Z.pow_0_r, Z.mul_1_r in Hpow.
      assert (HT : (result * b ^ exp = result * (b * b) ^ Z.quot exp 2)%Z)
        by (rewrite Hpow; reflexivity).
      assert (Hq1 : (1 <= Z.quot exp 2)%Z) by lia.
      unfold ret.
      destruct ((((b * b >? INT_MAX) || (b * b <? INT_MIN)) && (exp >? 1))%Z)
        eqn:Hbov.
      * apply andb_true_iff in Hbov. destruct Hbov as [Hbov Hgt].
        assert (Hbig : (INT_MAX < b * b)%Z).
        { apply orb_true_iff in Hbov.
          destruct Hbov as [Hbov|Hbov];
            [apply Z.gtb_lt in Hbov; exact Hbov|apply Z.ltb_lt in Hbov].
          unfold INT_MIN in Hbov. nia. }
        apply square_above_INT_MAX in Hbig.
        assert (Hb0 : b <> 0%Z) by (intros ->; lia).
        assert (Hres0 : result <> 0%Z) by (destruct Hnz; [contradiction|assumption]).
        assert (b * b <= (b * b) ^ Z.quot exp 2)%Z
          by (apply pow_ge_base; [nia|exact Hq1]).
        unfold throw. rewrite HT.
        rewrite (proj2 (in_intb_false _)); [reflexivity|].
        apply big_factor_out_of_range; [exact Hres0|lia].
      * rewrite IH.
        -- rewrite HT. reflexivity.
        -- lia.
        -- exact Hres.
        -- intros Hq0. apply andb_false_iff in Hbov.
           destruct Hbov as [Hbov|Hgt].
           ++ apply orb_false_iff in Hbov. destruct Hbov as [H1 H2].
              rewrite Z.gtb_ltb in H1. apply Z.ltb_ge in H1.
              apply Z.ltb_ge in H2. unfold in_int. lia.
           ++ rewrite Z.gtb_ltb in Hgt. apply Z.ltb_ge in Hgt. lia.
        -- destruct Hnz as [->|Hres0]; [left; reflexivity|].
           destruct (Z.eq_dec b 0%Z) as [->|Hb0]; [left; reflexivity|right; exact Hres0].
Qed.

Lemma Expt_turns_enough (exponent : Z) :
  (0 <= exponent)%Z ->
  (0 <= exponent < 2 ^ Z.of_nat (Expt_turns exponent))%Z.
Proof.
  intros H. split; [exact H|]. unfold Expt_turns.
  rewrite Nat2Z.inj_succ, Z2Nat.id by apply Z.log2_nonneg.
  destruct (Z.eq_dec exponent 0%Z) as [->|Hne]; [reflexivity|].
  apply Z.log2_spec. lia.
Qed.

(** C8: [expt] on Integer operands raises a RuntimeError for a negative
    exponent, for [0^0], and when [base ^ exponent] is not a machine integer;
    otherwise it returns the Integer [base ^ exponent].  An operand that is
    not an Integer raises a RuntimeError. *)
Theorem expt_of_integers
    (s : Store) (rand1 rand2 : Value) (o1 o2 : ValueBase) :
  objects s !! rand1 = Some o1 -> objects s !! rand2 = Some o2 ->
  (forall base exponent : Z,
     o1 = Integer base -> o2 = Integer exponent -> in_int base ->
     ((exponent < 0)%Z ->
      Binary_evalRator Expt rand1 rand2 s
      = RuntimeError "Negative exponent not supported for integers" s)
     /\ (base = 0%Z /\ exponent = 0%Z ->
         Binary_evalRator Expt rand1 rand2 s
         = RuntimeError "0^0 is undefined" s)
     /\ ((0 <= exponent)%Z -> ~ (base = 0%Z /\ exponent = 0%Z) ->
         ~ in_int (base ^ exponent) ->
         Binary_evalRator Expt rand1 rand2 s
         = RuntimeError "Integer overflow in expt" s)
     /\ ((0 <= exponent)%Z -> ~ (base = 0%Z /\ exponent = 0%Z) ->
         in_int (base ^ exponent) ->
         Binary_evalRator Expt rand1 rand2 s
         = OK (fresh s) (alloc s (Integer (base ^ exponent)))))
  /\ (v_type o1 <> V_INT \/ v_type o2 <> V_INT ->
      Binary_evalRator Expt rand1 rand2 s = RuntimeError "Wrong typename" s).
Proof.
  intros H1 H2. split.
  - intros base exponent -> -> Hbase.
    unfold Binary_evalRator, Expt_evalRator, bind.
    rewrite (deref_Some _ _ _ H1), (deref_Some _ _ _ H2).
    split; [|split; [|split]].
    + intros Hneg. apply Z.ltb_lt in Hneg. rewrite Hneg. reflexivity.
    + intros [-> ->]. reflexivity.
    + intros Hexp Hnot Hout.
      assert (Hlt : (exponent <? 0)%Z = false) by (apply Z.ltb_ge; exact Hexp).
      assert (Hzz : ((base =? 0) && (exponent =? 0))%Z = false).
      { apply andb_false_iff.
        destruct (Z.eqb_spec base 0) as [Hb|Hb]; [right|left; reflexivity].
        apply Z.eqb_neq. intros He. apply Hnot. split; assumption. }
      rewrite Hlt, Hzz.
      rewrite Expt_loop_correct;
        [|apply Expt_turns_enough; exact Hexp
         |unfold in_int, INT_MIN, INT_MAX; lia
         |intros _; exact Hbase
         |right; discriminate].
      rewrite Z.mul_1_l. rewrite (proj2 (in_intb_false _) Hout). reflexivity.
    + intros Hexp Hnot Hin.
      assert (Hlt : (exponent <? 0)%Z = false) by (apply Z.ltb_ge; exact Hexp).
      assert (Hzz : ((base =? 0) && (exponent =? 0))%Z = false).
      { apply andb_false_iff.
        destruct (Z.eqb_spec base 0) as [Hb|Hb]; [right|left; reflexivity].
        apply Z.eqb_neq. intros He. apply Hnot. split; assumption. }
      rewrite Hlt, Hzz.
      rewrite Expt_loop_correct;
        [|apply Expt_turns_enough; exact Hexp
         |unfold in_int, INT_MIN, INT_MAX; lia
         |intros _; exact Hbase
         |right; discriminate].
      rewrite Z.mul_1_l. rewrite (proj2 (in_intb_true _) Hin).
      unfold IntegerV. rewrite wrap_int_id by exact Hin. apply new_obj_alloc.
  - intros Hty. unfold Binary_evalRator, Expt_evalRator, bind.
    rewrite (deref_Some _ _ _ H1), (deref_Some _ _ _ H2).
    destruct Hty as [Hty|Hty]; destruct o1, o2; simpl in *;
      try reflexivity; contradiction.
Qed.

Lemma expt_of_integers_witness :
  let s := mkStore [Integer 2; Integer 10; Integer 31; String_ "a"] [] [] in
  Binary_evalRator Expt 0 1 s = OK 4 (alloc s (Integer 1024))
  /\ Binary_evalRator Expt 0 2 s = RuntimeError "Integer overflow in expt" s
  /\ Binary_evalRator Expt 0 3 s = RuntimeError "Wrong typename" s.
Proof.
  intros s.
  assert (Hbase : in_int 2) by (unfold in_int, INT_MIN, INT_MAX; lia).
  split; [|split].
  - apply (proj1 (expt_of_integers s 0 1 (Integer 2) (Integer 10)
                    eq_refl eq_refl) 2%Z 10%Z eq_refl eq_refl Hbase).
    + lia.
    + intros [H _]; discriminate H.
    + unfold in_int, INT_MIN, INT_MAX. simpl. lia.
  - apply (proj1 (expt_of_integers s 0 2 (Integer 2) (Integer 31)
                    eq_refl eq_refl) 2%Z 31%Z eq_refl eq_refl Hbase).
    + lia.
    + intros [H _]; discriminate H.
    + unfold in_int, INT_MIN, INT_MAX. simpl. lia.
  - apply (proj2 (expt_of_integers s 0 3 (Integer 2) (String_ "a")
                    eq_refl eq_refl)).
    right. discriminate.
Defined.

(** ** [and] and [or] *)

Section ShortCircuit.

Variable ev : Expr -> Assoc -> M Value.
Variable e : Assoc.

Lemma AndVar_loop_prefix (es1 : list Expr) (expr : Expr) (es2 : list Expr) :
  forall (s s1 : Store) (result : Value),
    operands_pass ev e isTrue es1 s = Some s1 ->
    exists result',
      AndVar_loop ev (es1 ++ expr :: es2) e result s
      = AndVar_loop ev (expr :: es2) e result' s1.
Proof.
  induction es1 as [|x es1 IH]; intros s s1 result Hpass.
  - injection Hpass as <-. exists result. reflexivity.
  - simpl in Hpass. simpl. unfold bind, deref.
    destruct (ev x e s) as [v s0| | |]; try discriminate Hpass.
    destruct (objects s0 !! v) as [o|]; try discriminate Hpass.
    unfold isTrue in Hpass.
    destruct (is_Boolean_false o); simpl in Hpass; [discriminate Hpass|].
    apply IH. exact Hpass.
Qed.

Lemma OrVar_eval_prefix (es1 es2 : list Expr) :
  forall s s1 : Store,
    operands_pass ev e is_Boolean_false es1 s = Some s1 ->
    OrVar_eval ev (es1 ++ es2) e s = OrVar_eval ev es2 e s1.
Proof.
  induction es1 as [|x es1 IH]; intros s s1 Hpass.
  - injection Hpass as <-. reflexivity.
  - simpl in Hpass. simpl. unfold bind, deref.
    destruct (ev x e s) as [v s0| | |]; try discriminate Hpass.
    destruct (objects s0 !! v) as [o|]; try discriminate Hpass.
    destruct (is_Boolean_false o); [|discriminate Hpass].
    apply IH. exact Hpass.
Qed.

End ShortCircuit.

(** C5.  [and]: with no operand the result is [#t]; if the operands before
    [expr] all evaluate to values other than [#f] and [expr] evaluates to
    [#f], the result is a fresh [#f] and the store is the one [expr] left,
    whatever the later operands [es2] are: none of them is evaluated; if
    [expr] is the last operand and its value is not [#f], that value is the
    result.  [or]: if the operands before [expr] all evaluate to [#f] and
    [expr] evaluates to another value, this value is the result and the store
    is the one [expr] left, whatever the later operands are; if all operands
    evaluate to [#f], or there is none, the result is a fresh [#f]. *)
Theorem and_or_short_circuit
    (show : list ValueBase -> Value -> string)
    (prims : string -> option ExprType)
    (fuel : nat) (e : Assoc) (s : Store) :
  let ev := eval show prims fuel in
  let s0 := alloc s (Boolean true) in
  eval show prims (S fuel) (AndVar []) e s
    = OK (fresh s0) (alloc s0 (Boolean true))
  /\ (forall es1 expr es2 s1 v s2,
        operands_pass ev e isTrue es1 s0 = Some s1 ->
        ev expr e s1 = OK v s2 ->
        objects s2 !! v = Some (Boolean false) ->
        eval show prims (S fuel) (AndVar (es1 ++ expr :: es2)) e s
        = OK (fresh s2) (alloc s2 (Boolean false)))
  /\ (forall es1 expr s1 v s2 o,
        operands_pass ev e isTrue es1 s0 = Some s1 ->
        ev expr e s1 = OK v s2 ->
        objects s2 !! v = Some o -> isTrue o = true ->
        eval show prims (S fuel) (AndVar (es1 ++ [expr])) e s = OK v s2)
  /\ (forall es1 expr es2 s1 v s2 o,
        operands_pass ev e is_Boolean_false es1 s = Some s1 ->
        ev expr e s1 = OK v s2 ->
        objects s2 !! v = Some o -> is_Boolean_false o = false ->
        eval show prims (S fuel) (OrVar (es1 ++ expr :: es2)) e s = OK v s2)
  /\ (forall es s',
        operands_pass ev e is_Boolean_false es s = Some s' ->
        eval show prims (S fuel) (OrVar es) e s
        = OK (fresh s') (alloc s' (Boolean false))).
Proof.
  intros ev s0. split; [reflexivity|]. split; [|split; [|split]].
  - intros es1 expr es2 s1 v s2 Hpass Hev Hv.
    assert (Hrun : eval show prims (S fuel) (AndVar (es1 ++ expr :: es2)) e s
                   = AndVar_loop ev (es1 ++ expr :: es2) e (fresh s) s0).
    { destruct es1; reflexivity. }
    rewrite Hrun.
    destruct (AndVar_loop_prefix ev e es1 expr es2 s0 s1 (fresh s) Hpass)
      as [result' ->].
    simpl. unfold bind, deref. rewrite Hev, Hv. reflexivity.
  - intros es1 expr s1 v s2 o Hpass Hev Hv Ho.
    assert (Hrun : eval show prims (S fuel) (AndVar (es1 ++ [expr])) e s
                   = AndVar_loop ev (es1 ++ [expr]) e (fresh s) s0).
    { destruct es1; reflexivity. }
    rewrite Hrun.
    destruct (AndVar_loop_prefix ev e es1 expr [] s0 s1 (fresh s) Hpass)
      as [result' ->].
    simpl. unfold bind, deref. rewrite Hev, Hv.
    unfold isTrue in Ho. destruct (is_Boolean_false o); [discriminate Ho|].
    reflexivity.
  - intros es1 expr es2 s1 v s2 o Hpass Hev Hv Ho.
    change (OrVar_eval ev (es1 ++ expr :: es2) e s = OK v s2).
    rewrite (OrVar_eval_prefix ev e es1 (expr :: es2) s s1 Hpass).
    simpl. unfold bind, deref. rewrite Hev, Hv, Ho. reflexivity.
  - intros es s' Hpass.
    change (OrVar_eval ev es e s = OK (fresh s') (alloc s' (Boolean false))).
    rewrite <- (app_nil_r es).
    rewrite (OrVar_eval_prefix ev e es [] s s' Hpass). reflexivity.
Qed.

Lemma and_or_short_circuit_witness :
  let tail_y := Begin [Unary Display (StringExpr "y"); Fixnum 1] in
  let tail_x := Begin [Unary Display (StringExpr "x"); Fixnum 1] in
  eval no_show primitives 5 (AndVar [FalseE; tail_y]) empty empty_store
    = OK 2 (mkStore [Boolean true; Boolean false; Boolean false] [] [])
  /\ eval no_show primitives 5 (OrVar [FalseE; tail_x]) empty empty_store
     = OK 4 (mkStore [Boolean false; Void; String_ "x"; Void; Integer 1]
               [] ["x"]).
Proof.
  intros tail_y tail_x. split.
  - apply (proj1 (proj2 (and_or_short_circuit no_show primitives 4 empty
                           empty_store))
             [] FalseE [tail_y] (alloc empty_store (Boolean true)) 1
             (mkStore [Boolean true; Boolean false] [] []));
      reflexivity.
  - apply (proj1 (proj2 (proj2 (proj2 (and_or_short_circuit no_show primitives
                                         4 empty empty_store))))
             [FalseE] tail_x [] (mkStore [Boolean false] [] []) 4
             (mkStore [Boolean false; Void; String_ "x"; Void; Integer 1]
                [] ["x"]) (Integer 1));
      reflexivity.
Defined.

(** The two examples of the spec, from the syntax: [(or #f (begin (display
    "x") 1))] writes [x] once and yields the Integer 1; [(and #f (begin
    (display "y") 1))] writes nothing and yields [#f]. *)
Example or_example :
  run_form no_show 5
    (List [sym "or"; FalseSyntax;
           List [sym "begin"; List [sym "display"; StringSyntax "x"];
                 Number 1]])
    empty empty_store
  = OK 4 (mkStore [Boolean false; Void; String_ "x"; Void; Integer 1]
            [] ["x"]).
Proof. reflexivity. Qed.

Example and_example :
  run_form no_show 5
    (List [sym "and"; FalseSyntax;
           List [sym "begin"; List [sym "display"; StringSyntax "y"];
                 Number 1]])
    empty empty_store
  = OK 2 (mkStore [Boolean true; Boolean false; Boolean false] [] []).
Proof. reflexivity. Qed.

(** ** [let] *)

Lemma Let_loop_layer (ev : Expr -> Assoc -> M Value) (env : Assoc)
    (bindings : list (string * Expr)) :
  forall (newEnv : Assoc) (s : Store),
    Let_loop ev bindings env newEnv s
    = (layer <- let_layer ev env bindings ;; ret (layer ++ newEnv)) s.
Proof.
  induction bindings as [|[x e] bindings IH]; intros newEnv s; [reflexivity|].
  simpl. unfold bind. destruct (ev e env s) as [value s1| | |]; try reflexivity.
  unfold extend, new_cell. rewrite IH. unfold bind.
  destruct (let_layer ev env bindings _) as [layer s2| | |]; try reflexivity.
  unfold ret. rewrite <- app_assoc. reflexivity.
Qed.

Lemma let_layer_names (ev : Expr -> Assoc -> M Value) (env : Assoc)
    (bindings : list (string * Expr)) :
  forall (s s' : Store) (layer : Assoc),
    let_layer ev env bindings s = OK layer s' ->
    map fst layer = rev (map fst bindings).
Proof.
  induction bindings as [|[x e] bindings IH]; intros s s' layer H.
  - injection H as <- _. reflexivity.
  - simpl in H. unfold bind in H.
    destruct (ev e env s) as [value s1| | |]; try discriminate H.
    unfold new_cell in H.
    destruct (let_layer ev env bindings _) as [layer' s2| | |] eqn:Hl;
      try discriminate H.
    injection H as <- _. rewrite map_app. simpl.
    rewrite (IH _ _ _ Hl). reflexivity.
Qed.

(** Renaming the variables of a [let] changes nothing in the evaluation of
    its binding expressions: they are evaluated in [env], not in the chain
    [newEnv] that collects the bindings. *)
Lemma Let_loop_names_irrelevant (ev : Expr -> Assoc -> M Value) (env : Assoc)
    (bindings : list (string * Expr)) :
  forall (bindings' : list (string * Expr)) (newEnv newEnv' : Assoc)
         (s : Store),
    map snd bindings' = map snd bindings ->
    map snd newEnv' = map snd newEnv ->
    same_cells (Let_loop ev bindings env newEnv s)
               (Let_loop ev bindings' env newEnv' s).
Proof.
  induction bindings as [|[x e] bindings IH];
    intros [|[x' e'] bindings'] newEnv newEnv' s Hexprs Hcells;
    try discriminate Hexprs.
  - simpl. split; [symmetry; exact Hcells|reflexivity].
  - simpl in Hexprs. injection Hexprs as -> Hexprs.
    simpl. unfold bind. destruct (ev e env s) as [value s1|msg s1| |]; simpl;
      try (split; reflexivity); try exact I.
    apply IH; [exact Hexprs|]. simpl. rewrite Hcells. reflexivity.
Qed.

(** C6: [(let ((x1 e1) ... (xn en)) body)] runs as the spec's [let_layer]
    says: every [ei] is evaluated in the outer environment [env], in order,
    none of them in a chain that holds any of [x1..xn] of this [let]; the body
    is then evaluated in [env] under one layer that binds all of [x1..xn],
    the last binding innermost.  An error or a divergence of some [ei] is the
    outcome of the [let].  No [ei] sees a variable of this [let]: with other
    names for [x1..xn], the binding loop of [Let::eval] ends with the same
    outcome, the same store and the same cells. *)
Theorem let_binds_in_outer_environment
    (show : list ValueBase -> Value -> string)
    (prims : string -> option ExprType)
    (fuel : nat) (bindings : list (string * Expr)) (body : Expr)
    (env : Assoc) (s : Store) :
  let ev := eval show prims fuel in
  eval show prims (S fuel) (Let bindings body) env s
  = (layer <- let_layer ev env bindings ;; ev body (layer ++ env)) s
  /\ (forall layer s',
        let_layer ev env bindings s = OK layer s' ->
        map fst layer = rev (map fst bindings))
  /\ (forall bindings',
        map snd bindings' = map snd bindings ->
        same_cells (Let_loop ev bindings env env s)
                   (Let_loop ev bindings' env env s)).
Proof.
  intros ev. split; [|split].
  - change (Let_eval ev bindings body env s
            = (layer <- let_layer ev env bindings ;; ev body (layer ++ env)) s).
    unfold Let_eval, bind. rewrite Let_loop_layer. unfold bind.
    destruct (let_layer ev env bindings s); reflexivity.
  - intros layer s' H. exact (let_layer_names ev env bindings s s' layer H).
  - intros bindings' Hexprs.
    apply Let_loop_names_irrelevant; [exact Hexprs|reflexivity].
Qed.

Lemma let_binds_in_outer_environment_witness :
  map fst [("y", 1); ("x", 0)]
  = rev (map fst [("x", Fixnum 2); ("y", Fixnum 3)]).
Proof.
  apply (proj1 (proj2 (let_binds_in_outer_environment no_show primitives 1
                         [("x", Fixnum 2); ("y", Fixnum 3)] (Var "x") empty
                         empty_store))
           [("y", 1); ("x", 0)]
           (mkStore [Integer 2; Integer 3] [0; 1] [])).
  reflexivity.
Defined.

(** A binding expression does not see an earlier binding of the same [let]:
    in [(let ((x 1) (y x)) y)] the [x] of the second binding is looked up in
    the outer environment, where it is unbound. *)
Example let_is_not_sequential :
  run_form no_show 5
    (List [sym "let";
           List [List [sym "x"; Number 1]; List [sym "y"; sym "x"]];
           sym "y"])
    empty empty_store
  = RuntimeError "Undefined variable: x"
      (mkStore [Integer 1] [0] []).
Proof. reflexivity. Qed.

(** The spec's example [(let ((x 2) (y 3)) (+ x y))] yields 5. *)
Example let_example :
  exists v s,
    run_form no_show 5
      (List [sym "let";
             List [List [sym "x"; Number 2]; List [sym "y"; Number 3]];
             List [sym "+"; sym "x"; sym "y"]])
      empty empty_store = OK v s
    /\ objects s !! v = Some (Integer 5).
Proof. eexists _, _. split; [lazy; reflexivity | reflexivity]. Qed.

(** ** [quote] *)

(** Induction on syntax trees, with the hypothesis for every element of a
    list. *)
Lemma Syntax_nested_ind (P : Syntax -> Prop) :
  (forall n, P (Number n)) ->
  (forall numerator denominator, P (RationalSyntax numerator denominator)) ->
  (forall s, P (StringSyntax s)) ->
  (forall s, P (SymbolSyntax s)) ->
  P TrueSyntax ->
  P FalseSyntax ->
  (forall stxs, Forall P stxs -> P (List stxs)) ->
  forall X, P X.
Proof.
  intros HN HR HS HY HT HF HL. fix IH 1. intros [n|nu de|s|s| | |stxs].
  - apply HN.
  - apply HR.
  - apply HS.
  - apply HY.
  - exact HT.
  - exact HF.
  - apply HL. induction stxs as [|X stxs IHl]; constructor.
    + apply IH.
    + exact IHl.
Qed.

Lemma build_list_local (result : Value) (l : list Syntax) (env : Assoc) :
  (fix build (l : list Syntax) : M Value :=
     match l with
     | [] => ret result
     | stx :: l' =>
         result <- build l' ;;
         v <- syntaxToValue stx env ;;
         PairV v result
     end) l
  = build_list result l env.
Proof.
  induction l as [|X l IH]; simpl; [reflexivity|].
  rewrite IH. reflexivity.
Qed.

Lemma syntaxToValue_List (stxs : list Syntax) (env : Assoc) (s : Store) :
  syntaxToValue (List stxs) env s
  = match stxs with
    | [] => NullV s
    | _ => build_list (fresh s) stxs env (alloc s Null)
    end.
Proof.
  destruct stxs as [|X stxs]; [reflexivity|].
  rewrite <- build_list_local. reflexivity.
Qed.

(** The environment plays no part in the conversion. *)
Lemma syntaxToValue_env_irrelevant (X : Syntax) (env env' : Assoc) :
  forall s : Store, syntaxToValue X env s = syntaxToValue X env' s.
Proof.
  induction X as [n|nu de|str|str| | |stxs IHl] using Syntax_nested_ind;
    intros s; try reflexivity.
  rewrite !syntaxToValue_List. destruct stxs as [|X0 stxs0] eqn:Hstxs;
    [reflexivity|].
  rewrite <- Hstxs in *. clear Hstxs X0 stxs0.
  generalize (alloc s Null) as s0. generalize (fresh s) as result.
  induction IHl as [|X stxs HX _ IH]; intros result s0; [reflexivity|].
  simpl. unfold bind. rewrite IH.
  destruct (build_list result stxs env' s0) as [t s1| | |]; try reflexivity.
  rewrite HX. reflexivity.
Qed.

Lemma mirrors_List (objs : list ValueBase) (stxs : list Syntax) (v : Value) :
  mirrors objs (List stxs) v = mirrors_list objs stxs v.
Proof.
  revert v. induction stxs as [|X stxs IH]; intros v; [reflexivity|].
  simpl. destruct (objs !! v) as [[]|]; try reflexivity.
  simpl in IH. rewrite IH. reflexivity.
Qed.

Lemma grown_nil (s : Store) : grown s [] = s.
Proof. destruct s. unfold grown. simpl. rewrite app_nil_r. reflexivity. Qed.

Lemma grown_grown (s : Store) (more1 more2 : list ValueBase) :
  grown (grown s more1) more2 = grown s (more1 ++ more2).
Proof. unfold grown. simpl. rewrite <- app_assoc. reflexivity. Qed.

Lemma alloc_grown (s : Store) (o : ValueBase) : alloc s o = grown s [o].
Proof. reflexivity. Qed.

(** A datum mirrored in a heap stays mirrored when objects are allocated. *)
Lemma mirrors_mono (objs more : list ValueBase) (X : Syntax) :
  forall v, mirrors objs X v = true -> mirrors (objs ++ more) X v = true.
Proof.
  induction X as [n|nu de|str|str| | |stxs IHl] using Syntax_nested_ind;
    intros v.
  1-6: simpl; destruct (objs !! v) as [o|] eqn:Hv; [|discriminate];
       rewrite (lookup_app_l_Some _ _ _ _ Hv); trivial.
  rewrite !mirrors_List. revert v.
  induction IHl as [|X stxs HX _ IH]; intros v; simpl.
  - destruct (objs !! v) as [o|] eqn:Hv; [|discriminate].
    rewrite (lookup_app_l_Some _ _ _ _ Hv). trivial.
  - destruct (objs !! v) as [o|] eqn:Hv; [|discriminate].
    rewrite (lookup_app_l_Some _ _ _ _ Hv).
    destruct o; try discriminate.
    rewrite !andb_true_iff. intros [Hcar Hcdr]. split.
    + apply HX. exact Hcar.
    + apply IH. exact Hcdr.
Qed.

Lemma mirrors_list_mono (objs more : list ValueBase) (l : list Syntax)
    (v : Value) :
  mirrors_list objs l v = true -> mirrors_list (objs ++ more) l v = true.
Proof.
  rewrite <- !mirrors_List. apply mirrors_mono.
Qed.

(** [syntaxToValue] only allocates, and what it returns mirrors the datum. *)
Lemma syntaxToValue_mirrors (X : Syntax) (env : Assoc) :
  forall s : Store,
    exists v more,
      syntaxToValue X env s = OK v (grown s more)
      /\ mirrors (objects s ++ more) X v = true.
Proof.
  induction X as [n|nu de|str|str| | |stxs IHl] using Syntax_nested_ind;
    intros s.
  1-6: eexists (fresh s), [_]; split; [reflexivity|];
       simpl; unfold fresh; rewrite list_lookup_middle by reflexivity.
  - apply Z.eqb_refl.
  - rewrite !Z.eqb_refl. reflexivity.
  - apply String.eqb_refl.
  - apply String.eqb_refl.
  - reflexivity.
  - reflexivity.
  - rewrite syntaxToValue_List. setoid_rewrite mirrors_List.
    destruct stxs as [|X0 stxs0] eqn:Hstxs.
    { exists (fresh s), [Null]. split; [reflexivity|].
      simpl. unfold fresh. rewrite list_lookup_middle by reflexivity.
      reflexivity. }
    rewrite <- Hstxs in *. clear Hstxs X0 stxs0.
    assert (Hbuild : forall s0 result,
              objects s0 !! result = Some Null ->
              exists v more,
                build_list result stxs env s0 = OK v (grown s0 more)
                /\ mirrors_list (objects s0 ++ more) stxs v = true).
    { induction IHl as [|X stxs HX _ IH]; intros s0 result Hnull.
      - exists result, []. rewrite grown_nil, app_nil_r. split; [reflexivity|].
        simpl. rewrite Hnull. reflexivity.
      - destruct (IH s0 result Hnull) as (t & more1 & Hrun1 & Hm1).
        destruct (HX (grown s0 more1)) as (v & more2 & Hrun2 & Hm2).
        exists (fresh (grown (grown s0 more1) more2)),
               ((more1 ++ more2) ++ [Pair v t]).
        split.
        + simpl. unfold bind. rewrite Hrun1, Hrun2.
          unfold PairV. rewrite new_obj_alloc, alloc_grown, !grown_grown.
          reflexivity.
        + simpl. unfold fresh. simpl.
          rewrite !app_assoc.
          rewrite list_lookup_middle by reflexivity.
          apply andb_true_iff. split.
          * apply mirrors_mono. simpl in Hm2. exact Hm2.
          * rewrite <- !app_assoc. rewrite (app_assoc (objects s0)).
            apply mirrors_list_mono. exact Hm1. }
    destruct (Hbuild (alloc s Null) (fresh s) (lookup_alloc_fresh s Null))
      as (v & more & Hrun & Hm).
    exists v, (Null :: more). split.
    + rewrite Hrun, alloc_grown, grown_grown. reflexivity.
    + simpl in Hm. rewrite <- app_assoc in Hm. exact Hm.
Qed.

(** C7: [(quote X)] evaluates, for every datum [X] and whatever the
    environment, to a value that mirrors [X]: literals are the literal
    objects, a symbol is a [Symbol] object (no lookup takes place: the result
    is the same in every environment), a list is a [Null]-terminated chain of
    [Pair]s of the converted elements.  The evaluation allocates the objects
    of the result and does nothing else: the objects, the cells and the output
    that were there are unchanged. *)
Theorem quote_mirrors_the_datum
    (show : list ValueBase -> Value -> string)
    (prims : string -> option ExprType)
    (fuel : nat) (X : Syntax) (s : Store) :
  exists v more,
    (forall env : Assoc,
       eval show prims (S fuel) (Quote X) env s = OK v (grown s more))
    /\ run_form show (S fuel) (List [sym "quote"; X]) empty s
       = OK v (grown s more)
    /\ mirrors (objects (grown s more)) X v = true.
Proof.
  destruct (syntaxToValue_mirrors X empty s) as (v & more & Hrun & Hm).
  exists v, more. split; [|split].
  - intros env. simpl. rewrite (syntaxToValue_env_irrelevant X env empty).
    exact Hrun.
  - exact Hrun.
  - exact Hm.
Qed.

(** The datum [(a (1 "s") #t)] and its value, as an illustration. *)
Example quote_example :
  let X := List [sym "a"; List [Number 1; StringSyntax "s"]; TrueSyntax] in
  exists v s,
    run_form no_show 1 (List [sym "quote"; X]) empty empty_store = OK v s
    /\ mirrors (objects s) X v = true
    /\ objects s
       = [Null; Boolean true; Pair 1 0; Null; String_ "s"; Pair 4 3;
          Integer 1; Pair 6 5; Pair 7 2; Symbol "a"; Pair 9 8].
Proof.
  intros X. eexists _, _. split; [lazy; reflexivity|]. split; reflexivity.
Qed.

(** * Further properties of the parser *)

Lemma parse_operands_length (prims rwords : string -> option ExprType)
    (env : Assoc) (l : list Syntax) :
  forall (s s' : Store) (exprs : list Expr),
    parse_operands prims rwords l env s = OK exprs s' ->
    length exprs = length l.
Proof.
  induction l as [|X l IH]; intros s s' exprs H.
  - injection H as <- _. reflexivity.
  - simpl in H. unfold bind in H.
    destruct (parse prims rwords X env s) as [ex s1| | |]; try discriminate H.
    destruct (parse_operands prims rwords l env s1) as [exs s2| | |] eqn:Hl;
      try discriminate H.
    injection H as <- _. simpl. rewrite (IH _ _ _ Hl). reflexivity.
Qed.

Lemma parse_primitive_arity (op : string) (op_type : ExprType)
    (parameters : list Expr) (s : Store) :
  if accepts_count op_type (length parameters)
  then exists e, parse_primitive op op_type parameters s = OK e s
  else exists msg, parse_primitive op op_type parameters s = RuntimeError msg s.
Proof.
  destruct op_type; destruct parameters as [|p0 [|p1 [|p2 l]]]; simpl; eauto.
Qed.

(** X1: a head symbol that is bound in the environment is an ordinary
    variable, whatever the tables say: the list parses to the application of
    the variable to the parsed operands, also when the name is that of a
    primitive or of a reserved word. *)
Theorem bound_head_shadows_the_tables
    (prims rwords : string -> option ExprType)
    (op : string) (rest : list Syntax) (env : Assoc) (s : Store) (v : Value) :
  find op env s = Some v ->
  parse prims rwords (List (SymbolSyntax op :: rest)) env s
  = (rand <- parse_operands prims rwords rest env ;;
     ret (Apply (Var op) rand)) s.
Proof.
  intros Hfind. simpl. rewrite Hfind, parse_operands_local. reflexivity.
Qed.

Lemma bound_head_shadows_the_tables_witness :
  let s := mkStore [Integer 1] [0] [] in
  parse primitives reserved_words (List [sym "if"; Number 7]) [("if", 0)] s
  = OK (Apply (Var "if") [Fixnum 7]) s.
Proof.
  intros s.
  exact (bound_head_shadows_the_tables primitives reserved_words "if"
           [Number 7] [("if", 0)] s 0 eq_refl).
Defined.

(** X2: the arity of a primitive is checked when the list is parsed.  For a
    head that is unbound and a primitive, with operands that parse, the parse
    succeeds exactly when the number of operands is one that the operator
    accepts ([accepts_count]); otherwise it raises a RuntimeError. *)
Theorem primitive_arity_is_checked_by_parse
    (prims rwords : string -> option ExprType)
    (op : string) (op_type : ExprType) (rest : list Syntax)
    (env : Assoc) (s : Store) (parameters : list Expr) :
  find op env s = None ->
  prims op = Some op_type ->
  parse_operands prims rwords rest env s = OK parameters s ->
  if accepts_count op_type (length rest)
  then exists e,
         parse prims rwords (List (SymbolSyntax op :: rest)) env s = OK e s
  else exists msg,
         parse prims rwords (List (SymbolSyntax op :: rest)) env s
         = RuntimeError msg s.
Proof.
  intros Hfind Hprim Hops. simpl.
  rewrite Hfind, Hprim, parse_operands_local. unfold bind. rewrite Hops.
  rewrite <- (parse_operands_length _ _ _ _ _ _ _ Hops).
  apply parse_primitive_arity.
Qed.

Lemma primitive_arity_is_checked_by_parse_witness :
  (exists e,
     parse primitives reserved_words (List [sym "car"; Number 1]) empty
       empty_store = OK e empty_store)
  /\ (exists msg,
        parse primitives reserved_words (List [sym "car"; Number 1; Number 2])
          empty empty_store = RuntimeError msg empty_store).
Proof.
  split.
  - exact (primitive_arity_is_checked_by_parse primitives reserved_words
             "car" E_CAR [Number 1] empty empty_store [Fixnum 1]
             eq_refl eq_refl eq_refl).
  - exact (primitive_arity_is_checked_by_parse primitives reserved_words
             "car" E_CAR [Number 1; Number 2] empty empty_store
             [Fixnum 1; Fixnum 2] eq_refl eq_refl eq_refl).
Defined.

Lemma symbol_names_of_symbols (msg : string) (names : list string)
    (s : Store) :
  symbol_names msg (map SymbolSyntax names) s = OK names s.
Proof.
  induction names as [|x names IH]; [reflexivity|].
  simpl. unfold bind. rewrite IH. reflexivity.
Qed.

(** The three reserved-word shapes that the next property relates. *)
Lemma parse_define_variable (prims rwords : string -> option ExprType)
    (var : string) (body : Syntax) (env : Assoc) (s : Store) :
  find "define" env s = None -> prims "define" = None ->
  rwords "define" = Some E_DEFINE ->
  parse prims rwords
    (List [SymbolSyntax "define"; SymbolSyntax var; body]) env s
  = (e <- parse prims rwords body env ;; ret (Define var e)) s.
Proof.
  intros Hf Hp Hr. simpl. rewrite Hf, Hp, Hr. reflexivity.
Qed.

Lemma parse_define_function (prims rwords : string -> option ExprType)
    (f : string) (paramStxs : list Syntax) (body : Syntax)
    (env : Assoc) (s : Store) :
  find "define" env s = None -> prims "define" = None ->
  rwords "define" = Some E_DEFINE ->
  parse prims rwords
    (List [SymbolSyntax "define"; List (SymbolSyntax f :: paramStxs); body])
    env s
  = (params <- symbol_names "Parameters must be symbols" paramStxs ;;
     e <- parse prims rwords body env ;;
     ret (Define f (Lambda params e))) s.
Proof.
  intros Hf Hp Hr. simpl. rewrite Hf, Hp, Hr. reflexivity.
Qed.

Lemma parse_lambda (prims rwords : string -> option ExprType)
    (paramStxs : list Syntax) (body : Syntax) (env : Assoc) (s : Store) :
  find "lambda" env s = None -> prims "lambda" = None ->
  rwords "lambda" = Some E_LAMBDA ->
  parse prims rwords
    (List [SymbolSyntax "lambda"; List paramStxs; body]) env s
  = (params <- symbol_names "Lambda parameters must be symbols" paramStxs ;;
     e <- parse prims rwords body env ;;
     ret (Lambda params e)) s.
Proof.
  intros Hf Hp Hr. simpl. rewrite Hf, Hp, Hr. reflexivity.
Qed.

(** X3: the function form of [define] is the [define] of a [lambda].  With
    [define] and [lambda] unbound and resolved as the reserved words, and
    parameters that are symbols, [(define (f x ...) body)] and
    [(define f (lambda (x ...) body))] parse to the same result (the same
    expression, or the same error of [body]). *)
Theorem define_function_form_is_define_lambda
    (prims rwords : string -> option ExprType)
    (f : string) (names : list string) (body : Syntax)
    (env : Assoc) (s : Store) :
  find "define" env s = None -> prims "define" = None ->
  rwords "define" = Some E_DEFINE ->
  find "lambda" env s = None -> prims "lambda" = None ->
  rwords "lambda" = Some E_LAMBDA ->
  parse prims rwords
    (List [sym "define"; List (sym f :: map SymbolSyntax names); body]) env s
  = parse prims rwords
      (List [sym "define"; sym f;
             List [sym "lambda"; List (map SymbolSyntax names); body]]) env s.
Proof.
  intros Hfd Hpd Hrd Hfl Hpl Hrl. unfold sym.
  rewrite (parse_define_function prims rwords f _ body env s Hfd Hpd Hrd).
  rewrite (parse_define_variable prims rwords f _ env s Hfd Hpd Hrd).
  unfold bind at 1 3.
  rewrite (parse_lambda prims rwords _ body env s Hfl Hpl Hrl).
  unfold bind. rewrite !symbol_names_of_symbols.
  destruct (parse prims rwords body env s); reflexivity.
Qed.

Lemma define_function_form_is_define_lambda_witness :
  parse primitives reserved_words
    (List [sym "define"; List (sym "id" :: map SymbolSyntax ["x"]); sym "x"])
    empty empty_store
  = parse primitives reserved_words
      (List [sym "define"; sym "id";
             List [sym "lambda"; List (map SymbolSyntax ["x"]); sym "x"]])
      empty empty_store.
Proof.
  exact (define_function_form_is_define_lambda primitives reserved_words
           "id" ["x"] (sym "x") empty empty_store
           eq_refl eq_refl eq_refl eq_refl eq_refl eq_refl).
Defined.

(** ** Parsing has no effect *)

Lemma pure_at_ret {A : Type} (a : A) (s : Store) : pure_at (ret a) s.
Proof. left. exists a. reflexivity. Qed.

Lemma pure_at_throw {A : Type} (msg : string) (s : Store) :
  pure_at (@throw A msg) s.
Proof. right. exists msg. reflexivity. Qed.

Lemma pure_at_bind {A B : Type} (m : M A) (f : A -> M B) (s : Store) :
  pure_at m s -> (forall a, pure_at (f a) s) -> pure_at (bind m f) s.
Proof.
  intros [[a Ha]|[msg Hm]] Hf; unfold pure_at, bind.
  - rewrite Ha. apply Hf.
  - rewrite Hm. right. exists msg. reflexivity.
Qed.

Lemma parse_primitive_pure (op : string) (op_type : ExprType)
    (parameters : list Expr) (s : Store) :
  pure_at (parse_primitive op op_type parameters) s.
Proof.
  generalize (parse_primitive_arity op op_type parameters s).
  destruct (accepts_count op_type (length parameters)); intros H;
    [left|right]; exact H.
Qed.

Lemma symbol_names_pure (msg : string) (l : list Syntax) (s : Store) :
  pure_at (symbol_names msg l) s.
Proof.
  induction l as [|X l IH]; [apply pure_at_ret|].
  destruct X; simpl; try apply pure_at_throw.
  apply pure_at_bind; [exact IH|]. intros a. apply pure_at_ret.
Qed.

Lemma Syntax_size_List (l : list Syntax) :
  Syntax_size (List l) = S (Syntax_sizes l).
Proof.
  unfold Syntax_sizes. simpl. f_equal.
  induction l as [|X l IH]; [reflexivity|]. simpl. rewrite IH. reflexivity.
Qed.

Lemma Syntax_sizes_cons (X : Syntax) (l : list Syntax) :
  Syntax_sizes (X :: l) = Syntax_size X + Syntax_sizes l.
Proof. reflexivity. Qed.

Lemma parse_bindings_local (prims rwords : string -> option ExprType)
    (env : Assoc) (l : list Syntax) :
  (fix parse_bindings (l : list Syntax) : M (list (string * Expr)) :=
     match l with
     | [] => ret []
     | List [v; init] :: l' =>
         match v with
         | SymbolSyntax var =>
             ex <- parse prims rwords init env ;;
             bindings <- parse_bindings l' ;;
             ret ((var, ex) :: bindings)
         | _ => throw "Binding variable must be a symbol"
         end
     | _ => throw "Each binding must be a list of 2 elements"
     end) l
  = parse_bindings_of prims rwords l env.
Proof.
  induction l as [|X l IH]; [reflexivity|].
  destruct X as [| | | | | |[|v [|init [|? ?]]]]; try reflexivity.
  destruct v; try reflexivity. cbn [parse_bindings_of]. rewrite <- IH.
  reflexivity.
Qed.

Lemma parse_clauses_local (prims rwords : string -> option ExprType)
    (env : Assoc) (l : list Syntax) :
  (fix parse_clauses (l : list Syntax) : M (list (list Expr)) :=
     match l with
     | [] => ret []
     | List clause :: l' =>
         clauseExprs <-
           (fix parse_all (l : list Syntax) : M (list Expr) :=
              match l with
              | [] => ret []
              | x :: l' =>
                  ex <- parse prims rwords x env ;;
                  exs <- parse_all l' ;; ret (ex :: exs)
              end) clause ;;
         clauses <- parse_clauses l' ;;
         ret (clauseExprs :: clauses)
     | _ => throw "Cond clause must be a list"
     end) l
  = parse_clauses_of prims rwords l env.
Proof.
  induction l as [|X l IH]; [reflexivity|].
  destruct X; try reflexivity. cbn [parse_clauses_of].
  rewrite <- IH, <- parse_operands_local. reflexivity.
Qed.

Section ParsePure.

Variable prims rwords : string -> option ExprType.
Variable n : nat.

(** The induction hypothesis: trees of size at most [n] parse purely. *)
Hypothesis Hn :
  forall Y, Syntax_size Y <= n ->
  forall env s, pure_at (parse prims rwords Y env) s.

Lemma parse_operands_pure (l : list Syntax) (env : Assoc) (s : Store) :
  Syntax_sizes l <= n -> pure_at (parse_operands prims rwords l env) s.
Proof.
  induction l as [|X l IH]; intros Hsize; [apply pure_at_ret|].
  rewrite Syntax_sizes_cons in Hsize. simpl.
  apply pure_at_bind; [apply Hn; lia|]. intros ex.
  apply pure_at_bind; [apply IH; lia|]. intros exs. apply pure_at_ret.
Qed.

Lemma parse_bindings_pure (l : list Syntax) (env : Assoc) (s : Store) :
  Syntax_sizes l <= n -> pure_at (parse_bindings_of prims rwords l env) s.
Proof.
  induction l as [|X l IH]; intros Hsize; [apply pure_at_ret|].
  rewrite Syntax_sizes_cons in Hsize.
  destruct X as [| | | | | |[|v [|init [|? ?]]]]; try apply pure_at_throw.
  destruct v; try apply pure_at_throw.
  rewrite Syntax_size_List, !Syntax_sizes_cons in Hsize.
  cbn [parse_bindings_of].
  apply pure_at_bind; [apply Hn; lia|]. intros ex.
  apply pure_at_bind; [apply IH; lia|]. intros bs. apply pure_at_ret.
Qed.

Lemma parse_clauses_pure (l : list Syntax) (env : Assoc) (s : Store) :
  Syntax_sizes l <= n -> pure_at (parse_clauses_of prims rwords l env) s.
Proof.
  induction l as [|X l IH]; intros Hsize; [apply pure_at_ret|].
  rewrite Syntax_sizes_cons in Hsize.
  destruct X; try apply pure_at_throw.
  rewrite Syntax_size_List in Hsize. cbn [parse_clauses_of].
  apply pure_at_bind; [apply parse_operands_pure; lia|]. intros ex.
  apply pure_at_bind; [apply IH; lia|]. intros cs. apply pure_at_ret.
Qed.

End ParsePure.

Ltac fold_pure :=
  match goal with
  | |- (exists a, ?m ?s = OK a ?s) \/ _ => change (pure_at m s)
  end.

Ltac pure_step :=
  match goal with
  | |- pure_at (ret _) _ => apply pure_at_ret
  | |- pure_at (throw _) _ => apply pure_at_throw
  | |- pure_at (parse_primitive _ _ _) _ => apply parse_primitive_pure
  | |- pure_at (symbol_names _ _) _ => apply symbol_names_pure
  | |- pure_at (bind _ _) _ => apply pure_at_bind; [|intros ?]
  end.

Ltac size_side H :=
  repeat (first [rewrite Syntax_sizes_cons in H | rewrite Syntax_size_List in H]);
  unfold Syntax_sizes in *; simpl in *; lia.

Lemma parse_pure_bounded (prims rwords : string -> option ExprType)
    (n : nat) :
  forall X, Syntax_size X <= n ->
  forall env s, pure_at (parse prims rwords X env) s.
Proof.
  induction n as [|n IH]; intros X Hsize env s.
  { destruct X; simpl in Hsize; lia. }
  destruct X as [k|nu de|str|str| | |stxs]; try apply pure_at_ret.
  rewrite Syntax_size_List in Hsize.
  assert (Hops := parse_operands_pure prims rwords n IH).
  assert (Hbind := parse_bindings_pure prims rwords n IH).
  assert (Hcl := parse_clauses_pure prims rwords n IH).
  destruct stxs as [|head rest]; [apply pure_at_ret|].
  rewrite Syntax_sizes_cons in Hsize.
  assert (Hhead : pure_at (parse prims rwords head env) s)
    by (apply IH; lia).
  destruct head as [k|nu de|str|op| | |hl];
    cbn [parse]; rewrite ?parse_operands_local.
  1-3,5-7: apply pure_at_bind; [apply Hops; lia|intros rand];
           apply pure_at_bind; [exact Hhead|intros rator];
           apply pure_at_ret.
  clear Hhead.
  unfold pure_at. cbv beta.
  destruct (find op env s); [fold_pure; repeat pure_step; apply Hops; simpl in *; lia|].
  destruct (prims op); [fold_pure; repeat pure_step; apply Hops; simpl in *; lia|].
  rewrite ?parse_bindings_local, ?parse_clauses_local.
  assert (Hsub : forall Y, Syntax_size Y <= n ->
                 pure_at (parse prims rwords Y env) s)
    by (intros Y HY; apply IH; exact HY).
  destruct (rwords op) as [ty|]; [destruct ty|];
    try (fold_pure; apply pure_at_throw);
    try (fold_pure; repeat pure_step; apply Hops; size_side Hsize).
  all: destruct rest as [|a [|b [|c [|d r]]]];
    try (fold_pure; apply pure_at_throw);
    try (fold_pure; repeat pure_step; first
           [apply Hsub; size_side Hsize
           |apply Hcl; size_side Hsize
           |apply Hops; size_side Hsize]).
  all: destruct a as [| | | | | |al];
    try (fold_pure; apply pure_at_throw);
    rewrite ?parse_bindings_local;
    try (fold_pure; repeat pure_step; first
           [apply Hsub; size_side Hsize
           |apply Hbind; size_side Hsize]).
  destruct al as [|[] al];
    try (fold_pure; apply pure_at_throw);
    fold_pure; repeat pure_step; apply Hsub; size_side Hsize.
Qed.

(** X4: parsing has no effect and always ends: for every syntax tree,
    environment and store, [parse] either returns an expression or raises a
    RuntimeError, and the store is the one it was given. *)
Theorem parse_has_no_effect
    (prims rwords : string -> option ExprType)
    (X : Syntax) (env : Assoc) (s : Store) :
  (exists e, parse prims rwords X env s = OK e s)
  \/ (exists msg, parse prims rwords X env s = RuntimeError msg s).
Proof.
  exact (parse_pure_bounded prims rwords (Syntax_size X) X (le_n _) env s).
Qed.

(** * Further properties of the arithmetic *)

Lemma wrap_int_range (z : Z) : in_int (wrap_int z).
Proof.
  unfold in_int, INT_MIN, INT_MAX, wrap_int.
  assert (0 <= (z + 2 ^ 31) mod 2 ^ 32 < 2 ^ 32)%Z
    by (apply Z.mod_pos_bound; lia).
  lia.
Qed.

Lemma wrap_int_shift (z k : Z) : wrap_int (z + k * 2 ^ 32) = wrap_int z.
Proof.
  unfold wrap_int.
  replace (z + k * 2 ^ 32 + 2 ^ 31)%Z with (z + 2 ^ 31 + k * 2 ^ 32)%Z by ring.
  rewrite Z_mod_plus_full. reflexivity.
Qed.

(** [wrap_int z] differs from [z] by a multiple of [2^32]. *)
Lemma wrap_int_spec (z : Z) : exists k, wrap_int z = (z + k * 2 ^ 32)%Z.
Proof.
  exists (- ((z + 2 ^ 31) / 2 ^ 32))%Z. unfold wrap_int.
  rewrite Z.mod_eq by lia. ring.
Qed.

Lemma wrap_int_add_l (a b : Z) : wrap_int (wrap_int a + b) = wrap_int (a + b).
Proof.
  destruct (wrap_int_spec a) as [k ->].
  replace (a + k * 2 ^ 32 + b)%Z with (a + b + k * 2 ^ 32)%Z by ring.
  apply wrap_int_shift.
Qed.

Lemma wrap_int_sub_l (a b : Z) : wrap_int (wrap_int a - b) = wrap_int (a - b).
Proof.
  destruct (wrap_int_spec a) as [k ->].
  replace (a + k * 2 ^ 32 - b)%Z with (a - b + k * 2 ^ 32)%Z by ring.
  apply wrap_int_shift.
Qed.

Lemma wrap_int_mul_l (a b : Z) : wrap_int (wrap_int a * b) = wrap_int (a * b).
Proof.
  destruct (wrap_int_spec a) as [k ->].
  replace ((a + k * 2 ^ 32) * b)%Z with (a * b + (k * b) * 2 ^ 32)%Z by ring.
  apply wrap_int_shift.
Qed.

Lemma points_to_integers_grown (objs more : list ValueBase)
    (args : list Value) (ns : list Z) :
  points_to_integers objs args ns ->
  points_to_integers (objs ++ more) args ns.
Proof.
  intros H. induction H as [|v n args ns Hv _ IH]; constructor.
  - apply lookup_app_l_Some. exact Hv.
  - exact IH.
Qed.

Lemma deref_None (s : Store) (v : Value) :
  objects s !! v = None -> deref v s = Undefined.
Proof. intros H. unfold deref. rewrite H. reflexivity. Qed.

(** Run the [deref]s at the head of a primitive, from the lookups in the
    context. *)
Ltac run_derefs :=
  unfold bind;
  repeat (first
    [ match goal with
      | H : objects ?s !! ?v = Some _ |- context [deref ?v ?s] =>
          rewrite (deref_Some _ _ _ H)
      | H : objects ?s !! ?v = None |- context [deref ?v ?s] =>
          rewrite (deref_None _ _ H)
      end
    | progress cbv beta iota ]).

(** X5: [+] and [*] do not depend on the order of their two operands: the
    two calls give the same outcome and the same store, for every pair of
    values and also when the arithmetic wraps around. *)
Theorem plus_and_times_commute (s : Store) (rand1 rand2 : Value) :
  Binary_evalRator Plus rand1 rand2 s = Binary_evalRator Plus rand2 rand1 s
  /\ Binary_evalRator Mult rand1 rand2 s = Binary_evalRator Mult rand2 rand1 s.
Proof.
  unfold Binary_evalRator, addValues, multiplyValues.
  destruct (objects s !! rand1) as [o1|] eqn:H1;
    destruct (objects s !! rand2) as [o2|] eqn:H2;
    run_derefs; try (split; reflexivity).
  - destruct o1, o2; split; try reflexivity; cbv zeta.
    + rewrite (Z.add_comm n n0). reflexivity.
    + rewrite (Z.mul_comm n n0). reflexivity.
    + rewrite (Z.add_comm numerator). reflexivity.
    + rewrite (Z.mul_comm n numerator). reflexivity.
    + rewrite (Z.add_comm numerator). reflexivity.
    + rewrite (Z.mul_comm numerator n). reflexivity.
    + rewrite (Z.add_comm (wrap_int (numerator * denominator0))).
      rewrite (Z.mul_comm denominator). reflexivity.
    + rewrite (Z.mul_comm numerator), (Z.mul_comm denominator). reflexivity.
Qed.

(** ** Variadic arithmetic *)

Lemma lookup_alloc_old_int (s : Store) (v : Value) (n : Z) (o : ValueBase) :
  objects s !! v = Some (Integer n) ->
  objects (alloc s o) !! v = Some (Integer n).
Proof. intros H. unfold alloc; simpl. apply lookup_app_l_Some. exact H. Qed.

Lemma addValues_integers (s : Store) (v1 v2 : Value) (a b : Z) :
  objects s !! v1 = Some (Integer a) -> objects s !! v2 = Some (Integer b) ->
  addValues v1 v2 s = OK (fresh s) (alloc s (Integer (wrap_int (a + b)))).
Proof. intros H1 H2. unfold addValues. run_derefs. reflexivity. Qed.

Lemma subtractValues_integers (s : Store) (v1 v2 : Value) (a b : Z) :
  objects s !! v1 = Some (Integer a) -> objects s !! v2 = Some (Integer b) ->
  subtractValues v1 v2 s = OK (fresh s) (alloc s (Integer (wrap_int (a - b)))).
Proof. intros H1 H2. unfold subtractValues. run_derefs. reflexivity. Qed.

Lemma multiplyValues_integers (s : Store) (v1 v2 : Value) (a b : Z) :
  objects s !! v1 = Some (Integer a) -> objects s !! v2 = Some (Integer b) ->
  multiplyValues v1 v2 s = OK (fresh s) (alloc s (Integer (wrap_int (a * b)))).
Proof. intros H1 H2. unfold multiplyValues. run_derefs. reflexivity. Qed.

Section FoldIntegers.

Variable f : Value -> Value -> M Value.
Variable g : Z -> Z -> Z.

Hypothesis f_integers :
  forall (s : Store) (v1 v2 : Value) (a b : Z),
    objects s !! v1 = Some (Integer a) -> objects s !! v2 = Some (Integer b) ->
    f v1 v2 s = OK (fresh s) (alloc s (Integer (wrap_int (g a b)))).

Lemma fold_args_integers (args : list Value) :
  forall (ns : list Z) (s : Store) (r : Value) (acc : Z),
    objects s !! r = Some (Integer acc) ->
    points_to_integers (objects s) args ns ->
    exists r' more,
      fold_args f r args s = OK r' (grown s more)
      /\ objects (grown s more) !! r'
         = Some (Integer (fold_left (fun a n => wrap_int (g a n)) ns acc)).
Proof.
  induction args as [|v args IH]; intros ns s r acc Hr Hargs.
  - inversion Hargs; subst. exists r, []. rewrite grown_nil.
    split; [reflexivity|exact Hr].
  - inversion Hargs as [|v' n args' ns' Hv Hrest]; subst.
    simpl. unfold bind. rewrite (f_integers s r v acc n Hr Hv).
    destruct (IH ns' (alloc s (Integer (wrap_int (g acc n)))) (fresh s)
                (wrap_int (g acc n)) (lookup_alloc_fresh _ _)
                (points_to_integers_grown _ _ _ _ Hrest))
      as (r' & more & Hrun & Hlook).
    exists r', (Integer (wrap_int (g acc n)) :: more).
    rewrite Hrun, alloc_grown, grown_grown. split; [reflexivity|].
    rewrite alloc_grown, grown_grown in Hlook. exact Hlook.
Qed.

End FoldIntegers.

Lemma fold_left_wrapped_sum (ns : list Z) :
  forall acc, in_int acc ->
  fold_left (fun a n => wrap_int (a + n)) ns acc = wrap_int (acc + Z_sum ns).
Proof.
  induction ns as [|n ns IH]; intros acc Hacc; simpl.
  - rewrite Z.add_0_r, wrap_int_id by exact Hacc. reflexivity.
  - rewrite IH by apply wrap_int_range. rewrite wrap_int_add_l.
    f_equal. ring.
Qed.

Lemma fold_left_wrapped_difference (ns : list Z) :
  forall acc, in_int acc ->
  fold_left (fun a n => wrap_int (a - n)) ns acc = wrap_int (acc - Z_sum ns).
Proof.
  induction ns as [|n ns IH]; intros acc Hacc; simpl.
  - rewrite Z.sub_0_r, wrap_int_id by exact Hacc. reflexivity.
  - rewrite IH by apply wrap_int_range.
    replace (wrap_int (acc - n) - Z_sum ns)%Z
      with (wrap_int (acc - n) + - Z_sum ns)%Z by ring.
    rewrite wrap_int_add_l. f_equal. ring.
Qed.

Lemma fold_left_wrapped_product (ns : list Z) :
  forall acc, in_int acc ->
  fold_left (fun a n => wrap_int (a * n)) ns acc
  = wrap_int (acc * Z_product ns).
Proof.
  induction ns as [|n ns IH]; intros acc Hacc; simpl.
  - rewrite Z.mul_1_r, wrap_int_id by exact Hacc. reflexivity.
  - rewrite IH by apply wrap_int_range. rewrite wrap_int_mul_l.
    f_equal. ring.
Qed.

(** X6: the variadic [+], [*] and [-] on Integers.  For operands that are
    machine Integers [ns], [+] yields the Integer that is the sum of [ns]
    wrapped to 32 bits (0 for no operand), [*] the wrapped product (1 for no
    operand); [-] yields the wrapped negation of a single operand, the first
    operand minus the sum of the others for several, and raises a
    RuntimeError for none.  Objects are only allocated after those of the
    store; nothing else changes. *)
Theorem variadic_arithmetic_on_integers
    (s : Store) (args : list Value) (ns : list Z) :
  points_to_integers (objects s) args ns ->
  Forall in_int ns ->
  (exists r more,
     Variadic_evalRator PlusVar args s = OK r (grown s more)
     /\ objects (grown s more) !! r = Some (Integer (wrap_int (Z_sum ns))))
  /\ (exists r more,
        Variadic_evalRator MultVar args s = OK r (grown s more)
        /\ objects (grown s more) !! r
           = Some (Integer (wrap_int (Z_product ns))))
  /\ match ns with
     | [] => exists msg, Variadic_evalRator MinusVar args s = RuntimeError msg s
     | [n] =>
         Variadic_evalRator MinusVar args s
         = OK (fresh s) (alloc s (Integer (wrap_int (- n))))
     | n :: ns' =>
         exists r more,
           Variadic_evalRator MinusVar args s = OK r (grown s more)
           /\ objects (grown s more) !! r
              = Some (Integer (wrap_int (n - Z_sum ns')))
     end.
Proof.
  intros Hargs Hint. split; [|split].
  - (* + *)
    destruct Hargs as [|v n args ns Hv Hrest].
    { exists (fresh s), [Integer 0]. split; [reflexivity|].
      apply lookup_alloc_fresh. }
    inversion Hint as [|? ? Hn _]; subst.
    destruct (fold_args_integers addValues Z.add addValues_integers args ns
                (alloc s (Integer 0)) v n
                (lookup_alloc_old_int s v n (Integer 0) Hv)
                (points_to_integers_grown _ _ _ _ Hrest))
      as (r & more & Hrun & Hlook).
    exists r, ([Integer 0] ++ more).
    rewrite alloc_grown, grown_grown in Hrun, Hlook.
    split; [exact Hrun|].
    rewrite Hlook, fold_left_wrapped_sum by exact Hn. reflexivity.
  - (* * *)
    destruct Hargs as [|v n args ns Hv Hrest].
    { exists (fresh s), [Integer 1]. split; [reflexivity|].
      apply lookup_alloc_fresh. }
    assert (Hall : points_to_integers (objects s) (v :: args) (n :: ns))
      by (constructor; assumption).
    destruct (fold_args_integers multiplyValues Z.mul multiplyValues_integers
                (v :: args) (n :: ns) (alloc s (Integer 1)) (fresh s) 1%Z
                (lookup_alloc_fresh _ _)
                (points_to_integers_grown _ _ _ _ Hall))
      as (r & more & Hrun & Hlook).
    exists r, ([Integer 1] ++ more).
    rewrite alloc_grown, grown_grown in Hrun, Hlook.
    split; [exact Hrun|].
    rewrite Hlook, fold_left_wrapped_product
      by (unfold in_int, INT_MIN, INT_MAX; lia).
    rewrite Z.mul_1_l. reflexivity.
  - (* - *)
    destruct Hargs as [|v n args ns Hv Hrest].
    { eexists. reflexivity. }
    inversion Hint as [|? ? Hn _]; subst.
    destruct Hrest as [|v' n' args ns Hv' Hrest].
    { simpl. unfold MinusVar_evalRator. run_derefs. reflexivity. }
    assert (Hall : points_to_integers (objects s) (v' :: args) (n' :: ns))
      by (constructor; assumption).
    destruct (fold_args_integers subtractValues Z.sub subtractValues_integers
                (v' :: args) (n' :: ns) s v n Hv Hall)
      as (r & more & Hrun & Hlook).
    exists r, more. split; [exact Hrun|].
    rewrite Hlook, fold_left_wrapped_difference by exact Hn. reflexivity.
Qed.

Lemma variadic_arithmetic_on_integers_witness :
  let s := mkStore [Integer 2147483647; Integer 1; Integer 5] [] [] in
  exists r more,
    Variadic_evalRator PlusVar [0; 1; 2] s = OK r (grown s more)
    /\ objects (grown s more) !! r = Some (Integer (-2147483643)).
Proof.
  intros s.
  assert (Hargs : points_to_integers (objects s) [0; 1; 2]
                    [2147483647; 1; 5]%Z)
    by (repeat constructor).
  assert (Hint : Forall in_int [2147483647; 1; 5]%Z)
    by (repeat constructor; unfold INT_MIN, INT_MAX; lia).
  exact (proj1 (variadic_arithmetic_on_integers s [0; 1; 2]
                  [2147483647; 1; 5]%Z Hargs Hint)).
Defined.

(** ** Comparisons *)

Lemma compareNumericValues_integers (s : Store) (v1 v2 : Value) (a b : Z) :
  objects s !! v1 = Some (Integer a) -> objects s !! v2 = Some (Integer b) ->
  compareNumericValues v1 v2 s = OK (three_way a b) s.
Proof. intros H1 H2. unfold compareNumericValues. run_derefs. reflexivity. Qed.

Lemma compare_adjacent_integers (bad : Z -> bool) (s : Store)
    (args : list Value) (ns : list Z) :
  points_to_integers (objects s) args ns ->
  compare_adjacent bad args s
  = OK (fresh s)
       (alloc s (Boolean (adjacent (fun a b => negb (bad (three_way a b))) ns))).
Proof.
  intros H. induction H as [|v n args ns Hv Hrest IH]; [reflexivity|].
  destruct Hrest as [|v' n' args ns Hv' Hrest]; [reflexivity|].
  cbn [compare_adjacent adjacent]. unfold bind.
  rewrite (compareNumericValues_integers s v v' n n' Hv Hv').
  destruct (bad (three_way n n')); [reflexivity|]. exact IH.
Qed.

Lemma adjacent_ext (rel rel' : Z -> Z -> bool) (l : list Z) :
  (forall a b, rel a b = rel' a b) -> adjacent rel l = adjacent rel' l.
Proof.
  intros H. induction l as [|a l IH]; [reflexivity|].
  destruct l as [|b l]; [reflexivity|].
  change (rel a b && adjacent rel (b :: l)
          = rel' a b && adjacent rel' (b :: l)).
  rewrite H, IH. reflexivity.
Qed.

Lemma three_way_tests (a b : Z) :
  negb (three_way a b >=? 0)%Z = (a <? b)%Z
  /\ negb (three_way a b >? 0)%Z = (a <=? b)%Z
  /\ negb (negb (three_way a b =? 0)%Z) = (a =? b)%Z
  /\ negb (three_way a b <? 0)%Z = (a >=? b)%Z
  /\ negb (three_way a b <=? 0)%Z = (a >? b)%Z.
Proof.
  unfold three_way. rewrite !Z.gtb_ltb, !Z.geb_leb.
  destruct (Z.ltb_spec a b), (Z.ltb_spec b a), (Z.leb_spec a b),
    (Z.leb_spec b a), (Z.eqb_spec a b);
    simpl; repeat split; try reflexivity; lia.
Qed.

(** X7: the variadic comparisons.  With fewer than two operands each of
    [<], [<=], [=], [>=], [>] raises a RuntimeError.  With two or more
    Integer operands [ns] the result is a fresh Boolean that is [#t] exactly
    when the relation holds between every operand and the next one, and
    nothing else in the store changes. *)
Theorem variadic_comparisons_test_adjacent_pairs
    (s : Store) (args : list Value) (ns : list Z) :
  (length args < 2 ->
   forall op,
     In op [LessVar; LessEqVar; EqualVar; GreaterEqVar; GreaterVar] ->
     exists msg, Variadic_evalRator op args s = RuntimeError msg s)
  /\ (2 <= length args ->
      points_to_integers (objects s) args ns ->
      Variadic_evalRator LessVar args s
      = OK (fresh s) (alloc s (Boolean (adjacent Z.ltb ns)))
      /\ Variadic_evalRator LessEqVar args s
         = OK (fresh s) (alloc s (Boolean (adjacent Z.leb ns)))
      /\ Variadic_evalRator EqualVar args s
         = OK (fresh s) (alloc s (Boolean (adjacent Z.eqb ns)))
      /\ Variadic_evalRator GreaterEqVar args s
         = OK (fresh s) (alloc s (Boolean (adjacent Z.geb ns)))
      /\ Variadic_evalRator GreaterVar args s
         = OK (fresh s) (alloc s (Boolean (adjacent Z.gtb ns)))).
Proof.
  split.
  - intros Hlen op Hop. apply Nat.ltb_lt in Hlen.
    simpl in Hop.
    destruct Hop as [<-|[<-|[<-|[<-|[<-|[]]]]]];
      unfold Variadic_evalRator, compareVar; rewrite Hlen; eexists; reflexivity.
  - intros Hlen Hargs.
    assert (Hge : (length args <? 2)%nat = false) by (apply Nat.ltb_ge; exact Hlen).
    unfold Variadic_evalRator, compareVar. rewrite Hge.
    rewrite !(compare_adjacent_integers _ s args ns Hargs).
    repeat split; do 3 f_equal; apply adjacent_ext; intros a b;
      apply (three_way_tests a b).
Qed.

Lemma variadic_comparisons_test_adjacent_pairs_witness :
  let s := mkStore [Integer 1; Integer 2; Integer 2] [] [] in
  Variadic_evalRator LessVar [0; 1; 2] s = OK 3 (alloc s (Boolean false))
  /\ Variadic_evalRator LessEqVar [0; 1; 2] s = OK 3 (alloc s (Boolean true))
  /\ exists msg, Variadic_evalRator EqualVar [0] s = RuntimeError msg s.
Proof.
  intros s.
  assert (Hargs : points_to_integers (objects s) [0; 1; 2] [1; 2; 2]%Z)
    by (repeat constructor).
  assert (Hlen : 2 <= length [0; 1; 2]) by (simpl; lia).
  destruct (proj2 (variadic_comparisons_test_adjacent_pairs s [0; 1; 2]
                     [1; 2; 2]%Z) Hlen Hargs) as (Hlt & Hle & _).
  split; [exact Hlt|]. split; [exact Hle|].
  apply (proj1 (variadic_comparisons_test_adjacent_pairs s [0] [])).
  - simpl. lia.
  - right. right. left. reflexivity.
Defined.

Lemma three_way_converse (left right : Z) :
  three_way right left = (- three_way left right)%Z.
Proof.
  unfold three_way. rewrite !Z.gtb_ltb.
  destruct (Z.ltb_spec left right), (Z.ltb_spec right left);
    try reflexivity; lia.
Qed.

Lemma three_way_values (left right : Z) :
  three_way left right = (-1)%Z \/ three_way left right = 0%Z
  \/ three_way left right = 1%Z.
Proof.
  unfold three_way. destruct (left <? right)%Z; [left; reflexivity|].
  destruct (left >? right)%Z; [right; right|right; left]; reflexivity.
Qed.

(** X8: the comparison of two numeric values (Integer or Rational, in any
    combination) is converse-symmetric: comparing them in the other order
    gives the opposite sign.  Hence [(< a b)] is [(> b a)], [(<= a b)] is
    [(>= b a)], and [(>= a b)] is the negation of [(< a b)], also when the
    cross-multiplication wraps around. *)
Theorem comparison_is_converse_symmetric
    (s : Store) (rand1 rand2 : Value) (o1 o2 : ValueBase) :
  objects s !! rand1 = Some o1 -> objects s !! rand2 = Some o2 ->
  numeric o1 -> numeric o2 ->
  (exists c,
     compareNumericValues rand1 rand2 s = OK c s
     /\ compareNumericValues rand2 rand1 s = OK (- c)%Z s
     /\ (c = (-1)%Z \/ c = 0%Z \/ c = 1%Z))
  /\ Binary_evalRator Less rand1 rand2 s
     = Binary_evalRator Greater rand2 rand1 s
  /\ Binary_evalRator LessEq rand1 rand2 s
     = Binary_evalRator GreaterEq rand2 rand1 s
  /\ (exists b,
        Binary_evalRator Less rand1 rand2 s
        = OK (fresh s) (alloc s (Boolean b))
        /\ Binary_evalRator GreaterEq rand1 rand2 s
           = OK (fresh s) (alloc s (Boolean (negb b)))).
Proof.
  intros H1 H2 N1 N2.
  assert (Hc : exists left right,
             compareNumericValues rand1 rand2 s = OK (three_way left right) s
             /\ compareNumericValues rand2 rand1 s
                = OK (three_way right left) s).
  { unfold compareNumericValues.
    destruct N1 as [N1|N1], N2 as [N2|N2];
      destruct o1; try discriminate N1; destruct o2; try discriminate N2;
      run_derefs; eexists _, _; split; reflexivity. }
  destruct Hc as (left & right & Hc12 & Hc21).
  rewrite three_way_converse in Hc21.
  split; [|split; [|split]].
  - exists (three_way left right). repeat split; try assumption.
    apply three_way_values.
  - unfold Binary_evalRator, bind. rewrite Hc12, Hc21.
    destruct (three_way_values left right) as [->|[->| ->]]; reflexivity.
  - unfold Binary_evalRator, bind. rewrite Hc12, Hc21.
    destruct (three_way_values left right) as [->|[->| ->]]; reflexivity.
  - exists (three_way left right <? 0)%Z.
    unfold Binary_evalRator, bind. rewrite Hc12.
    destruct (three_way_values left right) as [->|[->| ->]];
      split; reflexivity.
Qed.

Lemma comparison_is_converse_symmetric_witness :
  let s := mkStore [Rational 1 2; Integer 1] [] [] in
  Binary_evalRator Less 0 1 s = Binary_evalRator Greater 1 0 s.
Proof.
  intros s.
  exact (proj1 (proj2 (comparison_is_converse_symmetric s 0 1
                         (Rational 1 2) (Integer 1) eq_refl eq_refl
                         (or_intror eq_refl) (or_introl eq_refl)))).
Defined.

(** ** [modulo] and the one-operand [/] and [-] *)

(** X9: [modulo] on Integers is the remainder of the truncating division,
    not the floored modulus: the result has the sign of the dividend (or is
    0), is smaller than the divisor in absolute value and differs from the
    dividend by a multiple of the divisor.  A divisor 0 raises a
    RuntimeError, and so does an operand that is not an Integer. *)
Theorem modulo_is_the_truncated_remainder
    (s : Store) (rand1 rand2 : Value) (o1 o2 : ValueBase) :
  objects s !! rand1 = Some o1 -> objects s !! rand2 = Some o2 ->
  (forall a b : Z,
     o1 = Integer a -> o2 = Integer b ->
     (b = 0%Z ->
      Binary_evalRator Modulo rand1 rand2 s
      = RuntimeError "Division by zero" s)
     /\ (b <> 0%Z -> ~ (a = INT_MIN /\ b = (-1)%Z) ->
         Binary_evalRator Modulo rand1 rand2 s
         = OK (fresh s) (alloc s (Integer (Z.rem a b)))
         /\ (Z.abs (Z.rem a b) < Z.abs b)%Z
         /\ (0 <= Z.rem a b * a)%Z
         /\ (a = b * Z.quot a b + Z.rem a b)%Z))
  /\ (v_type o1 <> V_INT \/ v_type o2 <> V_INT ->
      Binary_evalRator Modulo rand1 rand2 s
      = RuntimeError "modulo is only defined for integers" s).
Proof.
  intros H1 H2. split.
  - intros a b -> ->. unfold Binary_evalRator, Modulo_evalRator. run_derefs.
    split.
    + intros ->. reflexivity.
    + intros Hb Hnot.
      assert (Hb0 : (b =? 0)%Z = false) by (apply Z.eqb_neq; exact Hb).
      assert (Hsafe : ((a =? INT_MIN) && (b =? -1))%Z = false).
      { apply andb_false_iff.
        destruct (Z.eqb_spec a INT_MIN) as [Ha|Ha]; [right|left; reflexivity].
        apply Z.eqb_neq. intros Hb1. apply Hnot. split; assumption. }
      rewrite Hb0. unfold int_rem. rewrite Hsafe. run_derefs.
      split; [reflexivity|]. split; [apply Z.rem_bound_abs; exact Hb|].
      split; [apply Z.rem_sign_mul; exact Hb|]. apply Z.quot_rem'.
  - intros Hty. unfold Binary_evalRator, Modulo_evalRator. run_derefs.
    destruct Hty as [Hty|Hty]; destruct o1, o2; simpl in *;
      try reflexivity; contradiction.
Qed.

Lemma modulo_is_the_truncated_remainder_witness :
  let s := mkStore [Integer (-7); Integer 2] [] [] in
  Binary_evalRator Modulo 0 1 s = OK 2 (alloc s (Integer (-1))).
Proof.
  intros s.
  refine (proj1 (proj2 (proj1 (modulo_is_the_truncated_remainder s 0 1
                                 (Integer (-7)) (Integer 2) eq_refl eq_refl)
                          (-7)%Z 2%Z eq_refl eq_refl) _ _)).
  - lia.
  - unfold INT_MIN. lia.
Defined.

(** X10: [/] with one operand is the reciprocal, never reduced: an Integer
    [n] other than 0 gives the Rational [1/n]; a Rational [p/q] with [p]
    other than 0 gives [q/p], and the reciprocal of that result is [p/q]
    again when [q] is not 0.  A zero Integer, a Rational with numerator 0 and
    a value that is not numeric raise a RuntimeError. *)
Theorem reciprocal_swaps_numerator_and_denominator
    (s : Store) (v : Value) (o : ValueBase) :
  objects s !! v = Some o ->
  (forall n : Z, o = Integer n ->
     (n = 0%Z ->
      Variadic_evalRator DivVar [v] s = RuntimeError "Division by zero" s)
     /\ (n <> 0%Z ->
         Variadic_evalRator DivVar [v] s
         = OK (fresh s) (alloc s (Rational 1 n))))
  /\ (forall p q : Z, o = Rational p q ->
        (p = 0%Z ->
         Variadic_evalRator DivVar [v] s = RuntimeError "Division by zero" s)
        /\ (p <> 0%Z ->
            let s1 := alloc s (Rational q p) in
            Variadic_evalRator DivVar [v] s = OK (fresh s) s1
            /\ (q <> 0%Z ->
                Variadic_evalRator DivVar [fresh s] s1
                = OK (fresh s1) (alloc s1 (Rational p q)))))
  /\ (~ numeric o ->
      exists msg, Variadic_evalRator DivVar [v] s = RuntimeError msg s).
Proof.
  intros Hv. unfold Variadic_evalRator, DivVar_evalRator.
  split; [|split].
  - intros n ->. run_derefs. split.
    + intros ->. reflexivity.
    + intros Hn. apply Z.eqb_neq in Hn. rewrite Hn. reflexivity.
  - intros p q ->. run_derefs. split.
    + intros ->. reflexivity.
    + intros Hp. apply Z.eqb_neq in Hp. rewrite Hp.
      split; [reflexivity|]. intros Hq. apply Z.eqb_neq in Hq.
      assert (Hnew : objects (alloc s (Rational q p)) !! fresh s
                     = Some (Rational q p))
        by apply lookup_alloc_fresh.
      run_derefs. rewrite Hq. reflexivity.
  - intros Hnn. run_derefs. unfold numeric in Hnn.
    destruct o; simpl in Hnn; try (eexists; reflexivity);
      exfalso; apply Hnn; auto.
Qed.

Lemma reciprocal_swaps_numerator_and_denominator_witness :
  let s := mkStore [Rational 2 3] [] [] in
  Variadic_evalRator DivVar [0] s = OK 1 (alloc s (Rational 3 2)).
Proof.
  intros s.
  refine (proj1 (proj2 (proj1 (proj2
            (reciprocal_swaps_numerator_and_denominator s 0 (Rational 2 3)
               eq_refl)) 2%Z 3%Z eq_refl) _)).
  lia.
Defined.

(** * Further properties of pairs and lists *)

Lemma lookup_alloc_old (s : Store) (o o' : ValueBase) (v : Value) :
  objects s !! v = Some o' -> objects (alloc s o) !! v = Some o'.
Proof. intros H. unfold alloc; simpl. apply lookup_app_l_Some. exact H. Qed.

(** X11: [cons] allocates one pair, and [car] and [cdr] of that pair return
    the very values it was built from, with no further change of the
    store. *)
Theorem car_and_cdr_of_cons
    (show : list ValueBase -> Value -> string) (fuel : nat)
    (s : Store) (a b : Value) :
  let p := fresh s in
  let s1 := alloc s (Pair a b) in
  Binary_evalRator Cons a b s = OK p s1
  /\ Unary_evalRator show fuel Car p s1 = OK a s1
  /\ Unary_evalRator show fuel Cdr p s1 = OK b s1.
Proof.
  intros p s1. split; [reflexivity|].
  assert (Hp : objects s1 !! p = Some (Pair a b)) by apply lookup_alloc_fresh.
  unfold Unary_evalRator. split; run_derefs; reflexivity.
Qed.

(** X12: [set-car!] and [set-cdr!] overwrite the pair in place: the call
    returns a fresh [Void]; afterwards [car] (resp. [cdr]) of the same pair
    is the new value, the other field is unchanged, and so is every other
    object of the store. *)
Theorem set_car_and_set_cdr_update_in_place
    (show : list ValueBase -> Value -> string) (fuel : nat)
    (s : Store) (p v car cdr : Value) :
  objects s !! p = Some (Pair car cdr) ->
  (let s1 := overwritten s p (Pair v cdr) in
   let s2 := alloc s1 Void in
   Binary_evalRator SetCar p v s = OK (fresh s1) s2
   /\ Unary_evalRator show fuel Car p s2 = OK v s2
   /\ Unary_evalRator show fuel Cdr p s2 = OK cdr s2
   /\ forall q o, q <> p -> objects s !! q = Some o ->
                  objects s2 !! q = Some o)
  /\ (let s1 := overwritten s p (Pair car v) in
      let s2 := alloc s1 Void in
      Binary_evalRator SetCdr p v s = OK (fresh s1) s2
      /\ Unary_evalRator show fuel Car p s2 = OK car s2
      /\ Unary_evalRator show fuel Cdr p s2 = OK v s2
      /\ forall q o, q <> p -> objects s !! q = Some o ->
                     objects s2 !! q = Some o).
Proof.
  intros Hp.
  assert (Hlt : p < length (objects s)) by (eapply lookup_lt_Some; exact Hp).
  split; intros s1 s2.
  - assert (Hp2 : objects s2 !! p = Some (Pair v cdr)).
    { apply lookup_alloc_old. unfold s1, overwritten; simpl.
      apply list_lookup_insert_eq. exact Hlt. }
    split; [|split; [|split]].
    + unfold Binary_evalRator. run_derefs. reflexivity.
    + unfold Unary_evalRator. run_derefs. reflexivity.
    + unfold Unary_evalRator. run_derefs. reflexivity.
    + intros q o Hq Ho. apply lookup_alloc_old. unfold s1, overwritten; simpl.
      rewrite list_lookup_insert_ne by congruence. exact Ho.
  - assert (Hp2 : objects s2 !! p = Some (Pair car v)).
    { apply lookup_alloc_old. unfold s1, overwritten; simpl.
      apply list_lookup_insert_eq. exact Hlt. }
    split; [|split; [|split]].
    + unfold Binary_evalRator. run_derefs. reflexivity.
    + unfold Unary_evalRator. run_derefs. reflexivity.
    + unfold Unary_evalRator. run_derefs. reflexivity.
    + intros q o Hq Ho. apply lookup_alloc_old. unfold s1, overwritten; simpl.
      rewrite list_lookup_insert_ne by congruence. exact Ho.
Qed.

Lemma set_car_and_set_cdr_update_in_place_witness :
  let s := mkStore [Integer 1; Integer 2; Pair 0 1; Integer 99] [] [] in
  Unary_evalRator no_show 0 Car 2
    (alloc (overwritten s 2 (Pair 3 1)) Void)
  = OK 3 (alloc (overwritten s 2 (Pair 3 1)) Void).
Proof.
  intros s.
  exact (proj1 (proj2 (proj1 (set_car_and_set_cdr_update_in_place no_show 0
                                s 2 3 0 1 eq_refl)))).
Defined.

(** X13: [car], [cdr], [set-car!] and [set-cdr!] on a value that is not a
    pair raise a RuntimeError and leave the store as it was. *)
Theorem pair_operations_require_a_pair
    (show : list ValueBase -> Value -> string) (fuel : nat)
    (s : Store) (p v : Value) (o : ValueBase) :
  objects s !! p = Some o -> v_type o <> V_PAIR ->
  Unary_evalRator show fuel Car p s = RuntimeError "car requires a pair" s
  /\ Unary_evalRator show fuel Cdr p s = RuntimeError "cdr requires a pair" s
  /\ Binary_evalRator SetCar p v s
     = RuntimeError "set-car! requires a pair" s
  /\ Binary_evalRator SetCdr p v s
     = RuntimeError "set-cdr! requires a pair" s.
Proof.
  intros Hp Hty. unfold Unary_evalRator, Binary_evalRator. run_derefs.
  destruct o; simpl in Hty; try contradiction; repeat split; reflexivity.
Qed.

Lemma pair_operations_require_a_pair_witness :
  let s := mkStore [Null] [] [] in
  Unary_evalRator no_show 0 Car 0 s = RuntimeError "car requires a pair" s.
Proof.
  intros s.
  refine (proj1 (pair_operations_require_a_pair no_show 0 s 0 0 Null
                   eq_refl _)).
  discriminate.
Defined.

Lemma list_of_mono (objs more : list ValueBase) (vs : list Value) :
  forall r, list_of objs vs r = true -> list_of (objs ++ more) vs r = true.
Proof.
  induction vs as [|v vs IH]; intros r; simpl;
    destruct (objs !! r) as [o|] eqn:Hr; try discriminate;
    rewrite (lookup_app_l_Some _ _ _ _ Hr); trivial.
  destruct o; try discriminate. rewrite !andb_true_iff.
  intros [Hcar Hcdr]. split; [exact Hcar|]. apply IH. exact Hcdr.
Qed.

Lemma fresh_list_of_mono (base : nat) (objs more : list ValueBase)
    (vs : list Value) :
  forall r, fresh_list_of base objs vs r = true ->
            fresh_list_of base (objs ++ more) vs r = true.
Proof.
  induction vs as [|v vs IH]; intros r; simpl;
    rewrite !andb_true_iff; intros [Hbase H]; (split; [exact Hbase|]);
    destruct (objs !! r) as [o|] eqn:Hr; try discriminate;
    rewrite (lookup_app_l_Some _ _ _ _ Hr); trivial.
  destruct o; try discriminate. rewrite andb_true_iff in *.
  destruct H as [Hcar Hcdr]. split; [exact Hcar|]. apply IH. exact Hcdr.
Qed.

Lemma fresh_list_of_list_of (base : nat) (objs : list ValueBase)
    (vs : list Value) :
  forall r, fresh_list_of base objs vs r = true -> list_of objs vs r = true.
Proof.
  induction vs as [|v vs IH]; intros r; simpl;
    rewrite andb_true_iff; intros [_ H]; [exact H|].
  destruct (objs !! r) as [o|]; [|discriminate].
  destruct o; try discriminate. rewrite andb_true_iff in *.
  destruct H as [Hcar Hcdr]. split; [exact Hcar|]. apply IH. exact Hcdr.
Qed.

(** The loop allocates one pair per argument, each after the objects of the
    store it runs from. *)
Lemma ListFunc_loop_builds (base : nat) (rev_args : list Value) :
  forall (tail : list Value) (result : Value) (s : Store),
    base <= fresh s ->
    fresh_list_of base (objects s) tail result = true ->
    exists r more,
      ListFunc_loop rev_args result s = OK r (grown s more)
      /\ length more = length rev_args
      /\ fresh_list_of base (objects (grown s more)) (rev rev_args ++ tail) r
         = true.
Proof.
  induction rev_args as [|a rest IH]; intros tail result s Hbase Htail.
  - exists result, []. rewrite grown_nil.
    split; [reflexivity|]. split; [reflexivity|exact Htail].
  - simpl. unfold bind, PairV. rewrite new_obj_alloc.
    destruct (IH (a :: tail) (fresh s) (alloc s (Pair a result))) as
      (r & more & Hrun & Hlen & Hlist).
    { unfold fresh, alloc in *. cbn [objects]. rewrite length_app.
      cbn [length]. lia. }
    { simpl. apply andb_true_iff. split; [apply Nat.leb_le; exact Hbase|].
      unfold fresh. rewrite list_lookup_middle by reflexivity.
      rewrite Nat.eqb_refl. simpl. apply fresh_list_of_mono. exact Htail. }
    exists r, ([Pair a result] ++ more).
    rewrite alloc_grown, grown_grown in Hrun, Hlist.
    split; [exact Hrun|]. split; [simpl; rewrite Hlen; reflexivity|].
    rewrite <- app_assoc. exact Hlist.
Qed.

Lemma ListFunc_evalRator_builds (s : Store) (args : list Value) :
  exists r more,
    ListFunc_evalRator args s = OK r (grown s more)
    /\ length more = S (length args)
    /\ fresh_list_of (fresh s) (objects (grown s more)) args r = true.
Proof.
  unfold ListFunc_evalRator.
  destruct args as [|a args].
  - exists (fresh s), [Null]. split; [reflexivity|]. split; [reflexivity|].
    simpl. rewrite Nat.leb_refl. unfold fresh.
    rewrite list_lookup_middle by reflexivity. reflexivity.
  - unfold bind, NullV. rewrite new_obj_alloc.
    destruct (ListFunc_loop_builds (fresh s) (rev (a :: args)) [] (fresh s)
                (alloc s Null)) as (r & more & Hrun & Hlen & Hlist).
    { unfold fresh, alloc. cbn [objects]. rewrite length_app.
      cbn [length]. lia. }
    { simpl. rewrite Nat.leb_refl. unfold fresh.
      rewrite list_lookup_middle by reflexivity. reflexivity. }
    exists r, ([Null] ++ more).
    rewrite alloc_grown, grown_grown in Hrun, Hlist.
    split; [exact Hrun|]. rewrite rev_involutive, app_nil_r in Hlist.
    split; [|exact Hlist].
    rewrite length_rev in Hlen. simpl. rewrite Hlen. reflexivity.
Qed.

(** X14: [list] builds a proper list of its arguments, out of new objects.
    For every argument vector the call leaves the store as it was but for
    [more], the objects it allocated after those of the store: one [Null] and
    one pair per argument.  The result is a chain of pairs whose cars are the
    arguments themselves, in order, ended by [Null], and every node of the
    chain, the [Null] included, is one of the new objects: its address is
    not one of the store the call started from. *)
Theorem list_builds_a_proper_list (s : Store) (args : list Value) :
  exists r more,
    Variadic_evalRator ListFunc args s = OK r (grown s more)
    /\ length more = S (length args)
    /\ fresh_list_of (fresh s) (objects (grown s more)) args r = true
    /\ list_of (objects (grown s more)) args r = true.
Proof.
  destruct (ListFunc_evalRator_builds s args)
    as (r & more & Hrun & Hlen & Hfresh).
  exists r, more. cbn [Variadic_evalRator].
  split; [exact Hrun|]. split; [exact Hlen|]. split; [exact Hfresh|].
  apply (fresh_list_of_list_of (fresh s)). exact Hfresh.
Qed.

Lemma IsList_walk_proper (vs : list Value) :
  forall (fuel : nat) (r : Value) (s : Store),
    list_of (objects s) vs r = true -> length vs <= fuel ->
    IsList_walk fuel r s = OK (fresh s) (alloc s (Boolean true)).
Proof.
  induction vs as [|v vs IH]; intros fuel r s Hlist Hfuel; simpl in Hlist;
    destruct (objects s !! r) as [o|] eqn:Hr; try discriminate;
    destruct o; try discriminate.
  - destruct fuel; simpl; run_derefs; reflexivity.
  - apply andb_true_iff in Hlist. destruct Hlist as [_ Hcdr].
    destruct fuel as [|fuel]; [simpl in Hfuel; lia|].
    simpl. run_derefs. apply IH; [exact Hcdr|simpl in Hfuel; lia].
Qed.

(** X15: [list?] answers [#t] on every proper list (given fuel for its
    length) and [#f] on every value that is neither a pair nor [Null]; the
    answer is a fresh Boolean and nothing else changes.  In particular
    [list?] of the result of [list] is [#t]. *)
Theorem list_p_recognises_proper_lists
    (show : list ValueBase -> Value -> string) (s : Store) (r : Value) :
  (forall vs fuel,
     list_of (objects s) vs r = true -> length vs <= fuel ->
     Unary_evalRator show fuel IsList r s
     = OK (fresh s) (alloc s (Boolean true)))
  /\ (forall o fuel,
        objects s !! r = Some o -> v_type o <> V_PAIR -> v_type o <> V_NULL ->
        Unary_evalRator show fuel IsList r s
        = OK (fresh s) (alloc s (Boolean false)))
  /\ (forall args fuel r' s',
        Variadic_evalRator ListFunc args s = OK r' s' ->
        length args <= fuel ->
        Unary_evalRator show fuel IsList r' s'
        = OK (fresh s') (alloc s' (Boolean true))).
Proof.
  assert (Hproper : forall vs fuel r0 s0,
            list_of (objects s0) vs r0 = true -> length vs <= fuel ->
            Unary_evalRator show fuel IsList r0 s0
            = OK (fresh s0) (alloc s0 (Boolean true))).
  { intros vs fuel r0 s0 Hlist Hfuel. unfold Unary_evalRator.
    assert (Hr : exists o, objects s0 !! r0 = Some o).
    { destruct vs; simpl in Hlist; destruct (objects s0 !! r0); eauto;
        discriminate. }
    destruct Hr as [o Hr]. run_derefs.
    apply (IsList_walk_proper vs); assumption. }
  split; [|split].
  - intros vs fuel. apply Hproper.
  - intros o fuel Hr Hp Hn. unfold Unary_evalRator. run_derefs.
    destruct fuel; simpl; run_derefs;
      destruct o; simpl in Hp, Hn; try contradiction; reflexivity.
  - intros args fuel r' s' Hrun Hfuel.
    destruct (ListFunc_evalRator_builds s args)
      as (r0 & more & Hrun0 & _ & Hl).
    cbn [Variadic_evalRator] in Hrun.
    rewrite Hrun in Hrun0. injection Hrun0 as -> ->.
    apply (Hproper args);
      [exact (fresh_list_of_list_of _ _ _ _ Hl)|assumption].
Qed.

Lemma list_p_recognises_proper_lists_witness :
  let s := mkStore [Integer 1; Null; Pair 0 1] [] [] in
  Unary_evalRator no_show 1 IsList 2 s = OK 3 (alloc s (Boolean true))
  /\ Unary_evalRator no_show 0 IsList 0 s = OK 3 (alloc s (Boolean false)).
Proof.
  intros s. split.
  - exact (proj1 (list_p_recognises_proper_lists no_show s 2) [0] 1
             eq_refl (le_n 1)).
  - refine (proj1 (proj2 (list_p_recognises_proper_lists no_show s 0))
              (Integer 1) 0 eq_refl _ _); discriminate.
Defined.

(** X16: [list?] never answers on a circular list.  If the cdr chain from
    [r] stays within pairs for ever (every value reached is a pair whose cdr is
    reached too), the walk runs out of any amount of fuel. *)
Theorem list_p_does_not_end_on_a_cycle
    (show : list ValueBase -> Value -> string) (s : Store)
    (reached : Value -> Prop) :
  (forall v, reached v ->
     exists car cdr, objects s !! v = Some (Pair car cdr) /\ reached cdr) ->
  forall r, reached r ->
  forall fuel, Unary_evalRator show fuel IsList r s = Diverge.
Proof.
  intros Hclosed r Hr fuel.
  assert (Hwalk : forall fuel r, reached r -> IsList_walk fuel r s = Diverge).
  { clear r Hr fuel. induction fuel as [|fuel IH]; intros r Hr;
      destruct (Hclosed r Hr) as (car & cdr & Hlook & Hcdr);
      simpl; run_derefs; [reflexivity|]. apply IH. exact Hcdr. }
  destruct (Hclosed r Hr) as (car & cdr & Hlook & _).
  unfold Unary_evalRator. run_derefs. apply Hwalk. exact Hr.
Qed.

Lemma list_p_does_not_end_on_a_cycle_witness :
  let s := mkStore [Integer 1; Pair 0 1] [] [] in
  Unary_evalRator no_show 1000 IsList 1 s = Diverge.
Proof.
  intros s.
  refine (list_p_does_not_end_on_a_cycle no_show s (fun v => v = 1) _ 1
            eq_refl 1000).
  intros v ->. exists 0, 1. split; reflexivity.
Defined.

(** X17: [eq?].  Every value is [eq?] to itself; two Integers are [eq?]
    exactly when they are the same number, wherever they are stored; a pair, a
    string, a procedure or a Rational is [eq?] to no value stored at another
    address, whatever that value holds. *)
Theorem eq_p_by_value_or_by_identity
    (s : Store) (rand1 rand2 : Value) (o1 o2 : ValueBase) :
  objects s !! rand1 = Some o1 -> objects s !! rand2 = Some o2 ->
  Binary_evalRator IsEq rand1 rand1 s = OK (fresh s) (alloc s (Boolean true))
  /\ (forall a b, o1 = Integer a -> o2 = Integer b ->
        Binary_evalRator IsEq rand1 rand2 s
        = OK (fresh s) (alloc s (Boolean (a =? b)%Z)))
  /\ (rand1 <> rand2 ->
      In (v_type o1) [V_PAIR; V_STRING; V_PROC; V_RATIONAL] ->
      Binary_evalRator IsEq rand1 rand2 s
      = OK (fresh s) (alloc s (Boolean false))).
Proof.
  intros H1 H2. unfold Binary_evalRator, IsEq_evalRator.
  split; [|split].
  - run_derefs. destruct o1; unfold BooleanV;
      rewrite ?Z.eqb_refl, ?Bool.eqb_reflx, ?String.eqb_refl, ?Nat.eqb_refl;
      reflexivity.
  - intros a b -> ->. run_derefs. reflexivity.
  - intros Hne Hty. run_derefs.
    assert (Hneq : Nat.eqb rand1 rand2 = false) by (apply Nat.eqb_neq; exact Hne).
    simpl in Hty.
    destruct o1; simpl in Hty;
      try (exfalso; destruct Hty as [H|[H|[H|[H|[]]]]]; discriminate H);
      destruct o2; rewrite ?Hneq; reflexivity.
Qed.

Lemma eq_p_by_value_or_by_identity_witness :
  let s := mkStore [String_ "a"; String_ "a"] [] [] in
  Binary_evalRator IsEq 0 1 s = OK 2 (alloc s (Boolean false))
  /\ Binary_evalRator IsEq 0 0 s = OK 2 (alloc s (Boolean true)).
Proof.
  intros s.
  destruct (eq_p_by_value_or_by_identity s 0 1 (String_ "a") (String_ "a")
              eq_refl eq_refl) as (Hrefl & _ & Hid).
  split; [|exact Hrefl].
  apply Hid; [discriminate|]. right. left. reflexivity.
Defined.

(** * Further properties of environments and special forms *)

Lemma find_cell_of (x : string) (lst : Assoc) (s : Store) :
  find x lst s = match cell_of x lst with
                 | Some c => cells s !! c
                 | None => None
                 end.
Proof.
  induction lst as [|[y c] lst IH]; [reflexivity|].
  simpl. destruct (String.eqb x y); [reflexivity|exact IH].
Qed.

Lemma find_with_cells (x : string) (lst : Assoc) (s : Store)
    (vs : list Value) (v : Value) :
  find x lst s = Some v -> find x lst (with_cells s vs) = Some v.
Proof.
  rewrite !find_cell_of. destruct (cell_of x lst); [|discriminate].
  simpl. apply lookup_app_l_Some.
Qed.

Lemma with_cells_with_cells (s : Store) (vs ws : list Value) :
  with_cells (with_cells s vs) ws = with_cells s (vs ++ ws).
Proof. unfold with_cells. simpl. rewrite <- app_assoc. reflexivity. Qed.

Lemma extend_with_cells (x : string) (v : Value) (lst : Assoc) (s : Store) :
  extend x v lst s = OK ((x, length (cells s)) :: lst) (with_cells s [v]).
Proof. reflexivity. Qed.

(** What the parameter loop of [Apply::eval] builds. *)
Lemma extend_params_binds (parameters : list string) :
  forall (args : list Value) (env : Assoc) (s : Store),
    length args = length parameters ->
    exists param_env,
      extend_params parameters args env s
      = OK param_env (with_cells s args)
      /\ map fst param_env = rev parameters ++ map fst env
      /\ (forall x v, find x env s = Some v -> ~ In x parameters ->
            find x param_env (with_cells s args) = Some v)
      /\ (forall i x v,
            parameters !! i = Some x -> args !! i = Some v ->
            ~ In x (drop (S i) parameters) ->
            find x param_env (with_cells s args) = Some v).
Proof.
  induction parameters as [|p ps IH]; intros args env s Hlen.
  - destruct args; [|discriminate Hlen]. exists env.
    unfold with_cells. rewrite app_nil_r. destruct s; simpl.
    split; [reflexivity|]. split; [reflexivity|]. split.
    + intros x v H _. exact H.
    + intros i x v H. rewrite lookup_nil in H. discriminate H.
  - destruct args as [|a args]; [discriminate Hlen|].
    injection Hlen as Hlen.
    destruct (IH args ((p, length (cells s)) :: env) (with_cells s [a]) Hlen)
      as (param_env & Hrun & Hnames & Hold & Hnew).
    rewrite with_cells_with_cells in Hrun, Hold, Hnew.
    exists param_env. split; [|split; [|split]].
    + simpl. unfold bind. rewrite extend_with_cells. exact Hrun.
    + rewrite Hnames. simpl. rewrite <- app_assoc. reflexivity.
    + intros x v Hfind Hnot. apply Hold.
      * simpl. destruct (String.eqb_spec x p) as [->|Hne].
        -- exfalso. apply Hnot. left. reflexivity.
        -- apply (find_with_cells x env s [a]). exact Hfind.
      * intros Hin. apply Hnot. right. exact Hin.
    + intros [|i] x v Hp Ha Hnot.
      * injection Hp as ->. injection Ha as ->. apply Hold.
        -- simpl. rewrite String.eqb_refl.
           apply list_lookup_middle. reflexivity.
        -- exact Hnot.
      * apply (Hnew i x v Hp Ha). exact Hnot.
Qed.

(** X18: application is lexically scoped and binds by position.  When the
    operator evaluates to a closure and the operands to as many values as it
    has parameters, the body runs in the environment captured by the closure
    (not in that of the call) under one fresh cell per parameter: each
    parameter (the last one of a repeated name) is bound to the argument at
    its position, and every other name keeps the binding it has in the
    captured environment. *)
Theorem application_binds_parameters_over_the_closure_environment
    (show : list ValueBase -> Value -> string)
    (prims : string -> option ExprType)
    (fuel : nat) (rator : Expr) (rand : list Expr) (e : Assoc) (s : Store)
    (ratorValue : Value) (s1 s2 : Store)
    (parameters : list string) (body : Expr) (env : Assoc)
    (args : list Value) :
  let ev := eval show prims fuel in
  ev rator e s = OK ratorValue s1 ->
  objects s1 !! ratorValue = Some (Procedure parameters body env) ->
  evalRands ev rand e s1 = OK args s2 ->
  length args = length parameters ->
  exists param_env,
    eval show prims (S fuel) (Apply rator rand) e s
    = ev body param_env (with_cells s2 args)
    /\ map fst param_env = rev parameters ++ map fst env
    /\ (forall x v, find x env s2 = Some v -> ~ In x parameters ->
          find x param_env (with_cells s2 args) = Some v)
    /\ (forall i x v,
          parameters !! i = Some x -> args !! i = Some v ->
          ~ In x (drop (S i) parameters) ->
          find x param_env (with_cells s2 args) = Some v).
Proof.
  intros ev Hrator Hclos Hargs Hlen.
  destruct (extend_params_binds parameters args env s2 Hlen)
    as (param_env & Hrun & Hnames & Hold & Hnew).
  exists param_env. split; [|split; [|split]]; try assumption.
  change (Apply_eval ev rator rand e s
          = ev body param_env (with_cells s2 args)).
  unfold Apply_eval, bind. rewrite Hrator, (deref_Some _ _ _ Hclos), Hargs.
  rewrite Hlen, Nat.eqb_refl. simpl. rewrite Hrun. reflexivity.
Qed.

Lemma application_binds_parameters_over_the_closure_environment_witness :
  let s := mkStore [Procedure ["x"] (Var "x") []; Integer 7] [0] [] in
  exists param_env,
    eval no_show primitives 3 (Apply (Var "f") [Fixnum 5]) [("f", 0)] s
    = eval no_show primitives 2 (Var "x") param_env
        (with_cells (alloc s (Integer 5)) [2])
    /\ find "x" param_env (with_cells (alloc s (Integer 5)) [2]) = Some 2.
Proof.
  intros s.
  destruct (application_binds_parameters_over_the_closure_environment
              no_show primitives 2 (Var "f") [Fixnum 5] [("f", 0)] s
              0 s (alloc s (Integer 5)) ["x"] (Var "x") [] [2]
              eq_refl eq_refl eq_refl eq_refl)
    as (param_env & Hrun & _ & _ & Hnew).
  exists param_env. split; [exact Hrun|].
  apply (Hnew 0 "x" 2); [reflexivity|reflexivity|]. simpl. tauto.
Defined.

(** X19: the two errors of an application.  An operator that does not
    evaluate to a procedure raises "Attempt to apply a non-procedure" before
    any operand is evaluated: the store is the one the operator left,
    whatever the operands are.  A procedure called with another number of
    operands than it has parameters raises "Wrong number of arguments" after
    all the operands were evaluated. *)
Theorem application_errors
    (show : list ValueBase -> Value -> string)
    (prims : string -> option ExprType)
    (fuel : nat) (rator : Expr) (rand : list Expr) (e : Assoc) (s : Store)
    (ratorValue : Value) (s1 : Store) (o : ValueBase) :
  let ev := eval show prims fuel in
  ev rator e s = OK ratorValue s1 ->
  objects s1 !! ratorValue = Some o ->
  (v_type o <> V_PROC ->
   eval show prims (S fuel) (Apply rator rand) e s
   = RuntimeError "Attempt to apply a non-procedure" s1)
  /\ (forall parameters body env args s2,
        o = Procedure parameters body env ->
        evalRands ev rand e s1 = OK args s2 ->
        length args <> length parameters ->
        eval show prims (S fuel) (Apply rator rand) e s
        = RuntimeError "Wrong number of arguments" s2).
Proof.
  intros ev Hrator Ho. split.
  - intros Hty.
    change (Apply_eval ev rator rand e s
            = RuntimeError "Attempt to apply a non-procedure" s1).
    unfold Apply_eval, bind. rewrite Hrator, (deref_Some _ _ _ Ho).
    destruct o; simpl in Hty; try contradiction; reflexivity.
  - intros parameters body env args s2 -> Hargs Hlen.
    change (Apply_eval ev rator rand e s
            = RuntimeError "Wrong number of arguments" s2).
    unfold Apply_eval, bind. rewrite Hrator, (deref_Some _ _ _ Ho), Hargs.
    apply Nat.eqb_neq in Hlen. rewrite Hlen. reflexivity.
Qed.

Lemma application_errors_witness :
  eval no_show primitives 2
    (Apply (Fixnum 1) [Unary Display (StringExpr "never")]) empty empty_store
  = RuntimeError "Attempt to apply a non-procedure"
      (mkStore [Integer 1] [] []).
Proof.
  refine (proj1 (application_errors no_show primitives 1 (Fixnum 1)
                   [Unary Display (StringExpr "never")] empty empty_store
                   0 (mkStore [Integer 1] [] []) (Integer 1)
                   eq_refl eq_refl) _).
  discriminate.
Defined.

Lemma modify_cell_of (x : string) (v : Value) (lst : Assoc) (c : nat)
    (s : Store) :
  cell_of x lst = Some c -> modify x v lst s = OK tt (cell_set s c v).
Proof.
  induction lst as [|[y c'] lst IH]; intros H; [discriminate H|].
  simpl in *. destruct (String.eqb x y).
  - injection H as ->. reflexivity.
  - apply IH. exact H.
Qed.

(** X20: [set!] on a bound variable overwrites the cell of its innermost
    binding and returns a fresh [Void].  Afterwards the variable, and every
    chain that holds the same cell (the environment captured by a closure, for
    one), reads the new value; a binding that has another cell reads what it
    read before. *)
Theorem set_writes_the_cell_of_the_binding
    (show : list ValueBase -> Value -> string)
    (prims : string -> option ExprType)
    (fuel : nat) (x : string) (e : Expr) (env : Assoc) (s s1 : Store)
    (v old : Value) :
  eval show prims fuel e env s = OK v s1 ->
  find x env s1 = Some old ->
  exists c,
    cell_of x env = Some c
    /\ eval show prims (S fuel) (SetE x e) env s
       = OK (fresh s1) (alloc (cell_set s1 c v) Void)
    /\ (forall env' y,
          cell_of y env' = Some c ->
          find y env' (alloc (cell_set s1 c v) Void) = Some v)
    /\ (forall env' y c',
          cell_of y env' = Some c' -> c' <> c ->
          find y env' (alloc (cell_set s1 c v) Void) = find y env' s1).
Proof.
  intros Hev Hfind. rewrite find_cell_of in Hfind.
  destruct (cell_of x env) as [c|] eqn:Hc; [|discriminate Hfind].
  exists c. split; [reflexivity|].
  assert (Hlt : c < length (cells s1)) by (eapply lookup_lt_Some; exact Hfind).
  split; [|split].
  - change (Set_eval (eval show prims fuel) x e env s
            = OK (fresh s1) (alloc (cell_set s1 c v) Void)).
    unfold Set_eval, bind. rewrite Hev, (modify_cell_of x v env c s1 Hc).
    reflexivity.
  - intros env' y Hy. rewrite find_cell_of, Hy. simpl.
    apply list_lookup_insert_eq. exact Hlt.
  - intros env' y c' Hy Hne. rewrite !find_cell_of, Hy. simpl.
    apply list_lookup_insert_ne. congruence.
Qed.

Lemma set_writes_the_cell_of_the_binding_witness :
  let s := mkStore [Integer 1] [0] [] in
  exists c,
    cell_of "x" [("x", 0)] = Some c
    /\ eval no_show primitives 2 (SetE "x" (Fixnum 2)) [("x", 0)] s
       = OK 2 (alloc (cell_set (alloc s (Integer 2)) c 1) Void).
Proof.
  intros s.
  destruct (set_writes_the_cell_of_the_binding no_show primitives 1 "x"
              (Fixnum 2) [("x", 0)] s (alloc s (Integer 2)) 1 0
              eq_refl eq_refl) as (c & Hc & Hrun & _).
  exists c. split; [exact Hc|exact Hrun].
Defined.

(** ** [begin] and [cond] *)

Lemma Begin_loop_prefix (ev : Expr -> Assoc -> M Value) (e : Assoc)
    (es1 rest : list Expr) :
  forall (s s1 : Store) (result : Value),
    operands_pass ev e (fun _ => true) es1 s = Some s1 ->
    rest <> [] ->
    exists result',
      Begin_loop ev (es1 ++ rest) e result s
      = Begin_loop ev rest e result' s1.
Proof.
  induction es1 as [|x es1 IH]; intros s s1 result Hpass Hrest.
  - injection Hpass as <-. exists result. reflexivity.
  - simpl in Hpass. simpl. unfold bind.
    destruct (ev x e s) as [v s0| | |]; try discriminate Hpass.
    destruct (objects s0 !! v) as [o|]; try discriminate Hpass.
    apply IH; assumption.
Qed.

(** X22: [begin] evaluates its expressions in order and returns the value
    of the last one; with no expression it returns a fresh [Void].  If the
    expressions before [expr] return and [expr] raises an error, that error
    is the outcome and the later expressions are not evaluated. *)
Theorem begin_returns_the_last_value
    (show : list ValueBase -> Value -> string)
    (prims : string -> option ExprType)
    (fuel : nat) (e : Assoc) (s : Store) :
  let ev := eval show prims fuel in
  eval show prims (S fuel) (Begin []) e s = OK (fresh s) (alloc s Void)
  /\ (forall es1 expr s1 v s2,
        operands_pass ev e (fun _ => true) es1 (alloc s Void) = Some s1 ->
        ev expr e s1 = OK v s2 ->
        eval show prims (S fuel) (Begin (es1 ++ [expr])) e s = OK v s2)
  /\ (forall es1 expr es2 s1 msg s2,
        operands_pass ev e (fun _ => true) es1 (alloc s Void) = Some s1 ->
        ev expr e s1 = RuntimeError msg s2 ->
        eval show prims (S fuel) (Begin (es1 ++ expr :: es2)) e s
        = RuntimeError msg s2).
Proof.
  intros ev. split; [reflexivity|]. split.
  - intros es1 expr s1 v s2 Hpass Hev.
    assert (Hrun : eval show prims (S fuel) (Begin (es1 ++ [expr])) e s
                   = Begin_loop ev (es1 ++ [expr]) e (fresh s) (alloc s Void)).
    { destruct es1; reflexivity. }
    rewrite Hrun.
    destruct (Begin_loop_prefix ev e es1 [expr] (alloc s Void) s1 (fresh s)
                Hpass) as [result' ->]; [discriminate|].
    simpl. unfold bind. rewrite Hev. reflexivity.
  - intros es1 expr es2 s1 msg s2 Hpass Hev.
    assert (Hrun : eval show prims (S fuel) (Begin (es1 ++ expr :: es2)) e s
                   = Begin_loop ev (es1 ++ expr :: es2) e (fresh s)
                       (alloc s Void)).
    { destruct es1; reflexivity. }
    rewrite Hrun.
    destruct (Begin_loop_prefix ev e es1 (expr :: es2) (alloc s Void) s1
                (fresh s) Hpass) as [result' ->]; [discriminate|].
    simpl. unfold bind. rewrite Hev. reflexivity.
Qed.

Lemma begin_returns_the_last_value_witness :
  eval no_show primitives 3
    (Begin [Unary Display (StringExpr "a"); Fixnum 1]) empty empty_store
  = OK 3 (mkStore [Void; String_ "a"; Void; Integer 1] [] ["a"]).
Proof.
  exact (proj1 (proj2 (begin_returns_the_last_value no_show primitives 2
                         empty empty_store))
           [Unary Display (StringExpr "a")] (Fixnum 1)
           (mkStore [Void; String_ "a"; Void] [] ["a"]) 3
           (mkStore [Void; String_ "a"; Void; Integer 1] [] ["a"])
           eq_refl eq_refl).
Defined.

Lemma Cond_eval_prefix (ev : Expr -> Assoc -> M Value) (env : Assoc)
    (cs1 cs2 : list (list Expr)) :
  forall s s1 : Store,
    tests_fail ev env cs1 s = Some s1 ->
    Cond_eval ev (cs1 ++ cs2) env s = Cond_eval ev cs2 env s1.
Proof.
  induction cs1 as [|[|test body] cs1 IH]; intros s s1 Hfail.
  - injection Hfail as <-. reflexivity.
  - simpl in *. apply IH. exact Hfail.
  - simpl in Hfail. simpl. unfold bind, deref.
    destruct (ev test env s) as [v s0| | |]; try discriminate Hfail.
    destruct (objects s0 !! v) as [o|]; try discriminate Hfail.
    unfold isTrue. destruct (is_Boolean_false o); [|discriminate Hfail].
    simpl. apply IH. exact Hfail.
Qed.

(** X23: [cond] takes the first clause whose test is not [#f].  If no
    clause is taken the result is a fresh [Void].  If the clauses before are
    not taken and the test of the next one evaluates to a value other than
    [#f], then a clause made of the test alone returns the value of the test,
    and a clause with a body returns what the body, run in order, returns; the
    later clauses are not evaluated. *)
Theorem cond_takes_the_first_true_clause
    (show : list ValueBase -> Value -> string)
    (prims : string -> option ExprType)
    (fuel : nat) (env : Assoc) (s : Store) :
  let ev := eval show prims fuel in
  (forall clauses s',
     tests_fail ev env clauses s = Some s' ->
     eval show prims (S fuel) (Cond clauses) env s
     = OK (fresh s') (alloc s' Void))
  /\ (forall cs1 test body cs2 s1 v s2 o,
        tests_fail ev env cs1 s = Some s1 ->
        ev test env s1 = OK v s2 ->
        objects s2 !! v = Some o -> isTrue o = true ->
        eval show prims (S fuel) (Cond (cs1 ++ (test :: body) :: cs2)) env s
        = match body with
          | [] => OK v s2
          | _ => Begin_loop ev body env (fresh s2) (alloc s2 Void)
          end).
Proof.
  intros ev. split.
  - intros clauses s' Hfail.
    change (Cond_eval ev clauses env s = OK (fresh s') (alloc s' Void)).
    rewrite <- (app_nil_r clauses).
    rewrite (Cond_eval_prefix ev env clauses [] s s' Hfail). reflexivity.
  - intros cs1 test body cs2 s1 v s2 o Hfail Hev Hv Ho.
    change (Cond_eval ev (cs1 ++ (test :: body) :: cs2) env s
            = match body with
              | [] => OK v s2
              | _ => Begin_loop ev body env (fresh s2) (alloc s2 Void)
              end).
    rewrite (Cond_eval_prefix ev env cs1 _ s s1 Hfail).
    simpl. unfold bind, deref. rewrite Hev, Hv, Ho.
    destruct body; reflexivity.
Qed.

Lemma cond_takes_the_first_true_clause_witness :
  eval no_show primitives 3
    (Cond [[FalseE; Fixnum 1]; [Fixnum 2]; [Fixnum 3]]) empty empty_store
  = OK 1 (mkStore [Boolean false; Integer 2] [] []).
Proof.
  exact (proj2 (cond_takes_the_first_true_clause no_show primitives 2 empty
                  empty_store)
           [[FalseE; Fixnum 1]] (Fixnum 2) [] [[Fixnum 3]]
           (mkStore [Boolean false] [] []) 1
           (mkStore [Boolean false; Integer 2] [] []) (Integer 2)
           eq_refl eq_refl eq_refl eq_refl).
Defined.

(** ** [letrec] *)

(** X24: [letrec] ties the knot for a recursive function.  For a single
    binding of [f] to a [lambda], the body runs in the outer environment
    under a binding of [f] whose cell holds the closure, and the environment
    captured by that closure is this same chain: inside the function, [f]
    reads the closure itself.  The placeholder [Null] stays in the heap but
    no cell holds it any more. *)
Theorem letrec_ties_the_knot
    (show : list ValueBase -> Value -> string)
    (prims : string -> option ExprType)
    (fuel : nat) (f : string) (parameters : list string) (b body : Expr)
    (env : Assoc) (s : Store) :
  let newEnv := (f, length (cells s)) :: env in
  let closure := S (length (objects s)) in
  let s' := mkStore (objects s ++ [Null; Procedure parameters b newEnv])
                    (cells s ++ [closure]) (output s) in
  eval show prims (S (S fuel)) (Letrec [(f, Lambda parameters b)] body) env s
  = eval show prims (S fuel) body newEnv s'
  /\ find f newEnv s' = Some closure
  /\ objects s' !! closure = Some (Procedure parameters b newEnv).
Proof.
  intros newEnv closure s'.
  assert (Hcells : <[length (cells s) := closure]>
                     (cells s ++ [length (objects s)])
                   = cells s ++ [closure]).
  { rewrite insert_app_r_alt by apply Nat.le_refl.
    rewrite Nat.sub_diag. reflexivity. }
  split; [|split].
  - change (Letrec_eval (eval show prims (S fuel)) [(f, Lambda parameters b)]
              body env s
            = eval show prims (S fuel) body newEnv s').
    unfold Letrec_eval, Letrec_placeholders, Letrec_patch, bind.
    set (run_body := eval show prims (S fuel) body).
    cbn [NullV new_obj extend ret eval ProcedureV modify objects cells output].
    rewrite String.eqb_refl. cbn [objects cells output].
    rewrite length_app, Nat.add_1_r. cbn [length].
    fold closure. unfold ret. cbv beta iota. unfold s', newEnv.
    f_equal. f_equal; [rewrite <- app_assoc; reflexivity|exact Hcells].
  - simpl. rewrite String.eqb_refl. apply list_lookup_middle. reflexivity.
  - unfold s', closure. simpl.
    replace (objects s ++ [Null; Procedure parameters b newEnv])
      with ((objects s ++ [Null]) ++ [Procedure parameters b newEnv])
      by (rewrite <- app_assoc; reflexivity).
    apply list_lookup_middle. rewrite length_app, Nat.add_1_r. reflexivity.
Qed.

(** * Further properties of the driver *)

(** X25: the read-eval-print loop catches every error.  Whatever the forms,
    the loop itself never raises a RuntimeError.  A form that raises one
    makes the driver write "RuntimeError" and a newline, and the loop goes on
    with the next form from the store the failed form left (nothing is rolled
    back).  A form whose value is the [Terminate] object ends the loop at
    once: nothing is written for it and the later forms are not run. *)
Theorem REPL_catches_every_error
    (show : list ValueBase -> Value -> string)
    (fuel : nat) (global_env : Assoc) :
  (forall forms s msg s',
     REPL_loop show fuel forms global_env s <> RuntimeError msg s')
  /\ (forall stx forms s msg s1,
        run_form show fuel stx global_env s = RuntimeError msg s1 ->
        REPL_loop show fuel (stx :: forms) global_env s
        = REPL_loop show fuel forms global_env
            (with_output s1 ["RuntimeError"; newline]))
  /\ (forall stx forms s val s1,
        run_form show fuel stx global_env s = OK val s1 ->
        objects s1 !! val = Some Terminate ->
        REPL_loop show fuel (stx :: forms) global_env s = OK tt s1).
Proof.
  split; [|split].
  - induction forms as [|stx forms IH]; intros s msg s'; [discriminate|].
    cbn [REPL_loop].
    destruct (run_form show fuel stx global_env s) as [val s1|msg1 s1| |];
      try discriminate.
    + destruct (objects s1 !! val) as [o|]; [|discriminate].
      destruct o; try discriminate; unfold bind; cbn [print]; apply IH.
    + unfold bind; cbn [print]. apply IH.
  - intros stx forms s msg s1 Hrun. cbn [REPL_loop]. rewrite Hrun.
    unfold bind; cbn [print]. unfold with_output. cbn [objects cells output].
    rewrite <- app_assoc. reflexivity.
  - intros stx forms s val s1 Hrun Hterm. cbn [REPL_loop].
    rewrite Hrun, Hterm. reflexivity.
Qed.

Lemma REPL_catches_every_error_witness :
  REPL_loop no_show 3 [sym "x"; Number 1] empty empty_store
  = REPL_loop no_show 3 [Number 1] empty
      (with_output empty_store ["RuntimeError"; newline]).
Proof.
  exact (proj1 (proj2 (REPL_catches_every_error no_show 3 empty))
           (sym "x") [Number 1] empty_store "Undefined variable: x"
           empty_store eq_refl).
Defined.

(** * The store only grows *)

Lemma later_refl (s : Store) : later s s.
Proof.
  split; [|split].
  - intros v o H. exists o. auto.
  - apply Nat.le_refl.
  - exists []. symmetry. apply app_nil_r.
Qed.

Lemma later_trans (s1 s2 s3 : Store) :
  later s1 s2 -> later s2 s3 -> later s1 s3.
Proof.
  intros (Ho1 & Hc1 & more1 & Hout1) (Ho2 & Hc2 & more2 & Hout2).
  split; [|split].
  - intros v o H. destruct (Ho1 v o H) as (o' & H' & Ht' & He').
    destruct (Ho2 v o' H') as (o'' & H'' & Ht'' & He'').
    exists o''. split; [exact H''|]. split; [congruence|].
    intros Hn. rewrite <- (He' Hn). apply He''. rewrite (He' Hn). exact Hn.
  - eapply Nat.le_trans; eassumption.
  - exists (more1 ++ more2). rewrite Hout2, Hout1, app_assoc. reflexivity.
Qed.

Lemma monotone_ret {A : Type} (a : A) : monotone (ret a).
Proof. intros s s' H. injection H as <-. apply later_refl. Qed.

Lemma monotone_throw {A : Type} (msg : string) : monotone (@throw A msg).
Proof. intros s s' H. injection H as <-. apply later_refl. Qed.

Lemma monotone_diverge {A : Type} : monotone (@diverge A).
Proof. intros s s' H. discriminate. Qed.

Lemma monotone_undefined {A : Type} : monotone (@undefined A).
Proof. intros s s' H. discriminate. Qed.

Lemma monotone_bind {A B : Type} (m : M A) (f : A -> M B) :
  monotone m -> (forall a, monotone (f a)) -> monotone (bind m f).
Proof.
  intros Hm Hf s s' H. unfold bind in H.
  pose proof (Hm s) as Hm'.
  destruct (m s) as [a s1|msg s1| |]; try discriminate.
  - eapply later_trans; [apply Hm'; reflexivity|]. eapply Hf. exact H.
  - injection H as <-. apply Hm'. reflexivity.
Qed.

Lemma later_alloc (s : Store) (o : ValueBase) : later s (alloc s o).
Proof.
  split; [|split].
  - intros v o' H. exists o'. split; [|auto].
    unfold alloc; cbn [objects]. apply lookup_app_l_Some. exact H.
  - apply Nat.le_refl.
  - exists []. symmetry. apply app_nil_r.
Qed.

Lemma monotone_new_obj (o : ValueBase) : monotone (new_obj o).
Proof. intros s s' H. injection H as <-. apply (later_alloc s o). Qed.

Lemma monotone_deref (v : Value) : monotone (deref v).
Proof.
  intros s s' H. unfold deref in H.
  destruct (objects s !! v); [|discriminate].
  injection H as <-. apply later_refl.
Qed.

Lemma later_print (s : Store) (str : string) :
  later s (mkStore (objects s) (cells s) (output s ++ [str])).
Proof.
  split; [|split].
  - intros v o H. exists o. auto.
  - apply Nat.le_refl.
  - exists [str]. reflexivity.
Qed.

Lemma monotone_print (str : string) : monotone (print str).
Proof. intros s s' H. injection H as <-. apply later_print. Qed.

Lemma monotone_print_of (f : Store -> string) :
  monotone (fun s => print (f s) s).
Proof. intros s s' H. injection H as <-. apply later_print. Qed.

Lemma monotone_extend (x : string) (v : Value) (lst : Assoc) :
  monotone (extend x v lst).
Proof.
  intros s s' H. injection H as <-. split; [|split].
  - intros a o Ha. exists o. auto.
  - cbn [cells]. rewrite length_app. apply Nat.le_add_r.
  - exists []. symmetry. apply app_nil_r.
Qed.

Lemma monotone_modify (x : string) (v : Value) (lst : Assoc) :
  monotone (modify x v lst).
Proof.
  induction lst as [|[y c] next IH]; cbn [modify].
  - apply monotone_throw.
  - destruct (String.eqb x y); [|exact IH].
    intros s s' H. injection H as <-. split; [|split].
    + intros a o Ha. exists o. auto.
    + cbn [cells]. rewrite length_insert. apply Nat.le_refl.
    + exists []. symmetry. apply app_nil_r.
Qed.

(** Overwriting a pair by a pair. *)
Lemma later_overwritten (s : Store) (p : Value) (a d a' d' : Value) :
  objects s !! p = Some (Pair a d) ->
  later s (mkStore (<[p := Pair a' d']> (objects s)) (cells s) (output s)).
Proof.
  intros Hp. split; [|split].
  - intros v o H. cbn [objects]. destruct (Nat.eq_dec v p) as [->|Hne].
    + exists (Pair a' d'). split.
      * apply list_lookup_insert_eq. eapply lookup_lt_Some. exact Hp.
      * pose proof (eq_trans (eq_sym H) Hp) as E. injection E as ->.
        split; [reflexivity|].
        intros Hn. exfalso. apply Hn. reflexivity.
    + exists o. split; [|auto].
      rewrite list_lookup_insert_ne by congruence. exact H.
  - apply Nat.le_refl.
  - exists []. symmetry. apply app_nil_r.
Qed.

Create HintDb monotone.

#[local] Hint Resolve monotone_ret monotone_throw monotone_diverge
  monotone_undefined monotone_new_obj monotone_deref monotone_print
  monotone_print_of monotone_extend monotone_modify : monotone.

(** Through the binds and the case distinctions of a computation. *)
Ltac mono :=
  repeat first
    [ solve [auto 3 with monotone nocore]
    | progress unfold IntegerV, RationalV, StringV, SymbolV, BooleanV, NullV,
        PairV, ProcedureV, VoidV, TerminateV
    | apply monotone_bind; [|intros ?]
    | match goal with
      | |- monotone (match ?x with _ => _ end) => destruct x
      | |- monotone (let _ := _ in _) => cbv zeta
      end ].

Lemma monotone_int_div (n1 n2 : Z) : monotone (int_div n1 n2).
Proof. unfold int_div. mono. Qed.

Lemma monotone_int_rem (n1 n2 : Z) : monotone (int_rem n1 n2).
Proof. unfold int_rem. mono. Qed.

#[local] Hint Resolve monotone_int_div monotone_int_rem : monotone.

Lemma monotone_addValues (v1 v2 : Value) : monotone (addValues v1 v2).
Proof. unfold addValues. mono. Qed.

Lemma monotone_subtractValues (v1 v2 : Value) :
  monotone (subtractValues v1 v2).
Proof. unfold subtractValues. mono. Qed.

Lemma monotone_multiplyValues (v1 v2 : Value) :
  monotone (multiplyValues v1 v2).
Proof. unfold multiplyValues. mono. Qed.

Lemma monotone_divideValues (v1 v2 : Value) : monotone (divideValues v1 v2).
Proof. unfold divideValues. mono. Qed.

Lemma monotone_Modulo (rand1 rand2 : Value) :
  monotone (Modulo_evalRator rand1 rand2).
Proof. unfold Modulo_evalRator. mono. Qed.

Lemma monotone_Expt_loop (fuel : nat) (exp result b : Z) :
  monotone (Expt_loop fuel exp result b).
Proof.
  revert exp result b.
  induction fuel as [|fuel IH]; intros exp result b; cbn [Expt_loop]; mono.
Qed.

#[local] Hint Resolve monotone_Expt_loop : monotone.

Lemma monotone_Expt (rand1 rand2 : Value) :
  monotone (Expt_evalRator rand1 rand2).
Proof. unfold Expt_evalRator. mono. Qed.

Lemma monotone_compareNumericValues (v1 v2 : Value) :
  monotone (compareNumericValues v1 v2).
Proof. unfold compareNumericValues. mono. Qed.

#[local] Hint Resolve monotone_addValues monotone_subtractValues
  monotone_multiplyValues monotone_divideValues monotone_Modulo
  monotone_Expt monotone_compareNumericValues : monotone.

Lemma monotone_compare_adjacent (bad : Z -> bool) (args : list Value) :
  monotone (compare_adjacent bad args).
Proof.
  induction args as [|a [|a' rest] IH]; cbn [compare_adjacent]; mono.
Qed.

Lemma monotone_compareVar (name : string) (bad : Z -> bool)
    (args : list Value) :
  monotone (compareVar name bad args).
Proof.
  pose proof (monotone_compare_adjacent bad args).
  unfold compareVar. mono.
Qed.

Lemma monotone_fold_args (f : Value -> Value -> M Value) :
  (forall a b, monotone (f a b)) ->
  forall args result, monotone (fold_args f result args).
Proof.
  intros Hf. induction args as [|a args IH]; intros result;
    cbn [fold_args]; mono.
Qed.

Lemma monotone_ListFunc_loop (rev_args : list Value) (result : Value) :
  monotone (ListFunc_loop rev_args result).
Proof.
  revert result.
  induction rev_args as [|a rest IH]; intros result; cbn [ListFunc_loop];
    mono.
Qed.

Lemma monotone_IsList_walk (fuel : nat) (current : Value) :
  monotone (IsList_walk fuel current).
Proof.
  revert current.
  induction fuel as [|fuel IH]; intros current; cbn [IsList_walk]; mono.
Qed.

Lemma monotone_IsEq (rand1 rand2 : Value) :
  monotone (IsEq_evalRator rand1 rand2).
Proof. unfold IsEq_evalRator. mono. Qed.

#[local] Hint Resolve monotone_compareVar monotone_fold_args
  monotone_ListFunc_loop monotone_IsList_walk monotone_IsEq : monotone.

Lemma monotone_build_list (env : Assoc) (l : list Syntax) :
  Forall (fun X => monotone (syntaxToValue X env)) l ->
  forall result, monotone (build_list result l env).
Proof.
  induction 1 as [|X l HX Hl IH]; intros result; cbn [build_list]; mono.
Qed.

Lemma monotone_syntaxToValue (X : Syntax) (env : Assoc) :
  monotone (syntaxToValue X env).
Proof.
  induction X as [n|nu de|str|str| | |stxs IHl] using Syntax_nested_ind;
    try solve [cbn [syntaxToValue]; mono].
  intros s s' H. rewrite syntaxToValue_List in H.
  destruct stxs as [|X0 stxs0]; [exact (monotone_new_obj Null s s' H)|].
  apply (later_trans _ _ _ (later_alloc s Null)).
  exact (monotone_build_list env _ IHl _ _ _ H).
Qed.

#[local] Hint Resolve monotone_syntaxToValue : monotone.

(** [set-car!] and [set-cdr!]: the object overwritten is a pair, and a pair
    is written. *)
Lemma monotone_SetCar (rand1 rand2 : Value) :
  monotone (Binary_evalRator SetCar rand1 rand2).
Proof.
  intros s s' H. cbn [Binary_evalRator] in H. unfold bind, deref in H.
  destruct (objects s !! rand1) as [o|] eqn:Hp; [|discriminate].
  destruct o; try (injection H as <-; apply later_refl).
  cbn [store_obj VoidV new_obj] in H. injection H as <-.
  exact (later_trans _ _ _ (later_overwritten s rand1 _ _ rand2 cdr Hp)
           (later_alloc _ Void)).
Qed.

Lemma monotone_SetCdr (rand1 rand2 : Value) :
  monotone (Binary_evalRator SetCdr rand1 rand2).
Proof.
  intros s s' H. cbn [Binary_evalRator] in H. unfold bind, deref in H.
  destruct (objects s !! rand1) as [o|] eqn:Hp; [|discriminate].
  destruct o; try (injection H as <-; apply later_refl).
  cbn [store_obj VoidV new_obj] in H. injection H as <-.
  exact (later_trans _ _ _ (later_overwritten s rand1 _ _ car rand2 Hp)
           (later_alloc _ Void)).
Qed.

Lemma monotone_Binary_evalRator (op : BinaryOp) (rand1 rand2 : Value) :
  monotone (Binary_evalRator op rand1 rand2).
Proof.
  destruct op;
    try apply monotone_SetCar; try apply monotone_SetCdr;
    cbn [Binary_evalRator]; mono.
Qed.

Lemma monotone_Variadic_evalRator (op : VariadicOp) (args : list Value) :
  monotone (Variadic_evalRator op args).
Proof.
  destruct op; cbn [Variadic_evalRator];
    unfold PlusVar_evalRator, MinusVar_evalRator, MultVar_evalRator,
      DivVar_evalRator, ListFunc_evalRator; mono.
Qed.

Lemma monotone_Unary_evalRator (show : list ValueBase -> Value -> string)
    (fuel : nat) (op : UnaryOp) (rand : Value) :
  monotone (Unary_evalRator show fuel op rand).
Proof. unfold Unary_evalRator. mono. Qed.

Lemma monotone_Var_eval (prims : string -> option ExprType) (x : string)
    (e : Assoc) :
  monotone (Var_eval prims x e).
Proof.
  intros s s' H. unfold Var_eval in H.
  destruct (find x e s); [|destruct (prims x)];
    injection H as <-; apply later_refl.
Qed.

#[local] Hint Resolve monotone_Binary_evalRator monotone_Variadic_evalRator
  monotone_Unary_evalRator monotone_Var_eval : monotone.

Section MonotoneLoops.

Variable ev : Expr -> Assoc -> M Value.
Hypothesis monotone_ev : forall expr e, monotone (ev expr e).

Lemma monotone_evalRands (rands : list Expr) (e : Assoc) :
  monotone (evalRands ev rands e).
Proof. induction rands as [|r rands IH]; cbn [evalRands]; mono. Qed.

Lemma monotone_Begin_loop (es : list Expr) (e : Assoc) (result : Value) :
  monotone (Begin_loop ev es e result).
Proof.
  revert result.
  induction es as [|x es IH]; intros result; cbn [Begin_loop]; mono.
Qed.

Lemma monotone_AndVar_loop (rands : list Expr) (e : Assoc) (result : Value) :
  monotone (AndVar_loop ev rands e result).
Proof.
  revert result.
  induction rands as [|x rands IH]; intros result; cbn [AndVar_loop]; mono.
Qed.

Lemma monotone_OrVar_eval (rands : list Expr) (e : Assoc) :
  monotone (OrVar_eval ev rands e).
Proof. induction rands as [|x rands IH]; cbn [OrVar_eval]; mono. Qed.

#[local] Hint Resolve monotone_evalRands monotone_Begin_loop
  monotone_AndVar_loop monotone_OrVar_eval : monotone.

Lemma monotone_Cond_eval (clauses : list (list Expr)) (env : Assoc) :
  monotone (Cond_eval ev clauses env).
Proof.
  induction clauses as [|[|test body] clauses IH]; cbn [Cond_eval]; mono.
Qed.

Lemma monotone_extend_params (parameters : list string) (args : list Value)
    (param_env : Assoc) :
  monotone (extend_params parameters args param_env).
Proof.
  revert args param_env.
  induction parameters as [|p parameters IH]; intros [|a args] param_env;
    cbn [extend_params]; mono.
Qed.

Lemma monotone_Let_loop (bindings : list (string * Expr))
    (env newEnv : Assoc) :
  monotone (Let_loop ev bindings env newEnv).
Proof.
  revert newEnv.
  induction bindings as [|[x e] bindings IH]; intros newEnv;
    cbn [Let_loop]; mono.
Qed.

Lemma monotone_Letrec_placeholders (bindings : list (string * Expr))
    (newEnv : Assoc) :
  monotone (Letrec_placeholders bindings newEnv).
Proof.
  revert newEnv.
  induction bindings as [|[x e] bindings IH]; intros newEnv;
    cbn [Letrec_placeholders]; mono.
Qed.

Lemma monotone_Letrec_patch (bindings : list (string * Expr))
    (newEnv : Assoc) :
  monotone (Letrec_patch ev bindings newEnv).
Proof.
  induction bindings as [|[x e] bindings IH]; cbn [Letrec_patch]; mono.
Qed.

End MonotoneLoops.

#[local] Hint Resolve monotone_evalRands monotone_Begin_loop
  monotone_AndVar_loop monotone_OrVar_eval monotone_Cond_eval
  monotone_extend_params monotone_Let_loop monotone_Letrec_placeholders
  monotone_Letrec_patch : monotone.

Lemma monotone_eval (show : list ValueBase -> Value -> string)
    (prims : string -> option ExprType) (fuel : nat) :
  forall expr e, monotone (eval show prims fuel expr e).
Proof.
  induction fuel as [|fuel IH]; intros expr e; [apply monotone_diverge|].
  destruct expr; cbn [eval];
    unfold Begin_eval, AndVar_eval, If_eval, Apply_eval, Define_eval,
      Let_eval, Letrec_eval, Set_eval; mono.
Qed.

(** X26: evaluation only moves the store forward.  Whatever the expression,
    when its evaluation returns or raises an error, every object that
    existed before is still at its address with the same type tag, and is
    unchanged unless it is a pair (only [set-car!] and [set-cdr!] write to
    an existing object); no binding cell has been removed; and the output
    is the earlier output with text added at its end. *)
Theorem evaluation_only_moves_the_store_forward
    (show : list ValueBase -> Value -> string)
    (prims : string -> option ExprType)
    (fuel : nat) (expr : Expr) (e : Assoc) (s s' : Store) :
  final_store (eval show prims fuel expr e s) = Some s' ->
  later s s'.
Proof. apply monotone_eval. Qed.

Lemma evaluation_only_moves_the_store_forward_witness :
  later (mkStore [Integer 1; Pair 0 0] [1] [])
        (mkStore [Integer 1; Pair 2 0; Integer 3; Void] [1] []).
Proof.
  apply (evaluation_only_moves_the_store_forward no_show primitives 3
           (Binary SetCar (Var "p") (Fixnum 3)) [("p", 0)]).
  reflexivity.
Defined.

Lemma monotone_run_form (show : list ValueBase -> Value -> string)
    (fuel : nat) (stx : Syntax) (global_env : Assoc) :
  monotone (run_form show fuel stx global_env).
Proof.
  unfold run_form. apply monotone_bind; [|intros expr; apply monotone_eval].
  intros s s' H.
  destruct (parse_pure_bounded primitives reserved_words (Syntax_size stx)
              stx (le_n _) global_env s) as [[expr He]|[msg He]];
    rewrite He in H; injection H as <-; apply later_refl.
Qed.

Lemma monotone_REPL_loop (show : list ValueBase -> Value -> string)
    (fuel : nat) (global_env : Assoc) (forms : list Syntax) :
  monotone (REPL_loop show fuel forms global_env).
Proof.
  induction forms as [|stx forms IH]; [apply monotone_ret|].
  intros s s' H. cbn [REPL_loop] in H.
  pose proof (monotone_run_form show fuel stx global_env s) as Hrun.
  assert (Hrest : forall str, monotone
            (print str ;;; print newline ;;;
             REPL_loop show fuel forms global_env)) by (intros str; mono).
  destruct (run_form show fuel stx global_env s) as [val s1|msg s1| |];
    try discriminate.
  - specialize (Hrun s1 eq_refl).
    destruct (objects s1 !! val) as [o|]; [|discriminate].
    destruct o;
      try (apply (later_trans _ _ _ Hrun); exact (Hrest _ _ _ H)).
    injection H as <-. exact Hrun.
  - specialize (Hrun s1 eq_refl).
    apply (later_trans _ _ _ Hrun). exact (Hrest _ _ _ H).
Qed.

(** X27: the driver only adds to what there is.  When the read-eval-print
    loop ends on a list of forms, the output it leaves is the output it
    started with followed by what the forms wrote, and the objects that
    existed before are still there (changed only if they are pairs). *)
Theorem REPL_only_adds_output
    (show : list ValueBase -> Value -> string)
    (fuel : nat) (forms : list Syntax) (s s' : Store) :
  REPL show fuel forms s = OK tt s' ->
  later s s'.
Proof.
  intros H. apply (monotone_REPL_loop show fuel empty forms s s').
  unfold REPL in H. rewrite H. reflexivity.
Qed.

Lemma REPL_only_adds_output_witness :
  later (mkStore [] [] ["earlier"])
        (mkStore [Integer 1] [] ["earlier"; ""; newline]).
Proof.
  apply (REPL_only_adds_output no_show 3 [Number 1]). reflexivity.
Defined.

(** * The type predicates *)

Lemma answers_true_BooleanV (b : bool) (s : Store) :
  answers_true (BooleanV b s) = b.
Proof.
  unfold answers_true, BooleanV, new_obj. cbn [objects].
  rewrite list_lookup_middle by reflexivity. destruct b; reflexivity.
Qed.

(** X28: the type predicates partition the values.  For every value, at most
    one of [boolean?], [number?], [null?], [pair?], [procedure?], [symbol?]
    and [string?] answers [#t]; exactly one does, unless the value is a
    Rational, the Void object or the Terminate object, which none of them
    recognises. *)
Theorem type_predicates_partition_the_values
    (show : list ValueBase -> Value -> string)
    (fuel : nat) (s : Store) (v : Value) (o : ValueBase) :
  objects s !! v = Some o ->
  length (List.filter
            (fun op => answers_true (Unary_evalRator show fuel op v s))
            type_predicates)
  = if untyped o then 0 else 1.
Proof.
  intros H. unfold type_predicates, Unary_evalRator, bind.
  rewrite (deref_Some _ _ _ H). cbn [List.filter].
  rewrite !answers_true_BooleanV.
  destruct o; reflexivity.
Qed.

Lemma type_predicates_partition_the_values_witness :
  length (List.filter
            (fun op => answers_true
               (Unary_evalRator no_show 0 op 0 (alloc empty_store (Rational 1 2))))
            type_predicates)
  = 0.
Proof.
  exact (type_predicates_partition_the_values no_show 0
           (alloc empty_store (Rational 1 2)) 0 (Rational 1 2) eq_refl).
Defined.

(** * From the text to the value *)

Lemma parse_operands_literals (prims rwords : string -> option ExprType)
    (ks : list Z) (env : Assoc) (s : Store) :
  parse_operands prims rwords (map Number ks) env s = OK (map Fixnum ks) s.
Proof.
  induction ks as [|k ks IH]; [reflexivity|].
  cbn [map parse_operands parse]. unfold bind, ret. rewrite IH. reflexivity.
Qed.

Lemma seq_points_to_integers (ks : list Z) :
  forall objs : list ValueBase,
    points_to_integers (objs ++ map Integer ks)
      (seq (length objs) (length ks)) ks.
Proof.
  induction ks as [|k ks IH]; intros objs; [constructor|].
  cbn [map length seq]. constructor.
  - apply list_lookup_middle. reflexivity.
  - specialize (IH (objs ++ [Integer k])).
    rewrite length_app, Nat.add_1_r, <- app_assoc in IH. exact IH.
Qed.

Lemma evalRands_literals (show : list ValueBase -> Value -> string)
    (prims : string -> option ExprType) (fuel : nat) (e : Assoc)
    (ks : list Z) :
  forall s,
    evalRands (eval show prims (S fuel)) (map Fixnum ks) e s
    = OK (seq (fresh s) (length ks)) (grown s (map Integer ks)).
Proof.
  induction ks as [|k ks IH]; intros s.
  - rewrite grown_nil. reflexivity.
  - cbn [map evalRands]. unfold bind.
    change (eval show prims (S fuel) (Fixnum k) e s)
      with (OK (fresh s) (alloc s (Integer k))).
    cbv beta iota. rewrite IH. unfold ret. rewrite alloc_grown, grown_grown.
    cbn [length seq]. f_equal. f_equal.
    unfold fresh, grown. cbn [objects]. rewrite length_app, Nat.add_1_r.
    reflexivity.
Qed.

Lemma eval_Variadic (show : list ValueBase -> Value -> string)
    (prims : string -> option ExprType) (fuel : nat) (op : VariadicOp)
    (rands : list Expr) (e : Assoc) :
  eval show prims (S fuel) (Variadic op rands) e
  = (args <- evalRands (eval show prims fuel) rands e ;;
     Variadic_evalRator op args).
Proof. reflexivity. Qed.

Lemma eval_Binary (show : list ValueBase -> Value -> string)
    (prims : string -> option ExprType) (fuel : nat) (op : BinaryOp)
    (rand1 rand2 : Expr) (e : Assoc) :
  eval show prims (S fuel) (Binary op rand1 rand2) e
  = (v1 <- eval show prims fuel rand1 e ;;
     v2 <- eval show prims fuel rand2 e ;;
     Binary_evalRator op v1 v2).
Proof. reflexivity. Qed.

Lemma PlusVar_integers (s : Store) (args : list Value) (ns : list Z) :
  points_to_integers (objects s) args ns ->
  Forall in_int ns ->
  exists r more,
    PlusVar_evalRator args s = OK r (grown s more)
    /\ objects (grown s more) !! r = Some (Integer (wrap_int (Z_sum ns))).
Proof.
  intros Hargs Hint.
  destruct Hargs as [|v n args ns Hv Hrest].
  { exists (fresh s), [Integer 0]. split; [reflexivity|].
    apply lookup_alloc_fresh. }
  inversion Hint as [|? ? Hn _]; subst.
  destruct (fold_args_integers addValues Z.add addValues_integers args ns
              (alloc s (Integer 0)) v n
              (lookup_alloc_old_int s v n (Integer 0) Hv)
              (points_to_integers_grown _ _ _ _ Hrest))
    as (r & more & Hrun & Hlook).
  exists r, ([Integer 0] ++ more).
  rewrite alloc_grown, grown_grown in Hrun, Hlook.
  split; [exact Hrun|].
  rewrite Hlook, fold_left_wrapped_sum by exact Hn. reflexivity.
Qed.

(** X29: from the text to the value.  A top-level form [(+ k1 ... kn)] whose
    operands are integer literals, with [+] not bound in the environment, is
    parsed and evaluated to the Integer that is the sum of the literals
    wrapped to 32 bits, for every number of operands: none (the sum is 0),
    two (the parser builds the two-operand node) or any other number (the
    variadic node).  Only new objects are allocated. *)
Theorem sum_of_literals_from_text_to_value
    (show : list ValueBase -> Value -> string)
    (fuel : nat) (ks : list Z) (global_env : Assoc) (s : Store) :
  find "+" global_env s = None ->
  Forall in_int ks ->
  exists v more,
    run_form show (S (S fuel)) (List (sym "+" :: map Number ks)) global_env s
    = OK v (grown s more)
    /\ objects (grown s more) !! v = Some (Integer (wrap_int (Z_sum ks))).
Proof.
  intros Hfind Hint. unfold run_form, sym.
  assert (Hparse :
    parse primitives reserved_words (List (SymbolSyntax "+" :: map Number ks))
      global_env s
    = binary_or_variadic Plus PlusVar (map Fixnum ks) s).
  { cbn [parse]. rewrite Hfind.
    change (primitives "+") with (Some E_PLUS).
    rewrite parse_operands_local. unfold bind at 1.
    rewrite parse_operands_literals. reflexivity. }
  unfold bind at 1. rewrite Hparse.
  assert (Hvariadic : exists v more,
    eval show primitives (S (S fuel)) (Variadic PlusVar (map Fixnum ks))
      global_env s = OK v (grown s more)
    /\ objects (grown s more) !! v = Some (Integer (wrap_int (Z_sum ks)))).
  { rewrite eval_Variadic. unfold bind at 1. rewrite evalRands_literals.
    cbn [Variadic_evalRator].
    destruct (PlusVar_integers (grown s (map Integer ks))
                (seq (fresh s) (length ks)) ks
                (seq_points_to_integers ks (objects s)) Hint)
      as (r & more & Hrun & Hlook).
    rewrite grown_grown in Hrun, Hlook.
    exists r, (map Integer ks ++ more). split; [exact Hrun|exact Hlook]. }
  destruct ks as [|a [|b [|c ks]]]; try exact Hvariadic.
  (* two operands: the node is [Binary Plus] *)
  exists (fresh (alloc (alloc s (Integer a)) (Integer b))),
    ([Integer a] ++ [Integer b] ++ [Integer (wrap_int (a + b))]).
  cbn [map binary_or_variadic ret].
  rewrite <- !grown_grown, <- !alloc_grown. split.
  - rewrite eval_Binary. unfold bind at 1 2.
    change (eval show primitives (S fuel) (Fixnum a) global_env s)
      with (OK (fresh s) (alloc s (Integer a))).
    cbv beta iota.
    change (eval show primitives (S fuel) (Fixnum b) global_env
              (alloc s (Integer a)))
      with (OK (fresh (alloc s (Integer a)))
              (alloc (alloc s (Integer a)) (Integer b))).
    cbv beta iota. cbn [Binary_evalRator].
    apply addValues_integers.
    + apply lookup_alloc_old_int. apply lookup_alloc_fresh.
    + apply lookup_alloc_fresh.
  - rewrite lookup_alloc_fresh. cbn [Z_sum fold_right].
    rewrite Z.add_0_r. reflexivity.
Qed.

Lemma sum_of_literals_from_text_to_value_witness :
  exists v more,
    run_form no_show 2 (List [sym "+"; Number 1; Number 2; Number 3]) empty
      empty_store = OK v (grown empty_store more)
    /\ objects (grown empty_store more) !! v
       = Some (Integer (wrap_int (Z_sum [1; 2; 3]%Z))).
Proof.
  apply (sum_of_literals_from_text_to_value no_show 0 [1; 2; 3]%Z empty
           empty_store eq_refl).
  repeat constructor; unfold in_int, INT_MIN, INT_MAX; lia.
Defined.
